(** * The mark-and-sweep collector of [src/core/gc.c]

    A shallow embedding of the collector: the block header and the
    allocator ([dst_alloc]), the type-dispatched tracer ([dst_mark] and
    the [dst_mark_*] helpers), the finalizer ([dst_deinit_block]), the
    sweeper ([dst_sweep]) and the driver ([dst_collect]), followed by the
    properties of the specification that concern them.

    Memory is typed: a GC block is a header (link and flags) followed by
    one C struct, and secondary [malloc]ed arrays are lists of cells
    keyed by their start address.  Addresses are byte addresses in [Z],
    [0] is the null pointer.  A load through a pointer that does not
    lead to an object of the type the code casts it to has no defined
    value and is the outcome [Crash].  The calls the finalizer and the
    sweeper make ([free], the interner, a userdata finalizer) and the
    stores of the sweeper are events of a trace, so that what happens to
    a block after its [free] can be told. *)

From stdpp Require Import base option list gmap.
From Stdlib Require Import ZArith Lia.

Local Open Scope Z_scope.

(** ** Outcomes *)

(** Recursion through the object graph and the pointer-chasing loops
    take fuel; [OutOfFuel] is kept apart from [Crash] so that
    termination can be stated. *)
Inductive Res (A : Type) : Type :=
  | Done (a : A)
  | Crash
  | OutOfFuel.
Arguments Done {A} a.
Arguments Crash {A}.
Arguments OutOfFuel {A}.

Definition res_bind {A B} (m : Res A) (k : A -> Res B) : Res B :=
  match m with
  | Done a => k a
  | Crash => Crash
  | OutOfFuel => OutOfFuel
  end.

(** A load: [None] is a read the C program cannot perform. *)
Definition load {A} (o : option A) : Res A :=
  match o with
  | Some a => Done a
  | None => Crash
  end.

Notation "x <- m ;; k" := (res_bind m (fun x => k))
  (at level 100, m at next level, right associativity).

(** ** Values and object layouts *)

(** Modelled from the spec: the value tags of dst.h, which is not among
    the sources.  gc.c names the heap kinds in the switch of [dst_mark]
    and the boolean tag in [dst_mark_funcdef]. *)
Inductive DstType : Set :=
  | DST_NIL | DST_REAL | DST_INTEGER | DST_BOOLEAN
  | DST_STRING | DST_SYMBOL | DST_ARRAY | DST_TUPLE
  | DST_TABLE | DST_STRUCT | DST_FIBER | DST_BUFFER
  | DST_FUNCTION | DST_CFUNCTION | DST_USERDATA.

(** Modelled from the spec: [DstValue] is a discriminant and a union.
    [as_] is the raw payload, which the code reads as [x.as.pointer],
    [x.as.array], ... according to the tag, and as a pointer under the
    boolean tag in the constants of a funcdef. *)
Record DstValue : Set := { type : DstType; as_ : Z }.

(** Modelled from the spec: the memory types of dst.h; gc.c names them
    in the switch of [dst_deinit_block]. *)
Inductive DstMemoryType : Set :=
  | DST_MEMORY_NONE | DST_MEMORY_STRING | DST_MEMORY_SYMBOL
  | DST_MEMORY_ARRAY | DST_MEMORY_TUPLE | DST_MEMORY_TABLE
  | DST_MEMORY_STRUCT | DST_MEMORY_FIBER | DST_MEMORY_BUFFER
  | DST_MEMORY_FUNCTION | DST_MEMORY_USERDATA | DST_MEMORY_FUNCENV
  | DST_MEMORY_FUNCDEF.

(** Modelled from the spec: the numbering of the type tags, declared in
    dst.h, which is not among the sources.  The flags field holds the
    tag in its low bits. *)
Definition mem_tag (t : DstMemoryType) : Z :=
  match t with
  | DST_MEMORY_NONE => 0 | DST_MEMORY_STRING => 1 | DST_MEMORY_SYMBOL => 2
  | DST_MEMORY_ARRAY => 3 | DST_MEMORY_TUPLE => 4 | DST_MEMORY_TABLE => 5
  | DST_MEMORY_STRUCT => 6 | DST_MEMORY_FIBER => 7 | DST_MEMORY_BUFFER => 8
  | DST_MEMORY_FUNCTION => 9 | DST_MEMORY_USERDATA => 10
  | DST_MEMORY_FUNCENV => 11 | DST_MEMORY_FUNCDEF => 12
  end.

(** Modelled from the spec: the three parts of the flags bitfield (the
    type tag, the reachable bit, the disabled/pinned bit); the masks are
    macros of dst.h. *)
Definition DST_MEM_TYPEBITS : Z := 0xff.
Definition DST_MEM_REACHABLE : Z := 0x100.
Definition DST_MEM_DISABLED : Z := 0x200.

(** Modelled from the spec: the header is a link and the flags; its
    size is [sizeof(DstGCMemoryHeader)] where pointers have 8 bytes. *)
Definition sizeof_DstGCMemoryHeader : Z := 16.

(** Modelled from the spec: the number of value slots a stack frame
    header takes below its frame base ([DST_FRAME_SIZE] of dst.h). *)
Definition DST_FRAME_SIZE : Z := 2.

Definition uint32 (z : Z) : Z := z mod 2 ^ 32.

(** Modelled from the spec: the object structs are declared in dst.h;
    these are the fields that gc.c reads or frees, under the names it
    uses (with a prefix where two structs share a name). *)
Record DstStackFrame : Set := { func : Z; prevframe : Z }.

Record DstArray : Set := { array_data : Z; array_count : Z }.
Record DstTable : Set := { table_data : Z; table_capacity : Z }.
Record DstBuffer : Set := { buffer_data : Z }.
Record DstFiber : Set :=
  { fiber_data : Z; fiber_parent : Z; frame : Z; frametop : Z;
    ret : DstValue }.
Record DstFunction : Set := { def : Z; envs : Z }.
Record DstFuncEnv : Set := { env_as : Z; env_length : Z; offset : Z }.
Record DstFuncDef : Set :=
  { environments : Z; constants : Z; bytecode : Z;
    constants_length : Z; environments_length : Z }.
(** [h->type->finalize] and [h->size] of a userdata header; a
    function pointer is an address, null when there is no finalizer. *)
Record DstUserdataHeader : Set := { finalize : Z; userdata_size : Z }.

(** Modelled from the spec: [sizeof(DstUserdataHeader)], a pointer and a
    [size_t]; the payload of a userdata follows it. *)
Definition sizeof_DstUserdataHeader : Z := 16.

(** What lies behind the header of a block.  Strings, symbols, tuples
    and structs keep their payload inline; tuples and structs are the
    value sequences the tracer walks. *)
Inductive Body : Set :=
  | Uninit
  | StringBody
  | ArrayBody (a : DstArray)
  | TupleBody (length : Z) (data : list DstValue)
  | TableBody (t : DstTable)
  | StructBody (capacity : Z) (data : list DstValue)
  | FiberBody (f : DstFiber)
  | BufferBody (b : DstBuffer)
  | FunctionBody (f : DstFunction)
  | UserdataBody (u : DstUserdataHeader)
  | FuncEnvBody (e : DstFuncEnv)
  | FuncDefBody (d : DstFuncDef).

(** [DstGCMemoryHeader] with the object that follows it. *)
Record Block : Set := { next : Z; flags : Z; body : Body }.

(** A cell of a secondary array: a value, the frame header stored in a
    fiber stack (its first slot; the others are padding), an entry of a
    function's [envs], or untraced data. *)
Inductive Cell : Set :=
  | CValue (v : DstValue)
  | CFrame (f : DstStackFrame)
  | CPad
  | CEnv (p : Z)
  | CRaw.

Record Heap : Type :=
  { blocks : gmap Z Block;       (* keyed by header address *)
    bufs : gmap Z (list Cell) }. (* keyed by start address *)

(** ** Header access *)

(** Modelled from the spec: the helpers of dst.h that go from a body
    pointer to its header (a fixed negative offset), and from a string,
    tuple or struct pointer to its body (behind two [uint32_t]), and
    from a userdata payload to its userdata header. *)
Definition dst_gc_header (m : Z) : Z := m - sizeof_DstGCMemoryHeader.
Definition dst_string_raw (str : Z) : Z := str - 8.
Definition dst_tuple_raw (t : Z) : Z := t - 8.
Definition dst_struct_raw (t : Z) : Z := t - 8.
Definition dst_userdata_header (u : Z) : Z := u - sizeof_DstUserdataHeader.

Definition set_flags (a : Z) (fl : Z) (h : Heap) : Heap :=
  {| blocks := alter (fun b => {| next := next b; flags := fl; body := body b |})
                 a (blocks h);
     bufs := bufs h |}.

Definition reachable_bit (fl : Z) : bool := negb (Z.land fl DST_MEM_REACHABLE =? 0).
Definition disabled_bit (fl : Z) : bool := negb (Z.land fl DST_MEM_DISABLED =? 0).

(** Modelled from the spec: [dst_gc_reachable(m)] tests and
    [dst_gc_mark(m)] sets the reachable bit in the header of [m]. *)
Definition dst_gc_reachable (m : Z) (h : Heap) : Res bool :=
  b <- load (blocks h !! dst_gc_header m) ;;
  Done (reachable_bit (flags b)).

Definition dst_gc_mark (m : Z) (h : Heap) : Res Heap :=
  b <- load (blocks h !! dst_gc_header m) ;;
  Done (set_flags (dst_gc_header m) (Z.lor (flags b) DST_MEM_REACHABLE) h).

(** ** Typed loads *)

Definition body_at (h : Heap) (m : Z) : option Body :=
  body <$> blocks h !! dst_gc_header m.

Definition array_at (h : Heap) (m : Z) : option DstArray :=
  match body_at h m with Some (ArrayBody a) => Some a | _ => None end.
Definition table_at (h : Heap) (m : Z) : option DstTable :=
  match body_at h m with Some (TableBody a) => Some a | _ => None end.
Definition fiber_at (h : Heap) (m : Z) : option DstFiber :=
  match body_at h m with Some (FiberBody a) => Some a | _ => None end.
Definition buffer_at (h : Heap) (m : Z) : option DstBuffer :=
  match body_at h m with Some (BufferBody a) => Some a | _ => None end.
Definition function_at (h : Heap) (m : Z) : option DstFunction :=
  match body_at h m with Some (FunctionBody a) => Some a | _ => None end.
Definition userdata_at (h : Heap) (m : Z) : option DstUserdataHeader :=
  match body_at h m with Some (UserdataBody a) => Some a | _ => None end.
Definition funcenv_at (h : Heap) (m : Z) : option DstFuncEnv :=
  match body_at h m with Some (FuncEnvBody a) => Some a | _ => None end.
Definition funcdef_at (h : Heap) (m : Z) : option DstFuncDef :=
  match body_at h m with Some (FuncDefBody a) => Some a | _ => None end.

(** [p[i]] for a secondary array [p]. *)
Definition cell_at (h : Heap) (p i : Z) : option Cell :=
  if i <? 0 then None
  else cs ← bufs h !! p; cs !! Z.to_nat i.

(** A pointer to values: the array it points into and an index. *)
Inductive ValuePtr : Set :=
  | InBuffer (p : Z) (i : Z)   (* [(DstValue * )p + i], [p] from malloc *)
  | InTuple (t : Z) (i : Z)    (* [t + i], the values of the tuple start at [t] *)
  | InStruct (t : Z) (i : Z).

Definition ptr_add (p : ValuePtr) (k : Z) : ValuePtr :=
  match p with
  | InBuffer b i => InBuffer b (i + k)
  | InTuple b i => InTuple b (i + k)
  | InStruct b i => InStruct b (i + k)
  end.

Definition inline_at (data : list DstValue) (i : Z) : option DstValue :=
  if i <? 0 then None else data !! Z.to_nat i.

Definition value_at (h : Heap) (p : ValuePtr) : option DstValue :=
  match p with
  | InBuffer b i =>
      match cell_at h b i with Some (CValue v) => Some v | _ => None end
  | InTuple t i =>
      match body_at h (dst_tuple_raw t) with
      | Some (TupleBody _ data) => inline_at data i
      | _ => None
      end
  | InStruct t i =>
      match body_at h (dst_struct_raw t) with
      | Some (StructBody _ data) => inline_at data i
      | _ => None
      end
  end.

(** Modelled from the spec: [dst_tuple_length] and
    [dst_struct_capacity] read the count kept in front of the values. *)
Definition dst_tuple_length (h : Heap) (t : Z) : option Z :=
  match body_at h (dst_tuple_raw t) with
  | Some (TupleBody n _) => Some n
  | _ => None
  end.
Definition dst_struct_capacity (h : Heap) (t : Z) : option Z :=
  match body_at h (dst_struct_raw t) with
  | Some (StructBody n _) => Some n
  | _ => None
  end.

Definition frame_at (h : Heap) (p i : Z) : option DstStackFrame :=
  match cell_at h p i with Some (CFrame f) => Some f | _ => None end.
Definition env_at (h : Heap) (p i : Z) : option Z :=
  match cell_at h p i with Some (CEnv e) => Some e | _ => None end.

(** ** The tracer *)

(** [for (i = i0; n more times; ++i) body]. *)
Fixpoint for_loop (n : nat) (i : Z) (body : Z -> Heap -> Res Heap) (h : Heap)
  : Res Heap :=
  match n with
  | O => Done h
  | S n' => h' <- body i h ;; for_loop n' (i + 1) body h'
  end.

Definition dst_mark_string (str : Z) (h : Heap) : Res Heap :=
  dst_gc_mark (dst_string_raw str) h.

Definition dst_mark_buffer (buffer : Z) (h : Heap) : Res Heap :=
  dst_gc_mark buffer h.

Definition dst_mark_udata (udata : Z) (h : Heap) : Res Heap :=
  dst_gc_mark (dst_userdata_header udata) h.

(** [dst_mark_many], over the marking routine for one value. *)
Definition dst_mark_many (mark : DstValue -> Heap -> Res Heap)
    (values : ValuePtr) (n : Z) (h : Heap) : Res Heap :=
  for_loop (Z.to_nat n) 0
    (fun k h => v <- load (value_at h (ptr_add values k)) ;; mark v h) h.

Fixpoint dst_mark (fuel : nat) (x : DstValue) (h : Heap) {struct fuel}
  : Res Heap :=
  match fuel with
  | O => OutOfFuel
  | S fuel =>
      match type x with
      | DST_STRING | DST_SYMBOL => dst_mark_string (as_ x) h
      | DST_FUNCTION => dst_mark_function fuel (as_ x) h
      | DST_ARRAY => dst_mark_array fuel (as_ x) h
      | DST_TABLE => dst_mark_table fuel (as_ x) h
      | DST_STRUCT => dst_mark_struct fuel (as_ x) h
      | DST_TUPLE => dst_mark_tuple fuel (as_ x) h
      | DST_BUFFER => dst_mark_buffer (as_ x) h
      | DST_FIBER => dst_mark_fiber fuel (as_ x) h
      | DST_USERDATA => dst_mark_udata (as_ x) h
      | _ => Done h
      end
  end

with dst_mark_array (fuel : nat) (array : Z) (h : Heap) {struct fuel}
  : Res Heap :=
  match fuel with
  | O => OutOfFuel
  | S fuel =>
      r <- dst_gc_reachable array h ;;
      if (r : bool) then Done h else
      h <- dst_gc_mark array h ;;
      a <- load (array_at h array) ;;
      dst_mark_many (dst_mark fuel) (InBuffer (array_data a) 0) (array_count a) h
  end

with dst_mark_table (fuel : nat) (table : Z) (h : Heap) {struct fuel}
  : Res Heap :=
  match fuel with
  | O => OutOfFuel
  | S fuel =>
      r <- dst_gc_reachable table h ;;
      if (r : bool) then Done h else
      h <- dst_gc_mark table h ;;
      t <- load (table_at h table) ;;
      dst_mark_many (dst_mark fuel) (InBuffer (table_data t) 0) (table_capacity t) h
  end

with dst_mark_struct (fuel : nat) (st : Z) (h : Heap) {struct fuel}
  : Res Heap :=
  match fuel with
  | O => OutOfFuel
  | S fuel =>
      r <- dst_gc_reachable (dst_struct_raw st) h ;;
      if (r : bool) then Done h else
      h <- dst_gc_mark (dst_struct_raw st) h ;;
      n <- load (dst_struct_capacity h st) ;;
      dst_mark_many (dst_mark fuel) (InStruct st 0) n h
  end

with dst_mark_tuple (fuel : nat) (tuple : Z) (h : Heap) {struct fuel}
  : Res Heap :=
  match fuel with
  | O => OutOfFuel
  | S fuel =>
      r <- dst_gc_reachable (dst_tuple_raw tuple) h ;;
      if (r : bool) then Done h else
      h <- dst_gc_mark (dst_tuple_raw tuple) h ;;
      n <- load (dst_tuple_length h tuple) ;;
      dst_mark_many (dst_mark fuel) (InTuple tuple 0) n h
  end

with dst_mark_funcenv (fuel : nat) (env : Z) (h : Heap) {struct fuel}
  : Res Heap :=
  match fuel with
  | O => OutOfFuel
  | S fuel =>
      r <- dst_gc_reachable env h ;;
      if (r : bool) then Done h else
      h <- dst_gc_mark env h ;;
      e <- load (funcenv_at h env) ;;
      if negb (offset e =? 0) then
        (* On stack *)
        dst_mark_fiber fuel (env_as e) h
      else
        (* Not on stack *)
        dst_mark_many (dst_mark fuel) (InBuffer (env_as e) 0) (env_length e) h
  end

with dst_mark_funcdef (fuel : nat) (def : Z) (h : Heap) {struct fuel}
  : Res Heap :=
  match fuel with
  | O => OutOfFuel
  | S fuel =>
      r <- dst_gc_reachable def h ;;
      if (r : bool) then Done h else
      h <- dst_gc_mark def h ;;
      d <- load (funcdef_at h def) ;;
      if negb (constants d =? 0) then
        for_loop (Z.to_nat (constants_length d)) 0
          (fun i h =>
             v <- load (value_at h (InBuffer (constants d) i)) ;;
             (* Funcdefs use boolean literals to store other funcdefs *)
             match type v with
             | DST_BOOLEAN => dst_mark_funcdef fuel (as_ v) h
             | _ => dst_mark fuel v h
             end) h
      else Done h
  end

with dst_mark_function (fuel : nat) (func : Z) (h : Heap) {struct fuel}
  : Res Heap :=
  match fuel with
  | O => OutOfFuel
  | S fuel =>
      r <- dst_gc_reachable func h ;;
      if (r : bool) then Done h else
      h <- dst_gc_mark func h ;;
      f <- load (function_at h func) ;;
      d <- load (funcdef_at h (def f)) ;;
      let numenvs := environments_length d in
      h <- (if negb (envs f =? 0) then
              for_loop (Z.to_nat numenvs) 0
                (fun i h =>
                   e <- load (env_at h (envs f) i) ;;
                   if negb (e =? 0) then dst_mark_funcenv fuel e h else Done h) h
            else Done h) ;;
      dst_mark_funcdef fuel (def f) h
  end

with dst_mark_fiber (fuel : nat) (fiber : Z) (h : Heap) {struct fuel}
  : Res Heap :=
  match fuel with
  | O => OutOfFuel
  | S fuel =>
      r <- dst_gc_reachable fiber h ;;
      if (r : bool) then Done h else
      h <- dst_gc_mark fiber h ;;
      f <- load (fiber_at h fiber) ;;
      h <- dst_mark_fiber_frames fuel f (frame f) (frametop f) h ;;
      h <- (if negb (fiber_parent f =? 0)
            then dst_mark_fiber fuel (fiber_parent f) h else Done h) ;;
      dst_mark fuel (ret f) h
  end

(** The [while (i != 0)] loop of [dst_mark_fiber]; [i] and [j] are
    [uint32_t]. *)
with dst_mark_fiber_frames (fuel : nat) (f : DstFiber) (i j : Z) (h : Heap)
    {struct fuel} : Res Heap :=
  match fuel with
  | O => OutOfFuel
  | S fuel =>
      if i =? 0 then Done h else
      fr <- load (frame_at h (fiber_data f) (i - DST_FRAME_SIZE)) ;;
      h <- (if negb (func fr =? 0)
            then dst_mark_function fuel (func fr) h else Done h) ;;
      (* Mark all values in the stack frame *)
      h <- dst_mark_many (dst_mark fuel) (InBuffer (fiber_data f) i)
             (uint32 (j - i)) h ;;
      dst_mark_fiber_frames fuel f (prevframe fr) (uint32 (i - DST_FRAME_SIZE)) h
  end.

(** ** The collector's state and its observable events *)

Inductive Field : Set := FNext | FFlags.

Inductive Event : Set :=
  | EvDeinit (block : Z)                  (* [dst_deinit_block(block)] is entered *)
  | EvCacheRemove (v : DstValue)          (* [dst_cache_remove(v)] *)
  | EvFinalize (fn : Z) (p : Z) (sz : Z)  (* [h->type->finalize(p, sz)] *)
  | EvFree (p : Z)                        (* [free(p)] *)
  | EvStore (block : Z) (fld : Field).    (* a store to a header field in sweep *)

(** The globals of gc.c ([dst_vm_blocks], [dst_vm_next_collection]) and
    the two it reads ([dst_vm_fiber], [dst_vm_cache]), the memory, and
    the trace of events so far (oldest first). *)
Record VM : Type :=
  { dst_vm_blocks : Z;
    dst_vm_next_collection : Z;
    dst_vm_fiber : Z;
    dst_vm_cache : Z;
    heap : Heap;
    trace : list Event }.

Definition with_heap (h : Heap) (vm : VM) : VM :=
  {| dst_vm_blocks := dst_vm_blocks vm;
     dst_vm_next_collection := dst_vm_next_collection vm;
     dst_vm_fiber := dst_vm_fiber vm;
     dst_vm_cache := dst_vm_cache vm;
     heap := h;
     trace := trace vm |}.

Definition emit (e : Event) (vm : VM) : VM :=
  {| dst_vm_blocks := dst_vm_blocks vm;
     dst_vm_next_collection := dst_vm_next_collection vm;
     dst_vm_fiber := dst_vm_fiber vm;
     dst_vm_cache := dst_vm_cache vm;
     heap := heap vm;
     trace := trace vm ++ [e] |}.

Definition set_blocks_head (p : Z) (vm : VM) : VM :=
  {| dst_vm_blocks := p;
     dst_vm_next_collection := dst_vm_next_collection vm;
     dst_vm_fiber := dst_vm_fiber vm;
     dst_vm_cache := dst_vm_cache vm;
     heap := heap vm;
     trace := trace vm |}.

Definition set_next_collection (n : Z) (vm : VM) : VM :=
  {| dst_vm_blocks := dst_vm_blocks vm;
     dst_vm_next_collection := n;
     dst_vm_fiber := dst_vm_fiber vm;
     dst_vm_cache := dst_vm_cache vm;
     heap := heap vm;
     trace := trace vm |}.

(** [free(p)]: the call is recorded and whatever allocation starts at
    [p] is gone. *)
Definition free (p : Z) (vm : VM) : VM :=
  emit (EvFree p)
    (with_heap {| blocks := delete p (blocks (heap vm));
                  bufs := delete p (bufs (heap vm)) |} vm).

(** A store to [block->next] or [block->flags] is recorded; it changes
    the block when the block is still allocated, and lands in memory
    that was given back otherwise. *)
Definition store_next (block : Z) (n : Z) (vm : VM) : VM :=
  emit (EvStore block FNext)
    (with_heap
       {| blocks := alter (fun b => {| next := n; flags := flags b; body := body b |})
                      block (blocks (heap vm));
          bufs := bufs (heap vm) |} vm).

Definition update_flags (block : Z) (f : Z -> Z) (vm : VM) : VM :=
  emit (EvStore block FFlags)
    (with_heap
       {| blocks := alter (fun b => {| next := next b; flags := f (flags b); body := body b |})
                      block (blocks (heap vm));
          bufs := bufs (heap vm) |} vm).

(** ** The finalizer *)

(** Modelled from the spec: the constructors of values of dst.h. *)
Definition dst_wrap_string (p : Z) : DstValue := {| type := DST_STRING; as_ := p |}.
Definition dst_wrap_tuple (p : Z) : DstValue := {| type := DST_TUPLE; as_ := p |}.
Definition dst_wrap_struct (p : Z) : DstValue := {| type := DST_STRUCT; as_ := p |}.

Definition dst_deinit_block (block : Z) (vm : VM) : Res VM :=
  let vm := emit (EvDeinit block) vm in
  let mem := block + sizeof_DstGCMemoryHeader in
  let smem := mem + 2 * 4 in
  b <- load (blocks (heap vm) !! block) ;;
  let t := Z.land (flags b) DST_MEM_TYPEBITS in
  if t =? mem_tag DST_MEMORY_STRING then
    Done (emit (EvCacheRemove (dst_wrap_string smem)) vm)
  else if t =? mem_tag DST_MEMORY_ARRAY then
    a <- load (array_at (heap vm) mem) ;; Done (free (array_data a) vm)
  else if t =? mem_tag DST_MEMORY_TUPLE then
    Done (emit (EvCacheRemove (dst_wrap_tuple smem)) vm)
  else if t =? mem_tag DST_MEMORY_TABLE then
    a <- load (table_at (heap vm) mem) ;; Done (free (table_data a) vm)
  else if t =? mem_tag DST_MEMORY_STRUCT then
    Done (emit (EvCacheRemove (dst_wrap_struct smem)) vm)
  else if t =? mem_tag DST_MEMORY_FIBER then
    a <- load (fiber_at (heap vm) mem) ;; Done (free (fiber_data a) vm)
  else if t =? mem_tag DST_MEMORY_BUFFER then
    a <- load (buffer_at (heap vm) mem) ;; Done (free (buffer_data a) vm)
  else if t =? mem_tag DST_MEMORY_FUNCTION then
    a <- load (function_at (heap vm) mem) ;; Done (free (envs a) vm)
  else if t =? mem_tag DST_MEMORY_USERDATA then
    u <- load (userdata_at (heap vm) mem) ;;
    if negb (finalize u =? 0)
    then Done (emit (EvFinalize (finalize u) (mem + sizeof_DstUserdataHeader)
                       (userdata_size u)) vm)
    else Done vm
  else if t =? mem_tag DST_MEMORY_FUNCENV then
    env <- load (funcenv_at (heap vm) mem) ;;
    if 0 =? offset env then Done (free (env_as env) vm) else Done vm
  else if t =? mem_tag DST_MEMORY_FUNCDEF then
    d <- load (funcdef_at (heap vm) mem) ;;
    (* TODO - get this all with one alloc and one free *)
    Done (free (bytecode d) (free (constants d) (free (environments d) vm)))
  else
    Done vm. (* Do nothing for non gc types *)

(** ** The sweeper *)

(** The body of [while (current)], [previous] and [current] being the
    loop's variables. *)
Fixpoint dst_sweep_loop (fuel : nat) (previous current : Z) (vm : VM)
  : Res VM :=
  match fuel with
  | O => OutOfFuel
  | S fuel =>
      if current =? 0 then Done vm else
      b <- load (blocks (heap vm) !! current) ;;
      let next := next b in
      pv <- (if negb (Z.land (flags b) (Z.lor DST_MEM_REACHABLE DST_MEM_DISABLED) =? 0)
             then Done (current, vm)
             else
               vm <- dst_deinit_block current vm ;;
               let vm := if negb (previous =? 0)
                         then store_next previous next vm
                         else set_blocks_head next vm in
               Done (previous, free current vm)) ;;
      let vm := update_flags current
                  (fun fl => Z.land fl (Z.lnot DST_MEM_REACHABLE)) (snd pv) in
      dst_sweep_loop fuel (fst pv) next vm
  end.

Definition dst_sweep (fuel : nat) (vm : VM) : Res VM :=
  dst_sweep_loop fuel 0 (dst_vm_blocks vm) vm.

(** ** The allocator *)

(** Modelled from the spec: [DST_PLEASE_INIT] and [DST_OUT_OF_MEMORY],
    macros of dst.h, end the process (both errors are fatal). *)
Inductive Fatal : Set := PLEASE_INIT | OUT_OF_MEMORY.

Inductive AllocResult : Type :=
  | Exit (why : Fatal) (vm : VM)   (* the state the process ends in *)
  | Return (p : Z) (vm : VM).

Definition size_t (z : Z) : Z := z mod 2 ^ 64.

(** [dst_alloc(type, size)]; [malloc] is the answer of the underlying
    allocator to a request, the null pointer when it fails. *)
Definition dst_alloc (malloc : Z -> Z) (type : DstMemoryType) (size : Z)
    (vm : VM) : AllocResult :=
  let total := size_t (size + sizeof_DstGCMemoryHeader) in
  (* Make sure everything is inited *)
  if dst_vm_cache vm =? 0 then Exit PLEASE_INIT vm else
  let mem := malloc total in
  (* Check for bad malloc *)
  if mem =? 0 then Exit OUT_OF_MEMORY vm else
  let mdata := mem in
  (* Configure block; prepend block to heap list *)
  let vm' :=
    {| dst_vm_blocks := mdata;
       dst_vm_next_collection := uint32 (dst_vm_next_collection vm + size);
       dst_vm_fiber := dst_vm_fiber vm;
       dst_vm_cache := dst_vm_cache vm;
       heap := {| blocks := <[mdata := {| next := dst_vm_blocks vm;
                                          flags := mem_tag type;
                                          body := Uninit |}]> (blocks (heap vm));
                  bufs := bufs (heap vm) |};
       trace := trace vm |} in
  Return (mem + sizeof_DstGCMemoryHeader) vm'.

(** ** The driver *)

Definition dst_collect (fuel : nat) (vm : VM) : Res VM :=
  vm <- (if negb (dst_vm_fiber vm =? 0)
         then h <- dst_mark_fiber fuel (dst_vm_fiber vm) (heap vm) ;;
              Done (with_heap h vm)
         else Done vm) ;;
  vm <- dst_sweep fuel vm ;;
  Done (set_next_collection 0 vm).

(** ** The object graph the tracer walks *)

(** What a marking routine is handed: a value, or a pointer that the
    code passes to one of the routines that have no value tag. *)
Inductive Ref : Set :=
  | RValue (v : DstValue)
  | RFuncEnv (p : Z)
  | RFuncDef (p : Z)
  | RFunction (p : Z)
  | RFiber (p : Z).

Definition mark_ref (fuel : nat) (r : Ref) (h : Heap) : Res Heap :=
  match r with
  | RValue v => dst_mark fuel v h
  | RFuncEnv p => dst_mark_funcenv fuel p h
  | RFuncDef p => dst_mark_funcdef fuel p h
  | RFunction p => dst_mark_function fuel p h
  | RFiber p => dst_mark_fiber fuel p h
  end.

Fixpoint mark_refs (fuel : nat) (rs : list Ref) (h : Heap) : Res Heap :=
  match rs with
  | [] => Done h
  | r :: rs => h' <- mark_ref fuel r h ;; mark_refs fuel rs h'
  end.

(** The header of the block a reference leads to; none for the values
    that are not heap objects. *)
Definition ref_header (r : Ref) : option Z :=
  match r with
  | RValue v =>
      match type v with
      | DST_STRING | DST_SYMBOL => Some (dst_gc_header (dst_string_raw (as_ v)))
      | DST_FUNCTION | DST_ARRAY | DST_TABLE | DST_BUFFER | DST_FIBER =>
          Some (dst_gc_header (as_ v))
      | DST_STRUCT => Some (dst_gc_header (dst_struct_raw (as_ v)))
      | DST_TUPLE => Some (dst_gc_header (dst_tuple_raw (as_ v)))
      | DST_USERDATA => Some (dst_gc_header (dst_userdata_header (as_ v)))
      | _ => None
      end
  | RFuncEnv p | RFuncDef p | RFunction p | RFiber p => Some (dst_gc_header p)
  end.

(** The object found is of the kind the reference is followed as. *)
Definition ref_matches (r : Ref) (b : Body) : bool :=
  match r with
  | RValue v =>
      match type v, b with
      | DST_STRING, StringBody | DST_SYMBOL, StringBody
      | DST_FUNCTION, FunctionBody _ | DST_ARRAY, ArrayBody _
      | DST_TABLE, TableBody _ | DST_BUFFER, BufferBody _
      | DST_FIBER, FiberBody _ | DST_STRUCT, StructBody _ _
      | DST_TUPLE, TupleBody _ _ | DST_USERDATA, UserdataBody _ => true
      | _, _ => false
      end
  | RFuncEnv _ => match b with FuncEnvBody _ => true | _ => false end
  | RFuncDef _ => match b with FuncDefBody _ => true | _ => false end
  | RFunction _ => match b with FunctionBody _ => true | _ => false end
  | RFiber _ => match b with FiberBody _ => true | _ => false end
  end.

(** [f i0, f (i0 + 1), ...], [n] elements, when all are there. *)
Fixpoint tabulate {A} (n : nat) (i : Z) (f : Z -> option A) : option (list A) :=
  match n with
  | O => Some []
  | S n' => x ← f i; xs ← tabulate n' (i + 1) f; Some (x :: xs)
  end.

Definition values_at (h : Heap) (p : ValuePtr) (n : Z) : option (list DstValue) :=
  tabulate (Z.to_nat n) 0 (fun k => value_at h (ptr_add p k)).

(** A constant of a funcdef: a nested funcdef under the boolean tag. *)
Definition const_ref (v : DstValue) : Ref :=
  match type v with
  | DST_BOOLEAN => RFuncDef (as_ v)
  | _ => RValue v
  end.

(** The references of the frames of a fiber, from frame base [i] with
    top [j] down the [prevframe] links to the sentinel [0]. *)
Fixpoint frame_refs (n : nat) (h : Heap) (f : DstFiber) (i j : Z)
  : option (list Ref) :=
  match n with
  | O => None
  | S n' =>
      if i =? 0 then Some [] else
      fr ← frame_at h (fiber_data f) (i - DST_FRAME_SIZE);
      vs ← values_at h (InBuffer (fiber_data f) i) (uint32 (j - i));
      rest ← frame_refs n' h f (prevframe fr) (uint32 (i - DST_FRAME_SIZE));
      Some ((if negb (func fr =? 0) then [RFunction (func fr)] else [])
              ++ map RValue vs ++ rest)
  end.

(** A frame chain that ends visits every frame header once, so it has
    at most as many frames as the stack has cells. *)
Definition frames_bound (h : Heap) (f : DstFiber) : nat :=
  S (from_option length O (bufs h !! fiber_data f)).

(** The outgoing references of an object, in the order the tracer
    follows them; [None] when one of the reads is not possible. *)
Definition out_refs (h : Heap) (b : Body) : option (list Ref) :=
  match b with
  | Uninit | StringBody | BufferBody _ | UserdataBody _ => Some []
  | ArrayBody a =>
      vs ← values_at h (InBuffer (array_data a) 0) (array_count a);
      Some (map RValue vs)
  | TableBody t =>
      vs ← values_at h (InBuffer (table_data t) 0) (table_capacity t);
      Some (map RValue vs)
  | TupleBody n data =>
      vs ← tabulate (Z.to_nat n) 0 (inline_at data); Some (map RValue vs)
  | StructBody n data =>
      vs ← tabulate (Z.to_nat n) 0 (inline_at data); Some (map RValue vs)
  | FuncEnvBody e =>
      if negb (offset e =? 0) then Some [RFiber (env_as e)]
      else vs ← values_at h (InBuffer (env_as e) 0) (env_length e);
           Some (map RValue vs)
  | FuncDefBody d =>
      if negb (constants d =? 0)
      then vs ← values_at h (InBuffer (constants d) 0) (constants_length d);
           Some (map const_ref vs)
      else Some []
  | FunctionBody f =>
      d ← funcdef_at h (def f);
      es ← (if negb (envs f =? 0)
            then tabulate (Z.to_nat (environments_length d)) 0 (env_at h (envs f))
            else Some []);
      Some (map RFuncEnv (filter (fun e => e ≠ 0) es) ++ [RFuncDef (def f)])
  | FiberBody f =>
      frs ← frame_refs (frames_bound h f) h f (frame f) (frametop f);
      Some (frs ++ (if negb (fiber_parent f =? 0) then [RFiber (fiber_parent f)] else [])
                ++ [RValue (ret f)])
  end.

(** [r'] is one of the references of the object [r] leads to. *)
Definition child (h : Heap) (r r' : Ref) : Prop :=
  ∃ a b rs, ref_header r = Some a ∧ blocks h !! a = Some b
            ∧ out_refs h (body b) = Some rs ∧ r' ∈ rs.

(** The block at header [a] is reachable from [r] by the tracing rules. *)
Definition reachable_from (h : Heap) (r : Ref) (a : Z) : Prop :=
  ∃ r', rtc (child h) r r' ∧ ref_header r' = Some a.

(** A reference is sound when it leads to an allocated object of its
    kind whose own references can all be read. *)
Definition ref_ok (h : Heap) (r : Ref) : Prop :=
  ∀ a, ref_header r = Some a →
       ∃ b rs, blocks h !! a = Some b ∧ ref_matches r (body b) = true
               ∧ out_refs h (body b) = Some rs.

(** The graph below [r] is well formed: no dangling or mistyped
    reference can be met while tracing from [r]. *)
Definition graph_ok (h : Heap) (r : Ref) : Prop :=
  ∀ r', rtc (child h) r r' → ref_ok h r'.

Definition marked (h : Heap) (a : Z) : Prop :=
  ∃ b, blocks h !! a = Some b ∧ reachable_bit (flags b) = true.

Definition unmarked (h : Heap) (a : Z) : Prop :=
  ∃ b, blocks h !! a = Some b ∧ reachable_bit (flags b) = false.

(** The blocks whose reachable bit is clear. *)
Definition unmarked_set (h : Heap) : gset Z :=
  dom (filter (fun ab => reachable_bit (flags ab.2) = false) (blocks h)).

(** What marking may change in a block: the reachable bit gets set. *)
Definition block_le (b b' : Block) : Prop :=
  next b' = next b ∧ body b' = body b
  ∧ (flags b' = flags b ∨ flags b' = Z.lor (flags b) DST_MEM_REACHABLE).

Definition heap_le (h h' : Heap) : Prop :=
  bufs h' = bufs h
  ∧ ∀ a, option_Forall2 block_le (blocks h !! a) (blocks h' !! a).

(** The blocks that got marked between [h] and [h'] have all their
    references marked in [h']. *)
Definition closed_from (h h' : Heap) : Prop :=
  ∀ a b rs r' a', blocks h !! a = Some b → reachable_bit (flags b) = false →
    marked h' a → out_refs h (body b) = Some rs → r' ∈ rs →
    ref_header r' = Some a' → marked h' a'.

(** What one marking call guarantees when it returns [h'] from [h]. *)
Definition mark_post (r : Ref) (h h' : Heap) : Prop :=
  heap_le h h'
  ∧ (∀ a, ref_header r = Some a → marked h' a)
  ∧ closed_from h h'.

(** ** The global list *)

(** [l] is the list threaded through [next] from [p] to the null
    pointer; every node is an allocated block. *)
Fixpoint chain (h : Heap) (p : Z) (l : list Z) : Prop :=
  match l with
  | [] => p = 0
  | a :: l' => p = a ∧ a ≠ 0 ∧ ∃ b, blocks h !! a = Some b ∧ chain h (next b) l'
  end.

(** The same walk as a function, for at most [n] nodes. *)
Fixpoint walk (n : nat) (h : Heap) (p : Z) : option (list Z) :=
  match n with
  | O => None
  | S n' =>
      if p =? 0 then Some [] else
      b ← blocks h !! p; l ← walk n' h (next b); Some (p :: l)
  end.

Definition keeps (fl : Z) : bool :=
  negb (Z.land fl (Z.lor DST_MEM_REACHABLE DST_MEM_DISABLED) =? 0).

(** One entry per routine of the mutually recursive tracer, to state
    what they share. *)
Inductive Call : Set :=
  | CMark (v : DstValue)
  | CArray (p : Z) | CTable (p : Z) | CStruct (p : Z) | CTuple (p : Z)
  | CFuncEnv (p : Z) | CFuncDef (p : Z) | CFunction (p : Z) | CFiber (p : Z)
  | CFrames (f : DstFiber) (i j : Z).

Definition run (fuel : nat) (c : Call) (h : Heap) : Res Heap :=
  match c with
  | CMark v => dst_mark fuel v h
  | CArray p => dst_mark_array fuel p h
  | CTable p => dst_mark_table fuel p h
  | CStruct p => dst_mark_struct fuel p h
  | CTuple p => dst_mark_tuple fuel p h
  | CFuncEnv p => dst_mark_funcenv fuel p h
  | CFuncDef p => dst_mark_funcdef fuel p h
  | CFunction p => dst_mark_function fuel p h
  | CFiber p => dst_mark_fiber fuel p h
  | CFrames f i j => dst_mark_fiber_frames fuel f i j h
  end.

(** ** What the sweeper relies on *)

(** The secondary allocations of an object (the table of the data
    model): what its finalization gives back with [free]. *)
Definition owned (b : Body) : list Z :=
  match b with
  | ArrayBody a => [array_data a]
  | TableBody t => [table_data t]
  | FiberBody f => [fiber_data f]
  | BufferBody b => [buffer_data b]
  | FunctionBody f => [envs f]
  | FuncEnvBody e => if offset e =? 0 then [env_as e] else []
  | FuncDefBody d => [environments d; constants d; bytecode d]
  | Uninit | StringBody | TupleBody _ _ | StructBody _ _ | UserdataBody _ => []
  end.

(** The type tags an object can carry. *)
Definition body_tags (b : Body) : list DstMemoryType :=
  match b with
  | Uninit => [DST_MEMORY_NONE]
  | StringBody => [DST_MEMORY_STRING; DST_MEMORY_SYMBOL]
  | ArrayBody _ => [DST_MEMORY_ARRAY]
  | TupleBody _ _ => [DST_MEMORY_TUPLE]
  | TableBody _ => [DST_MEMORY_TABLE]
  | StructBody _ _ => [DST_MEMORY_STRUCT]
  | FiberBody _ => [DST_MEMORY_FIBER]
  | BufferBody _ => [DST_MEMORY_BUFFER]
  | FunctionBody _ => [DST_MEMORY_FUNCTION]
  | UserdataBody _ => [DST_MEMORY_USERDATA]
  | FuncEnvBody _ => [DST_MEMORY_FUNCENV]
  | FuncDefBody _ => [DST_MEMORY_FUNCDEF]
  end.

(** The tag in the flags is one of the object that follows the header. *)
Definition well_tagged (b : Block) : Prop :=
  ∃ t, t ∈ body_tags (body b) ∧ Z.land (flags b) DST_MEM_TYPEBITS = mem_tag t.

(** What finalizing the block at [block] does after it was entered,
    told from the object. *)
Definition deinit_events (block : Z) (b : Block) : list Event :=
  let smem := block + sizeof_DstGCMemoryHeader + 8 in
  match body b with
  | StringBody =>
      if Z.land (flags b) DST_MEM_TYPEBITS =? mem_tag DST_MEMORY_STRING
      then [EvCacheRemove (dst_wrap_string smem)] else []
  | TupleBody _ _ => [EvCacheRemove (dst_wrap_tuple smem)]
  | StructBody _ _ => [EvCacheRemove (dst_wrap_struct smem)]
  | UserdataBody u =>
      if finalize u =? 0 then []
      else [EvFinalize (finalize u)
              (block + sizeof_DstGCMemoryHeader + sizeof_DstUserdataHeader)
              (userdata_size u)]
  | other => map EvFree (owned other)
  end.

(** The block at [a] stays on the list in a sweep. *)
Definition kept (h : Heap) (a : Z) : bool :=
  match blocks h !! a with
  | Some b => keeps (flags b)
  | None => false
  end.

(** A block the sweeper may have to finalize: its tag tells what it
    holds, and none of its secondary allocations is a GC block. *)
Definition sweepable (h : Heap) (a : Z) : Prop :=
  ∀ b, blocks h !! a = Some b →
       well_tagged b ∧ ∀ p, p ∈ owned (body b) → blocks h !! p = None.

(** The pointer that leads into the rest of the list: the head, or the
    link of the last block kept. *)
Definition link (previous : Z) (vm : VM) : Z :=
  if previous =? 0 then dst_vm_blocks vm
  else from_option next 0 (blocks (heap vm) !! previous).

(** The events of a sweep over the blocks [l], [previous] being the
    last block kept before them. *)
Fixpoint sweep_events (h : Heap) (previous : Z) (l : list Z) : list Event :=
  match l with
  | [] => []
  | a :: l' =>
      match blocks h !! a with
      | None => []
      | Some b =>
          if keeps (flags b)
          then EvStore a FFlags :: sweep_events h a l'
          else EvDeinit a :: deinit_events a b
                 ++ (if previous =? 0 then [] else [EvStore previous FNext])
                 ++ [EvFree a; EvStore a FFlags]
                 ++ sweep_events h previous l'
      end
  end.

(** The parts of the state that finalization and sweeping never touch. *)
Definition same_globals (vm vm' : VM) : Prop :=
  dst_vm_next_collection vm' = dst_vm_next_collection vm
  ∧ dst_vm_fiber vm' = dst_vm_fiber vm
  ∧ dst_vm_cache vm' = dst_vm_cache vm.


(** The state after the iteration that unlinks and frees [a]. *)
Definition after_free (previous a n : Z) (vm : VM) : VM :=
  update_flags a (fun fl => Z.land fl (Z.lnot DST_MEM_REACHABLE))
    (free a (if negb (previous =? 0) then store_next previous n vm
             else set_blocks_head n vm)).

(** What the sweeper does to a block it keeps. *)
Definition swept (b b' : Block) : Prop :=
  flags b' = Z.land (flags b) (Z.lnot DST_MEM_REACHABLE) ∧ body b' = body b.

(** What the loop of the sweeper guarantees for the blocks [l] it still
    has to visit, from the state [vm] to its final state [vm']. *)
Definition sweep_post (previous : Z) (l : list Z) (vm vm' : VM) : Prop :=
  chain (heap vm') (link previous vm') (filter (fun a => kept (heap vm) a = true) l)
  ∧ (∀ a b, a ∈ l → blocks (heap vm) !! a = Some b →
       if keeps (flags b)
       then ∃ b', blocks (heap vm') !! a = Some b' ∧ swept b b'
       else blocks (heap vm') !! a = None)
  ∧ (∀ a, a ∉ l → a ≠ previous → blocks (heap vm') !! a = blocks (heap vm) !! a)
  ∧ (∀ b, blocks (heap vm) !! previous = Some b →
       ∃ b', blocks (heap vm') !! previous = Some b'
             ∧ flags b' = flags b ∧ body b' = body b)
  ∧ (previous ≠ 0 → dst_vm_blocks vm' = dst_vm_blocks vm)
  ∧ trace vm' = trace vm ++ sweep_events (heap vm) previous l
  ∧ same_globals vm vm'.

(** ** The states a collection starts from *)

Definition pinned (h : Heap) (a : Z) : Prop :=
  ∃ b, blocks h !! a = Some b ∧ disabled_bit (flags b) = true.

(** Outside a collection no reachable bit is set. *)
Definition all_clear (h : Heap) : Prop :=
  ∀ a b, blocks h !! a = Some b → reachable_bit (flags b) = false.

(** [l] is the global list, what the active fiber (if any) leads to is
    well formed, and every block of the list can be finalized. *)
Definition heap_ok (vm : VM) (l : list Z) : Prop :=
  chain (heap vm) (dst_vm_blocks vm) l
  ∧ (dst_vm_fiber vm ≠ 0 → graph_ok (heap vm) (RFiber (dst_vm_fiber vm)))
  ∧ (∀ a, a ∈ l → sweepable (heap vm) a).

(** The events of a run: what the trace gained. *)
Definition new_events (vm vm' : VM) (evs : list Event) : Prop :=
  trace vm' = trace vm ++ evs.

(** The header of the object a routine of the tracer is called on. *)
Definition call_header (c : Call) : option Z :=
  match c with
  | CMark v => ref_header (RValue v)
  | CArray p | CTable p | CFuncEnv p | CFuncDef p | CFunction p | CFiber p =>
      Some (dst_gc_header p)
  | CStruct p => Some (dst_gc_header (dst_struct_raw p))
  | CTuple p => Some (dst_gc_header (dst_tuple_raw p))
  | CFrames _ _ _ => None
  end.

(** ** Teardown *)

(** The body of [while (current)] in [dst_clear_memory]. *)
Fixpoint dst_clear_memory_loop (fuel : nat) (current : Z) (vm : VM) : Res VM :=
  match fuel with
  | O => OutOfFuel
  | S fuel =>
      if current =? 0 then Done vm else
      vm <- dst_deinit_block current vm ;;
      b <- load (blocks (heap vm) !! current) ;;
      let next := next b in
      dst_clear_memory_loop fuel next (free current vm)
  end.

(** Free all allocated memory. *)
Definition dst_clear_memory (fuel : nat) (vm : VM) : Res VM :=
  vm <- dst_clear_memory_loop fuel (dst_vm_blocks vm) vm ;;
  Done (set_blocks_head 0 vm).

(** The events of a teardown over the blocks [l]. *)
Fixpoint clear_events (h : Heap) (l : list Z) : list Event :=
  match l with
  | [] => []
  | a :: l' =>
      match blocks h !! a with
      | None => []
      | Some b => EvDeinit a :: deinit_events a b ++ EvFree a :: clear_events h l'
      end
  end.

(** ** Pinning *)

(** Modelled from the spec: [dst_pin_*] and [dst_unpin_*], macros of
    dst.h, set and clear the disabled bit in the header of the block of
    the value, which is reached as the tracer reaches it. *)
Definition dst_gc_pin (m : Z) (h : Heap) : Res Heap :=
  b <- load (blocks h !! dst_gc_header m) ;;
  Done (set_flags (dst_gc_header m) (Z.lor (flags b) DST_MEM_DISABLED) h).

Definition dst_gc_unpin (m : Z) (h : Heap) : Res Heap :=
  b <- load (blocks h !! dst_gc_header m) ;;
  Done (set_flags (dst_gc_header m) (Z.land (flags b) (Z.lnot DST_MEM_DISABLED)) h).

Definition dst_pin_string (s : Z) := dst_gc_pin (dst_string_raw s).
Definition dst_pin_function (f : Z) := dst_gc_pin f.
Definition dst_pin_array (a : Z) := dst_gc_pin a.
Definition dst_pin_table (t : Z) := dst_gc_pin t.
Definition dst_pin_struct (st : Z) := dst_gc_pin (dst_struct_raw st).
Definition dst_pin_tuple (t : Z) := dst_gc_pin (dst_tuple_raw t).
Definition dst_pin_buffer (b : Z) := dst_gc_pin b.
Definition dst_pin_fiber (f : Z) := dst_gc_pin f.
Definition dst_pin_userdata (u : Z) := dst_gc_pin (dst_userdata_header u).

Definition dst_unpin_string (s : Z) := dst_gc_unpin (dst_string_raw s).
Definition dst_unpin_function (f : Z) := dst_gc_unpin f.
Definition dst_unpin_array (a : Z) := dst_gc_unpin a.
Definition dst_unpin_table (t : Z) := dst_gc_unpin t.
Definition dst_unpin_struct (st : Z) := dst_gc_unpin (dst_struct_raw st).
Definition dst_unpin_tuple (t : Z) := dst_gc_unpin (dst_tuple_raw t).
Definition dst_unpin_buffer (b : Z) := dst_gc_unpin b.
Definition dst_unpin_fiber (f : Z) := dst_gc_unpin f.
Definition dst_unpin_userdata (u : Z) := dst_gc_unpin (dst_userdata_header u).

(** Pin a value.  This prevents a value from being garbage collected. *)
Definition dst_pin (x : DstValue) (h : Heap) : Res Heap :=
  match type x with
  | DST_STRING | DST_SYMBOL => dst_pin_string (as_ x) h
  | DST_FUNCTION => dst_pin_function (as_ x) h
  | DST_ARRAY => dst_pin_array (as_ x) h
  | DST_TABLE => dst_pin_table (as_ x) h
  | DST_STRUCT => dst_pin_struct (as_ x) h
  | DST_TUPLE => dst_pin_tuple (as_ x) h
  | DST_BUFFER => dst_pin_buffer (as_ x) h
  | DST_FIBER => dst_pin_fiber (as_ x) h
  | DST_USERDATA => dst_pin_userdata (as_ x) h
  | _ => Done h
  end.

(** Unpin a value.  This enables the GC to collect the value's memory
    again. *)
Definition dst_unpin (x : DstValue) (h : Heap) : Res Heap :=
  match type x with
  | DST_STRING | DST_SYMBOL => dst_unpin_string (as_ x) h
  | DST_FUNCTION => dst_unpin_function (as_ x) h
  | DST_ARRAY => dst_unpin_array (as_ x) h
  | DST_TABLE => dst_unpin_table (as_ x) h
  | DST_STRUCT => dst_unpin_struct (as_ x) h
  | DST_TUPLE => dst_unpin_tuple (as_ x) h
  | DST_BUFFER => dst_unpin_buffer (as_ x) h
  | DST_FIBER => dst_unpin_fiber (as_ x) h
  | DST_USERDATA => dst_unpin_userdata (as_ x) h
  | _ => Done h
  end.

(** ** More on states *)

(** Every allocated block is on the list [l]. *)
Definition listed (h : Heap) (l : list Z) : Prop :=
  ∀ a, is_Some (blocks h !! a) → a ∈ l.

(** What the trace tells about the secondary arrays: each [free]
    removes the one that starts at its argument. *)
Definition replay_frees (evs : list Event) (m : gmap Z (list Cell))
  : gmap Z (list Cell) :=
  foldl (fun m e => match e with EvFree p => delete p m | _ => m end) m evs.

(** In the events [evs] the event [e] comes once, before [free(a)],
    and no other event of the kind [Q] comes at all. *)
Definition once_before_free (evs : list Event) (e : Event) (a : Z)
    (Q : Event → Prop) : Prop :=
  ∃ t1 t2 t3, evs = t1 ++ e :: t2 ++ EvFree a :: t3
              ∧ ∀ e', Q e' → e' ∉ t1 ++ t2 ++ t3.

(** The calls of a finalizer hook on the user data of the block [a]. *)
Definition finalizes (a : Z) (e : Event) : Prop :=
  ∃ fn sz, e = EvFinalize fn (a + sizeof_DstGCMemoryHeader + sizeof_DstUserdataHeader) sz.

(** The removals from the interner of a value that lives in block [a]. *)
Definition uncaches (a : Z) (e : Event) : Prop :=
  ∃ v, e = EvCacheRemove v ∧ as_ v = a + sizeof_DstGCMemoryHeader + 8.

(** [h'] has the blocks that [r] leads to in [h], with their objects
    and the secondary arrays of these. *)
Definition preserves (h h' : Heap) (r : Ref) : Prop :=
  ∀ r' a b, rtc (child h) r r' → ref_header r' = Some a → blocks h !! a = Some b →
    ∃ b', blocks h' !! a = Some b' ∧ body b' = body b
          ∧ ∀ p, p ∈ owned (body b) → bufs h' !! p = bufs h !! p.

(** No two blocks of the list own the same secondary array; the null
    pointer, which owns nothing, may stand in several objects. *)
Definition exclusive (h : Heap) (l : list Z) : Prop :=
  ∀ a a' b b' p, a ∈ l → a' ∈ l → a ≠ a' →
    blocks h !! a = Some b → blocks h !! a' = Some b' →
    p ∈ owned (body b) → p ∈ owned (body b') → p = 0.

(** The states of the runtime between two collections: a well-formed
    list that holds every allocated block, all reachable bits clear,
    secondary arrays that are not shared, and nothing at the null
    pointer. *)
Definition gc_inv (vm : VM) (l : list Z) : Prop :=
  heap_ok vm l ∧ all_clear (heap vm) ∧ listed (heap vm) l
  ∧ exclusive (heap vm) l ∧ bufs (heap vm) !! 0 = None.

(** ** Deciding well-formedness of a given state *)

#[global] Instance DstType_eq_dec : EqDecision DstType.
Proof. solve_decision. Defined.
#[global] Instance DstValue_eq_dec : EqDecision DstValue.
Proof. solve_decision. Defined.
#[global] Instance Ref_eq_dec : EqDecision Ref.
Proof. solve_decision. Defined.

Definition children (h : Heap) (r : Ref) : list Ref :=
  match ref_header r with
  | Some a =>
      match blocks h !! a with
      | Some b => default [] (out_refs h (body b))
      | None => []
      end
  | None => []
  end.

Definition ref_ok_b (h : Heap) (r : Ref) : bool :=
  match ref_header r with
  | Some a =>
      match blocks h !! a with
      | Some b =>
          ref_matches r (body b)
          && match out_refs h (body b) with Some _ => true | None => false end
      | None => false
      end
  | None => true
  end.

(** Every reference of [rs] is sound and [rs] has the references of
    every object it leads to. *)
Definition closed_b (h : Heap) (rs : list Ref) : bool :=
  forallb (fun r => ref_ok_b h r
                    && forallb (fun r' => bool_decide (r' ∈ rs)) (children h r)) rs.

(** [n] rounds of adding the references of the objects reached. *)
Fixpoint refs_closure (n : nat) (h : Heap) (rs : list Ref) : list Ref :=
  match n with
  | O => rs
  | S n' => refs_closure n' h (remove_dups (rs ++ flat_map (children h) rs))
  end.

Definition sweepable_b (h : Heap) (a : Z) : bool :=
  match blocks h !! a with
  | Some b =>
      existsb (fun t => Z.land (flags b) DST_MEM_TYPEBITS =? mem_tag t)
        (body_tags (body b))
      && forallb (fun p => bool_decide (blocks h !! p = None)) (owned (body b))
  | None => true
  end.

Definition heap_ok_b (n : nat) (vm : VM) (l : list Z) : bool :=
  bool_decide (walk n (heap vm) (dst_vm_blocks vm) = Some l)
  && (if dst_vm_fiber vm =? 0 then true
      else closed_b (heap vm)
             (refs_closure n (heap vm) [RFiber (dst_vm_fiber vm)]))
  && forallb (sweepable_b (heap vm)) l.

(** ** Example states *)

Definition mkblock (nxt : Z) (t : DstMemoryType) (b : Body) : Block :=
  {| next := nxt; flags := mem_tag t; body := b |}.

Definition value (t : DstType) (p : Z) : DstValue := {| type := t; as_ := p |}.

(** A fiber (header 100) that is its own parent, with two frames that
    hold the functions at 300 and 350; their funcdefs (400 and 500)
    refer to each other through boolean-tagged constants; the table at
    200 holds itself as key and value; the environment at 600 borrows
    the stack of the fiber.  The array at 800 is garbage and the buffer
    at 900 is pinned. *)
Definition cyclic_heap : Heap :=
  {| blocks :=
       {[ 100 := mkblock 0 DST_MEMORY_FIBER
                   (FiberBody {| fiber_data := 1000; fiber_parent := 116;
                                 frame := 6; frametop := 7;
                                 ret := value DST_TABLE 216 |});
          200 := mkblock 100 DST_MEMORY_TABLE
                   (TableBody {| table_data := 2000; table_capacity := 2 |});
          300 := mkblock 200 DST_MEMORY_FUNCTION
                   (FunctionBody {| def := 416; envs := 0 |});
          350 := mkblock 300 DST_MEMORY_FUNCTION
                   (FunctionBody {| def := 516; envs := 3000 |});
          400 := mkblock 350 DST_MEMORY_FUNCDEF
                   (FuncDefBody {| environments := 4100; constants := 4000;
                                   bytecode := 4200; constants_length := 2;
                                   environments_length := 0 |});
          500 := mkblock 400 DST_MEMORY_FUNCDEF
                   (FuncDefBody {| environments := 5100; constants := 5000;
                                   bytecode := 5200; constants_length := 1;
                                   environments_length := 2 |});
          600 := mkblock 500 DST_MEMORY_FUNCENV
                   (FuncEnvBody {| env_as := 116; env_length := 1; offset := 2 |});
          700 := mkblock 600 DST_MEMORY_STRING StringBody;
          800 := mkblock 700 DST_MEMORY_ARRAY
                   (ArrayBody {| array_data := 8000; array_count := 1 |});
          900 := {| next := 800;
                    flags := Z.lor (mem_tag DST_MEMORY_BUFFER) DST_MEM_DISABLED;
                    body := BufferBody {| buffer_data := 9000 |} |} ]};
     bufs :=
       {[ 1000 := [CFrame {| func := 316; prevframe := 0 |}; CPad;
                   CValue (value DST_TABLE 216); CValue (value DST_STRING 724);
                   CFrame {| func := 366; prevframe := 2 |}; CPad;
                   CValue (value DST_FUNCTION 366)];
          2000 := [CValue (value DST_TABLE 216); CValue (value DST_TABLE 216)];
          3000 := [CEnv 0; CEnv 616];
          4000 := [CValue (value DST_BOOLEAN 516); CValue (value DST_NIL 0)];
          4100 := []; 4200 := [CRaw];
          5000 := [CValue (value DST_BOOLEAN 416)];
          5100 := [CRaw; CRaw]; 5200 := [CRaw];
          8000 := [CValue (value DST_INTEGER 5)];
          9000 := [CRaw] ]} |}.

Definition cyclic_vm : VM :=
  {| dst_vm_blocks := 900; dst_vm_next_collection := 1234;
     dst_vm_fiber := 116; dst_vm_cache := 1;
     heap := cyclic_heap; trace := [] |}.

Definition cyclic_list : list Z :=
  [900; 800; 700; 600; 500; 400; 350; 300; 200; 100].

(** No active fiber: a fiber (100), an environment that borrows its
    stack (200) and a closed environment (300), all garbage. *)
Definition garbage_heap : Heap :=
  {| blocks :=
       {[ 100 := mkblock 0 DST_MEMORY_FIBER
                   (FiberBody {| fiber_data := 1000; fiber_parent := 0;
                                 frame := 0; frametop := 0;
                                 ret := value DST_NIL 0 |});
          200 := mkblock 100 DST_MEMORY_FUNCENV
                   (FuncEnvBody {| env_as := 116; env_length := 2; offset := 3 |});
          300 := mkblock 200 DST_MEMORY_FUNCENV
                   (FuncEnvBody {| env_as := 3000; env_length := 1; offset := 0 |}) ]};
     bufs := {[ 1000 := [CPad; CPad; CPad; CValue (value DST_NIL 0);
                         CValue (value DST_NIL 0)];
                3000 := [CValue (value DST_INTEGER 1)] ]} |}.

Definition garbage_vm : VM :=
  {| dst_vm_blocks := 300; dst_vm_next_collection := 0;
     dst_vm_fiber := 0; dst_vm_cache := 1;
     heap := garbage_heap; trace := [] |}.

(** No active fiber: a pinned array (100) whose only element is the
    string at 200, which nothing else refers to. *)
Definition pinned_heap : Heap :=
  {| blocks :=
       {[ 100 := {| next := 200;
                    flags := Z.lor (mem_tag DST_MEMORY_ARRAY) DST_MEM_DISABLED;
                    body := ArrayBody {| array_data := 1000; array_count := 1 |} |};
          200 := mkblock 0 DST_MEMORY_STRING StringBody ]};
     bufs := {[ 1000 := [CValue (value DST_STRING 224)] ]} |}.

Definition pinned_vm : VM :=
  {| dst_vm_blocks := 100; dst_vm_next_collection := 0;
     dst_vm_fiber := 0; dst_vm_cache := 1;
     heap := pinned_heap; trace := [] |}.

(** One string that nothing refers to. *)
Definition string_vm : VM :=
  {| dst_vm_blocks := 100; dst_vm_next_collection := 0;
     dst_vm_fiber := 0; dst_vm_cache := 1;
     heap := {| blocks := {[ 100 := mkblock 0 DST_MEMORY_STRING StringBody ]};
                bufs := ∅ |};
     trace := [] |}.

(** The counter is at its largest value. *)
Definition full_counter_vm : VM :=
  {| dst_vm_blocks := 0; dst_vm_next_collection := 2 ^ 32 - 1;
     dst_vm_fiber := 0; dst_vm_cache := 1;
     heap := {| blocks := ∅; bufs := ∅ |};
     trace := [] |}.

(** ** Deciding the state between two collections *)

Definition exclusive_b (h : Heap) (l : list Z) : bool :=
  forallb (fun a =>
    forallb (fun a' =>
      (a =? a')
      || match blocks h !! a, blocks h !! a' with
         | Some b, Some b' =>
             forallb (fun p => (p =? 0) || negb (existsb (Z.eqb p) (owned (body b'))))
               (owned (body b))
         | _, _ => true
         end) l) l.

Definition gc_inv_b (n : nat) (vm : VM) (l : list Z) : bool :=
  heap_ok_b n vm l
  && bool_decide (map_Forall (fun _ b => reachable_bit (flags b) = false)
                    (blocks (heap vm)))
  && bool_decide (map_Forall (fun a (_ : Block) => existsb (Z.eqb a) l = true)
                    (blocks (heap vm)))
  && exclusive_b (heap vm) l
  && bool_decide (bufs (heap vm) !! 0 = None).

(** ** More example states *)

(** No active fiber: a string (500), a struct (400), a tuple (300), a
    symbol (200) and a user-data block with the finalizer hook 7777
    (100), all garbage. *)
Definition interned_vm : VM :=
  {| dst_vm_blocks := 500; dst_vm_next_collection := 0;
     dst_vm_fiber := 0; dst_vm_cache := 1;
     heap :=
       {| blocks :=
            {[ 100 := mkblock 0 DST_MEMORY_USERDATA
                        (UserdataBody {| finalize := 7777; userdata_size := 8 |});
               200 := mkblock 100 DST_MEMORY_SYMBOL StringBody;
               300 := mkblock 200 DST_MEMORY_TUPLE
                        (TupleBody 1 [value DST_INTEGER 7]);
               400 := mkblock 300 DST_MEMORY_STRUCT
                        (StructBody 2 [value DST_INTEGER 1; value DST_INTEGER 2]);
               500 := mkblock 400 DST_MEMORY_STRING StringBody ]};
          bufs := ∅ |};
     trace := [] |}.

Definition interned_list : list Z := [500; 400; 300; 200; 100].

(** What a collection keeps of the cyclic heap: all but the array at 800. *)
Definition cyclic_survivors : list Z :=
  [900; 700; 600; 500; 400; 350; 300; 200; 100].

(** The garbage array of the cyclic heap, as a value. *)
Definition garbage_array : DstValue := value DST_ARRAY 816.

(** No active fiber, in the middle of a collection: a garbage string at
    the head of the list (400), a string whose reachable bit is set
    (300), a garbage array (200) and a pinned buffer (100). *)
Definition mixed_vm : VM :=
  {| dst_vm_blocks := 400; dst_vm_next_collection := 64;
     dst_vm_fiber := 0; dst_vm_cache := 1;
     heap :=
       {| blocks :=
            {[ 100 := {| next := 0;
                         flags := Z.lor (mem_tag DST_MEMORY_BUFFER) DST_MEM_DISABLED;
                         body := BufferBody {| buffer_data := 1000 |} |};
               200 := mkblock 100 DST_MEMORY_ARRAY
                        (ArrayBody {| array_data := 2000; array_count := 1 |});
               300 := {| next := 200;
                         flags := Z.lor (mem_tag DST_MEMORY_STRING) DST_MEM_REACHABLE;
                         body := StringBody |};
               400 := mkblock 300 DST_MEMORY_STRING StringBody ]};
          bufs := {[ 1000 := [CRaw]; 2000 := [CValue (value DST_INTEGER 5)] ]} |};
     trace := [] |}.

Definition mixed_list : list Z := [400; 300; 200; 100].

(** * Properties *)

(** ** Outcomes *)

Lemma res_bind_Done {A B} (m : Res A) (k : A -> Res B) (b : B) :
  res_bind m k = Done b ↔ ∃ a, m = Done a ∧ k a = Done b.
Proof.
  destruct m; simpl; split.
  - eauto.
  - by intros (a' & [= <-] & ?).
  - discriminate.
  - by intros (? & ? & ?).
  - discriminate.
  - by intros (? & ? & ?).
Qed.

Lemma load_Done {A} (o : option A) (a : A) : load o = Done a ↔ o = Some a.
Proof. destruct o; simpl; split; congruence. Qed.

(** Takes a hypothesis [x <- m ;; k = Done r] apart. *)
Ltac bind_inv H :=
  let a := fresh "x" in
  let E := fresh "E" in
  apply res_bind_Done in H; destruct H as (a & E & H);
  try (apply load_Done in E).

(** ** The flag bits *)

Lemma reachable_bit_lor fl : reachable_bit (Z.lor fl DST_MEM_REACHABLE) = true.
Proof.
  unfold reachable_bit. rewrite Z.land_lor_distr_l.
  apply negb_true_iff, Z.eqb_neq. intros [_ H]%Z.lor_eq_0_iff. discriminate H.
Qed.

Lemma disabled_bit_lor fl :
  disabled_bit (Z.lor fl DST_MEM_REACHABLE) = disabled_bit fl.
Proof.
  unfold disabled_bit. rewrite Z.land_lor_distr_l.
  change (Z.land DST_MEM_REACHABLE DST_MEM_DISABLED) with 0.
  by rewrite Z.lor_0_r.
Qed.

Lemma typebits_lor fl :
  Z.land (Z.lor fl DST_MEM_REACHABLE) DST_MEM_TYPEBITS = Z.land fl DST_MEM_TYPEBITS.
Proof.
  rewrite Z.land_lor_distr_l.
  change (Z.land DST_MEM_REACHABLE DST_MEM_TYPEBITS) with 0.
  by rewrite Z.lor_0_r.
Qed.

Lemma keeps_spec fl : keeps fl = reachable_bit fl || disabled_bit fl.
Proof.
  unfold keeps, reachable_bit, disabled_bit.
  rewrite Z.land_lor_distr_r, <- negb_andb. f_equal.
  apply eq_true_iff_eq. rewrite andb_true_iff, !Z.eqb_eq. apply Z.lor_eq_0_iff.
Qed.

Lemma reachable_bit_clear fl :
  reachable_bit (Z.land fl (Z.lnot DST_MEM_REACHABLE)) = false.
Proof.
  unfold reachable_bit. rewrite <- Z.land_assoc.
  change (Z.land (Z.lnot DST_MEM_REACHABLE) DST_MEM_REACHABLE) with 0.
  by rewrite Z.land_0_r.
Qed.

Lemma disabled_bit_clear fl :
  disabled_bit (Z.land fl (Z.lnot DST_MEM_REACHABLE)) = disabled_bit fl.
Proof.
  unfold disabled_bit. rewrite <- Z.land_assoc, (Z.land_comm (Z.lnot _)).
  rewrite Z.land_assoc. f_equal. f_equal.
  rewrite <- Z.land_assoc.
  change (Z.land DST_MEM_DISABLED (Z.lnot DST_MEM_REACHABLE)) with DST_MEM_DISABLED.
  done.
Qed.

Lemma mem_tag_flags t :
  reachable_bit (mem_tag t) = false ∧ disabled_bit (mem_tag t) = false
  ∧ Z.land (mem_tag t) DST_MEM_TYPEBITS = mem_tag t.
Proof. by destruct t. Qed.

(** ** Marking changes the reachable bit only *)

Lemma block_le_refl b : block_le b b.
Proof. unfold block_le; auto. Qed.

Lemma block_le_trans b1 b2 b3 : block_le b1 b2 → block_le b2 b3 → block_le b1 b3.
Proof.
  intros (n1 & y1 & f1) (n2 & y2 & f2). split; [congruence|]. split; [congruence|].
  destruct f1 as [f1|f1], f2 as [f2|f2]; rewrite f2, f1; auto.
  right. rewrite <- Z.lor_assoc. by rewrite Z.lor_diag.
Qed.

Lemma heap_le_refl h : heap_le h h.
Proof.
  split; [done|]. intros a. destruct (blocks h !! a); constructor. apply block_le_refl.
Qed.

Lemma heap_le_trans h1 h2 h3 : heap_le h1 h2 → heap_le h2 h3 → heap_le h1 h3.
Proof.
  intros [b12 H12] [b23 H23]. split; [congruence|]. intros a.
  specialize (H12 a). specialize (H23 a).
  destruct H12; inversion H23; subst; constructor. eauto using block_le_trans.
Qed.

Lemma heap_le_lookup h h' a b :
  heap_le h h' → blocks h !! a = Some b →
  ∃ b', blocks h' !! a = Some b' ∧ block_le b b'.
Proof. intros [_ H] E. specialize (H a). rewrite E in H. inversion H; eauto. Qed.

Lemma heap_le_lookup_inv h h' a b' :
  heap_le h h' → blocks h' !! a = Some b' →
  ∃ b, blocks h !! a = Some b ∧ block_le b b'.
Proof. intros [_ H] E. specialize (H a). rewrite E in H. inversion H; eauto. Qed.

Lemma heap_le_set_flags h a b :
  blocks h !! a = Some b →
  heap_le h (set_flags a (Z.lor (flags b) DST_MEM_REACHABLE) h).
Proof.
  intros E. split; [done|]. intros a'. simpl.
  destruct (decide (a = a')) as [<-|Hne].
  - rewrite lookup_alter_eq, E. constructor. unfold block_le; simpl; auto.
  - rewrite lookup_alter_ne by done. destruct (blocks h !! a'); constructor.
    apply block_le_refl.
Qed.

Lemma heap_le_body_at h h' m : heap_le h h' → body_at h' m = body_at h m.
Proof.
  intros [_ H]. unfold body_at. specialize (H (dst_gc_header m)).
  destruct H as [b b' (_ & Hb & _)|]; simpl; [by rewrite Hb|done].
Qed.

Lemma heap_le_cell_at h h' p i : heap_le h h' → cell_at h' p i = cell_at h p i.
Proof. intros [H _]. unfold cell_at. by rewrite H. Qed.

Lemma heap_le_value_at h h' p : heap_le h h' → value_at h' p = value_at h p.
Proof.
  intros H. destruct p; simpl;
    rewrite ?(heap_le_cell_at _ _ _ _ H), ?(heap_le_body_at _ _ _ H); done.
Qed.

Lemma tabulate_ext {A} n i (f g : Z → option A) :
  (∀ k, f k = g k) → tabulate n i f = tabulate n i g.
Proof.
  intros E. revert i. induction n as [|n IH]; intros i; simpl; [done|].
  by rewrite E, IH.
Qed.

Lemma heap_le_values_at h h' p n : heap_le h h' → values_at h' p n = values_at h p n.
Proof. intros H. apply tabulate_ext. intros k. by apply heap_le_value_at. Qed.

Lemma heap_le_frame_at h h' p i : heap_le h h' → frame_at h' p i = frame_at h p i.
Proof. intros H. unfold frame_at. by rewrite (heap_le_cell_at _ _ _ _ H). Qed.

Lemma heap_le_env_at h h' p i : heap_le h h' → env_at h' p i = env_at h p i.
Proof. intros H. unfold env_at. by rewrite (heap_le_cell_at _ _ _ _ H). Qed.

Lemma heap_le_frame_refs n h h' f i j :
  heap_le h h' → frame_refs n h' f i j = frame_refs n h f i j.
Proof.
  intros H. revert i j. induction n as [|n IH]; intros i j; simpl; [done|].
  rewrite (heap_le_frame_at _ _ _ _ H), (heap_le_values_at _ _ _ _ H).
  destruct (i =? 0); [done|].
  destruct (frame_at h _ _); simpl; [|done].
  destruct (values_at h _ _); simpl; [|done]. by rewrite IH.
Qed.

Lemma heap_le_out_refs h h' b : heap_le h h' → out_refs h' b = out_refs h b.
Proof.
  intros H. destruct b; unfold out_refs; try done;
    rewrite ?(heap_le_values_at _ _ _ _ H); try done.
  - unfold frames_bound. rewrite (proj1 H). by rewrite (heap_le_frame_refs _ _ _ _ _ _ H).
  - unfold funcdef_at. rewrite (heap_le_body_at _ _ _ H).
    destruct (body_at h (def f)) as [[]|]; simpl; try done.
    destruct (negb (envs f =? 0)); [|done].
    erewrite tabulate_ext; [done|]. intros k. by apply heap_le_env_at.
Qed.

Lemma heap_le_child h h' r r' : heap_le h h' → child h r r' ↔ child h' r r'.
Proof.
  intros H. split; intros (a & b & rs & Hh & Hb & Ho & Hin).
  - destruct (heap_le_lookup _ _ _ _ H Hb) as (b' & Hb' & (_ & Hbody & _)).
    exists a, b', rs. rewrite Hbody, (heap_le_out_refs _ _ _ H). done.
  - destruct (heap_le_lookup_inv _ _ _ _ H Hb) as (b' & Hb' & (_ & Hbody & _)).
    exists a, b', rs. rewrite <- Hbody, <- (heap_le_out_refs _ _ _ H). done.
Qed.

Lemma heap_le_rtc_child h h' r r' :
  heap_le h h' → rtc (child h) r r' ↔ rtc (child h') r r'.
Proof.
  intros H. split; induction 1; try apply rtc_refl;
    (eapply rtc_l; [|eassumption]); by apply (heap_le_child _ _ _ _ H).
Qed.

Lemma heap_le_ref_ok h h' r : heap_le h h' → ref_ok h r → ref_ok h' r.
Proof.
  intros H Hok a Ha. destruct (Hok a Ha) as (b & rs & Hb & Hm & Ho).
  destruct (heap_le_lookup _ _ _ _ H Hb) as (b' & Hb' & (_ & Hbody & _)).
  exists b', rs. rewrite Hbody, (heap_le_out_refs _ _ _ H). done.
Qed.

Lemma heap_le_graph_ok h h' r : heap_le h h' → graph_ok h r → graph_ok h' r.
Proof.
  intros H Hok r' Hr'. apply (heap_le_ref_ok _ _ _ H), Hok.
  by apply (heap_le_rtc_child _ _ _ _ H).
Qed.

Lemma heap_le_marked h h' a : heap_le h h' → marked h a → marked h' a.
Proof.
  intros H (b & Hb & Hm).
  destruct (heap_le_lookup _ _ _ _ H Hb) as (b' & Hb' & (_ & _ & Hf)).
  exists b'. split; [done|]. destruct Hf as [->| ->]; [done|apply reachable_bit_lor].
Qed.

Lemma graph_ok_child h r r' : graph_ok h r → child h r r' → graph_ok h r'.
Proof. intros Hok Hc r'' Hr. apply Hok. by eapply rtc_l. Qed.

Lemma graph_ok_ref_ok h r : graph_ok h r → ref_ok h r.
Proof. intros Hok. apply Hok, rtc_refl. Qed.

Lemma dst_gc_mark_le m h h' : dst_gc_mark m h = Done h' → heap_le h h'.
Proof.
  unfold dst_gc_mark. intros H. bind_inv H. injection H as <-.
  by apply heap_le_set_flags.
Qed.

Lemma for_loop_le n i body h h' :
  (∀ i h h', body i h = Done h' → heap_le h h') →
  for_loop n i body h = Done h' → heap_le h h'.
Proof.
  intros Hb. revert i h. induction n as [|n IH]; intros i h; simpl.
  - intros [= <-]. apply heap_le_refl.
  - intros H. bind_inv H. eauto using heap_le_trans.
Qed.

Lemma dst_mark_many_le mark p n h h' :
  (∀ v h h', mark v h = Done h' → heap_le h h') →
  dst_mark_many mark p n h = Done h' → heap_le h h'.
Proof.
  intros Hm. apply for_loop_le. intros i h1 h2 H. bind_inv H. eauto.
Qed.

(** Splits a hypothesis on the result of a routine into the results of
    its steps. *)
Ltac crunch :=
  cbv beta in *;
  repeat match goal with
    | H : res_bind _ _ = Done _ |- _ => bind_inv H
    | H : (if ?c then _ else _) = Done _ |- _ => destruct c eqn:?
    | H : match type ?v with _ => _ end = Done _ |- _ => destruct (type v) eqn:?
    | H : Done _ = Done _ |- _ => injection H as <-
    | H : load _ = Done _ |- _ => apply load_Done in H
    | H : OutOfFuel = Done _ |- _ => discriminate H
    | H : Crash = Done _ |- _ => discriminate H
    end.

Ltac le_facts IH :=
  repeat match goal with
    | H : dst_gc_mark _ _ = Done _ |- _ => apply dst_gc_mark_le in H
    | H : dst_mark_string _ _ = Done _ |- _ => apply dst_gc_mark_le in H
    | H : dst_mark_buffer _ _ = Done _ |- _ => apply dst_gc_mark_le in H
    | H : dst_mark_udata _ _ = Done _ |- _ => apply dst_gc_mark_le in H
    | H : dst_mark _ ?v _ = Done _ |- _ => apply (IH (CMark v)) in H
    | H : dst_mark_array _ ?v _ = Done _ |- _ => apply (IH (CArray v)) in H
    | H : dst_mark_table _ ?v _ = Done _ |- _ => apply (IH (CTable v)) in H
    | H : dst_mark_struct _ ?v _ = Done _ |- _ => apply (IH (CStruct v)) in H
    | H : dst_mark_tuple _ ?v _ = Done _ |- _ => apply (IH (CTuple v)) in H
    | H : dst_mark_funcenv _ ?v _ = Done _ |- _ => apply (IH (CFuncEnv v)) in H
    | H : dst_mark_funcdef _ ?v _ = Done _ |- _ => apply (IH (CFuncDef v)) in H
    | H : dst_mark_function _ ?v _ = Done _ |- _ => apply (IH (CFunction v)) in H
    | H : dst_mark_fiber _ ?v _ = Done _ |- _ => apply (IH (CFiber v)) in H
    | H : dst_mark_fiber_frames _ ?f ?i ?j _ = Done _ |- _ =>
        apply (IH (CFrames f i j)) in H
    | H : dst_mark_many (dst_mark _) _ _ _ = Done _ |- _ =>
        apply dst_mark_many_le in H; [|intros ?v; apply (IH (CMark v))]
    end.

Ltac le_chain := eauto 8 using heap_le_refl, heap_le_trans.

(** Every routine of the tracer leaves the heap as it was, up to
    reachable bits that it set. *)
Lemma run_heap_le fuel c h h' : run fuel c h = Done h' → heap_le h h'.
Proof.
  revert c h h'. induction fuel as [|fuel IH]; intros c h h' H;
    [by destruct c|].
  destruct c; simpl in H; crunch; le_facts IH; try by le_chain.
  - (* funcdef: the loop over the constants *)
    apply for_loop_le in H; [le_chain|].
    intros i h1 h2 Hb. crunch; le_facts IH; le_chain.
  - (* function: the loop over the environments *)
    match goal with
    | H : for_loop _ _ _ _ = Done _ |- _ => apply for_loop_le in H; [le_chain|]
    end.
    intros i h1 h2 Hb. crunch; le_facts IH; le_chain.
Qed.

Lemma mark_ref_heap_le fuel r h h' : mark_ref fuel r h = Done h' → heap_le h h'.
Proof.
  destruct r; simpl; intros H;
    [ apply (run_heap_le _ (CMark v)) in H | apply (run_heap_le _ (CFuncEnv p)) in H
    | apply (run_heap_le _ (CFuncDef p)) in H | apply (run_heap_le _ (CFunction p)) in H
    | apply (run_heap_le _ (CFiber p)) in H ]; done.
Qed.

(** ** More fuel does not change a result *)

Lemma for_loop_mono n i (body body' : Z → Heap → Res Heap) h h' :
  (∀ i h h', body i h = Done h' → body' i h = Done h') →
  for_loop n i body h = Done h' → for_loop n i body' h = Done h'.
Proof.
  intros Hb. revert i h. induction n as [|n IH]; intros i h; simpl; [done|].
  intros H. bind_inv H. rewrite (Hb _ _ _ E). simpl. eauto.
Qed.

Lemma dst_mark_many_mono (mark mark' : DstValue → Heap → Res Heap) p n h h' :
  (∀ v h h', mark v h = Done h' → mark' v h = Done h') →
  dst_mark_many mark p n h = Done h' → dst_mark_many mark' p n h = Done h'.
Proof.
  intros Hm. apply for_loop_mono. intros i h1 h2 H. bind_inv H.
  rewrite E. simpl. eauto.
Qed.

Ltac mono_facts fuel fuel' IH :=
  repeat match goal with
    | H : dst_mark fuel ?v _ = Done _ |- _ => apply (IH (CMark v)) in H
    | H : dst_mark_array fuel ?v _ = Done _ |- _ => apply (IH (CArray v)) in H
    | H : dst_mark_table fuel ?v _ = Done _ |- _ => apply (IH (CTable v)) in H
    | H : dst_mark_struct fuel ?v _ = Done _ |- _ => apply (IH (CStruct v)) in H
    | H : dst_mark_tuple fuel ?v _ = Done _ |- _ => apply (IH (CTuple v)) in H
    | H : dst_mark_funcenv fuel ?v _ = Done _ |- _ => apply (IH (CFuncEnv v)) in H
    | H : dst_mark_funcdef fuel ?v _ = Done _ |- _ => apply (IH (CFuncDef v)) in H
    | H : dst_mark_function fuel ?v _ = Done _ |- _ => apply (IH (CFunction v)) in H
    | H : dst_mark_fiber fuel ?v _ = Done _ |- _ => apply (IH (CFiber v)) in H
    | H : dst_mark_fiber_frames fuel ?f ?i ?j _ = Done _ |- _ =>
        apply (IH (CFrames f i j)) in H
    | H : dst_mark_many (dst_mark fuel) _ _ _ = Done _ |- _ =>
        apply (dst_mark_many_mono (dst_mark fuel) (dst_mark fuel')) in H;
        [|intros ?v; apply (IH (CMark v))]
    end;
  cbn [run] in *.

Ltac replay :=
  repeat first
    [ progress cbn [res_bind load]
    | match goal with
      | H : ?m = Done _ |- context [?m] => rewrite H
      | H : ?o = Some _ |- context [?o] => rewrite H
      | H : ?c = true |- context [if ?c then _ else _] => rewrite H
      | H : ?c = false |- context [if ?c then _ else _] => rewrite H
      | H : type ?v = _ |- context [type ?v] => rewrite H
      end ];
  try done.

Lemma run_step_mono fuel fuel' :
  (∀ c h h', run fuel c h = Done h' → run fuel' c h = Done h') →
  ∀ c h h', run (S fuel) c h = Done h' → run (S fuel') c h = Done h'.
Proof.
  intros IH c h h' H.
  destruct c; simpl in *; crunch; mono_facts fuel fuel' IH; replay.
  - (* funcdef *)
    revert H. apply for_loop_mono.
    intros i h1 h2 Hb. crunch; mono_facts fuel fuel' IH; replay.
  - (* function *)
    match goal with
    | H : for_loop ?n ?i ?b ?h = Done ?h' |- context [for_loop ?n ?i ?b' ?h] =>
        rewrite (for_loop_mono n i b b' h h'); [|clear H|exact H]
    end; [replay|].
    intros i h1 h2 Hb. crunch; mono_facts fuel fuel' IH; replay.
Qed.

Lemma run_S fuel c h h' : run fuel c h = Done h' → run (S fuel) c h = Done h'.
Proof.
  revert c h h'. induction fuel as [|fuel IH]; [by intros []|].
  by apply run_step_mono.
Qed.

Lemma run_mono fuel fuel' c h h' :
  (fuel ≤ fuel')%nat → run fuel c h = Done h' → run fuel' c h = Done h'.
Proof. induction 1; auto using run_S. Qed.

Lemma mark_ref_mono fuel fuel' r h h' :
  (fuel ≤ fuel')%nat → mark_ref fuel r h = Done h' → mark_ref fuel' r h = Done h'.
Proof.
  intros Hle. destruct r; simpl;
    [ apply (run_mono _ _ (CMark v)) | apply (run_mono _ _ (CFuncEnv p))
    | apply (run_mono _ _ (CFuncDef p)) | apply (run_mono _ _ (CFunction p))
    | apply (run_mono _ _ (CFiber p)) ]; done.
Qed.

Lemma mark_refs_mono fuel fuel' rs h h' :
  (fuel ≤ fuel')%nat → mark_refs fuel rs h = Done h' → mark_refs fuel' rs h = Done h'.
Proof.
  intros Hle. revert h. induction rs as [|r rs IH]; intros h; simpl; [done|].
  intros H. bind_inv H. rewrite (mark_ref_mono _ _ _ _ _ Hle E). simpl. eauto.
Qed.

(** The result does not depend on the fuel that sufficed. *)
Lemma mark_ref_det fuel fuel' r h h1 h2 :
  mark_ref fuel r h = Done h1 → mark_ref fuel' r h = Done h2 → h1 = h2.
Proof.
  intros H1 H2.
  apply (mark_ref_mono _ (fuel `max` fuel')) in H1; [|lia].
  apply (mark_ref_mono _ (fuel `max` fuel')) in H2; [|lia].
  congruence.
Qed.

(** ** The blocks still to mark *)

Lemma elem_of_unmarked_set h a : a ∈ unmarked_set h ↔ unmarked h a.
Proof.
  unfold unmarked_set, unmarked. rewrite elem_of_dom. unfold is_Some.
  setoid_rewrite map_lookup_filter_Some. simpl. naive_solver.
Qed.

Lemma marked_unmarked h a : marked h a → unmarked h a → False.
Proof. intros (b & Hb & Hm) (b' & Hb' & Hu). congruence. Qed.

Lemma marked_or_unmarked h a b :
  blocks h !! a = Some b → marked h a ∨ unmarked h a.
Proof.
  intros Hb. destruct (reachable_bit (flags b)) eqn:E; [left|right]; by exists b.
Qed.

Lemma heap_le_unmarked h h' a : heap_le h h' → unmarked h' a → unmarked h a.
Proof.
  intros H (b' & Hb' & Hu).
  destruct (heap_le_lookup_inv _ _ _ _ H Hb') as (b & Hb & (_ & _ & Hf)).
  exists b. split; [done|]. destruct Hf as [Hf|Hf]; [congruence|].
  rewrite Hf, reachable_bit_lor in Hu. discriminate.
Qed.

Lemma heap_le_unmarked_set h h' : heap_le h h' → unmarked_set h' ⊆ unmarked_set h.
Proof.
  intros H a. rewrite !elem_of_unmarked_set. by apply heap_le_unmarked.
Qed.

Lemma set_flags_lookup a fl h a' :
  blocks (set_flags a fl h) !! a' =
    if decide (a = a')
    then (fun b => {| next := next b; flags := fl; body := body b |}) <$> blocks h !! a
    else blocks h !! a'.
Proof.
  simpl. case_decide as E; [subst; apply lookup_alter_eq|by apply lookup_alter_ne].
Qed.

Lemma set_flags_marked a b h :
  blocks h !! a = Some b →
  marked (set_flags a (Z.lor (flags b) DST_MEM_REACHABLE) h) a.
Proof.
  intros Hb. eexists. rewrite set_flags_lookup, decide_True, Hb by done.
  split; [done|]. apply reachable_bit_lor.
Qed.

Lemma set_flags_unmarked_set a b h :
  blocks h !! a = Some b → reachable_bit (flags b) = false →
  (size (unmarked_set (set_flags a (Z.lor (flags b) DST_MEM_REACHABLE) h))
   < size (unmarked_set h))%nat.
Proof.
  intros Hb Hu. apply subset_size. split.
  - by apply heap_le_unmarked_set, heap_le_set_flags.
  - intros Hsub. specialize (Hsub a). rewrite !elem_of_unmarked_set in Hsub.
    eapply marked_unmarked; [by apply set_flags_marked|].
    apply Hsub. by exists b.
Qed.

(** ** Closure of what got marked *)

Lemma closed_from_refl h : closed_from h h.
Proof.
  intros a b rs r' a' Hb Hu Hm. exfalso.
  eapply marked_unmarked; [done|by exists b].
Qed.

Lemma closed_from_trans h1 h2 h3 :
  heap_le h1 h2 → heap_le h2 h3 →
  closed_from h1 h2 → closed_from h2 h3 → closed_from h1 h3.
Proof.
  intros L12 L23 C12 C23 a b rs r' a' Hb Hu Hm Ho Hin Hh.
  destruct (heap_le_lookup _ _ _ _ L12 Hb) as (b2 & Hb2 & (_ & Hbody & _)).
  destruct (marked_or_unmarked _ _ _ Hb2) as [Hm2|(b2' & Hb2' & Hu2)].
  - eapply heap_le_marked; [done|]. by eapply C12.
  - assert (b2' = b2) as -> by congruence.
    eapply (C23 a b2 rs r' a'); try done.
    by rewrite Hbody, (heap_le_out_refs _ _ _ L12).
Qed.

Lemma closed_from_set_flags a b h :
  blocks h !! a = Some b → reachable_bit (flags b) = true →
  closed_from h (set_flags a (Z.lor (flags b) DST_MEM_REACHABLE) h).
Proof.
  intros Hb Hm a0 b0 rs r' a' Hb0 Hu0 (b1 & Hb1 & Hm1). exfalso.
  rewrite set_flags_lookup in Hb1. case_decide; [congruence|].
  congruence.
Qed.

(** ** The routines follow the references of [out_refs] *)

Lemma res_bind_ret {A} (m : Res A) : (x <- m ;; Done x) = m.
Proof. by destruct m. Qed.

Lemma mark_refs_app fuel l1 l2 h :
  mark_refs fuel (l1 ++ l2) h = (h' <- mark_refs fuel l1 h ;; mark_refs fuel l2 h').
Proof.
  revert h. induction l1 as [|r l1 IH]; intros h; simpl; [done|].
  destruct (mark_ref fuel r h); simpl; auto.
Qed.

Lemma mark_refs_heap_le fuel rs h h' : mark_refs fuel rs h = Done h' → heap_le h h'.
Proof.
  revert h. induction rs as [|r rs IH]; intros h; simpl.
  - intros [= <-]. apply heap_le_refl.
  - intros H. bind_inv H. eauto using heap_le_trans, mark_ref_heap_le.
Qed.

Lemma for_loop_refs {A} fuel (get : Heap → Z → option A)
    (act : A → Heap → Res Heap) (refs_of : A → list Ref) h0 :
  (∀ h k, heap_le h0 h → get h k = get h0 k) →
  (∀ x h, act x h = mark_refs fuel (refs_of x) h) →
  ∀ n i xs h, heap_le h0 h → tabulate n i (get h0) = Some xs →
  for_loop n i (fun k h => x <- load (get h k) ;; act x h) h
  = mark_refs fuel (concat (map refs_of xs)) h.
Proof.
  intros Hget Hact. induction n as [|n IH]; intros i xs h Hle; simpl.
  - by intros [= <-].
  - rewrite (Hget _ _ Hle). destruct (get h0 i) as [x|]; simpl; [|done].
    destruct (tabulate n (i + 1) (get h0)) as [xs'|] eqn:Et; simpl; [|done].
    intros [= <-]. simpl. rewrite mark_refs_app, Hact.
    destruct (mark_refs fuel (refs_of x) h) as [h1| |] eqn:E1; simpl; try done.
    apply IH; [|done].
    eauto using heap_le_trans, mark_refs_heap_le.
Qed.

Lemma concat_map_singleton {A B} (f : A → B) (l : list A) :
  concat (map (fun x => [f x]) l) = map f l.
Proof. induction l; simpl; congruence. Qed.

Lemma mark_refs_singleton fuel r h : mark_refs fuel [r] h = mark_ref fuel r h.
Proof. simpl. apply res_bind_ret. Qed.

(** [dst_mark_many] marks the values it finds, in order. *)
Lemma dst_mark_many_refs fuel h0 p n vs h :
  heap_le h0 h → values_at h0 p n = Some vs →
  dst_mark_many (dst_mark fuel) p n h = mark_refs fuel (map RValue vs) h.
Proof.
  intros Hle Hvs. unfold dst_mark_many.
  rewrite (for_loop_refs fuel (fun h k => value_at h (ptr_add p k))
             (dst_mark fuel) (fun v => [RValue v]) h0) with (xs := vs);
    try done.
  - by rewrite concat_map_singleton.
  - intros h1 k Hle1. by apply heap_le_value_at.
  - intros x h1. by rewrite mark_refs_singleton.
Qed.

Lemma frames_follow fuel h0 f n i j rs h h' :
  heap_le h0 h → frame_refs n h0 f i j = Some rs →
  mark_refs fuel rs h = Done h' →
  dst_mark_fiber_frames (n + S fuel) f i j h = Done h'.
Proof.
  revert i j rs h. induction n as [|n IH]; intros i j rs h Hle; [done|].
  cbn [frame_refs]. replace (S n + S fuel)%nat with (S (n + S fuel)) by lia.
  cbn [dst_mark_fiber_frames]. destruct (i =? 0).
  { intros [= <-]. simpl. congruence. }
  rewrite (heap_le_frame_at _ _ _ _ Hle).
  destruct (frame_at h0 _ _) as [fr|]; [|done]. cbn [mbind option_bind load res_bind].
  destruct (values_at h0 _ _) as [vs|] eqn:Evs; [|done]. cbn [mbind option_bind].
  destruct (frame_refs n h0 f _ _) as [rest|] eqn:Erest; [|done].
  cbn [mbind option_bind]. intros [= <-].
  rewrite mark_refs_app. intros H. bind_inv H.
  rewrite mark_refs_app in H. bind_inv H.
  assert (Hle1 : heap_le h x) by
    (destruct (negb (func fr =? 0)); eauto using mark_refs_heap_le).
  assert (Hle2 : heap_le x x0) by eauto using mark_refs_heap_le.
  assert ((if negb (func fr =? 0)
           then dst_mark_function (n + S fuel) (func fr) h else Done h) = Done x)
    as ->.
  { destruct (negb (func fr =? 0)); [|done].
    rewrite mark_refs_singleton in E.
    apply (mark_ref_mono fuel (n + S fuel) (RFunction (func fr))); [lia|done]. }
  cbn [res_bind].
  rewrite (dst_mark_many_refs _ h0 _ _ vs) by eauto using heap_le_trans.
  rewrite (mark_refs_mono fuel (n + S fuel) _ _ _ ltac:(lia) E0). cbn [res_bind].
  apply (IH _ _ rest); eauto using heap_le_trans.
Qed.

Section Children.
Variables (fuel : nat) (h : Heap) (a : Z) (b : Block).
Hypothesis Hb : blocks h !! a = Some b.
Hypothesis Hu : reachable_bit (flags b) = false.

Local Abbreviation h1 := (set_flags a (Z.lor (flags b) DST_MEM_REACHABLE) h).

Lemma guard_reachable m : dst_gc_header m = a → dst_gc_reachable m h = Done false.
Proof. intros <-. unfold dst_gc_reachable. rewrite Hb. simpl. by rewrite Hu. Qed.

Lemma guard_mark m : dst_gc_header m = a → dst_gc_mark m h = Done h1.
Proof. intros <-. unfold dst_gc_mark. by rewrite Hb. Qed.

Lemma marked_le : heap_le h h1.
Proof. by apply heap_le_set_flags. Qed.

Lemma body_at_marked m : dst_gc_header m = a → body_at h1 m = Some (body b).
Proof.
  intros Ha. rewrite (heap_le_body_at _ _ _ marked_le). unfold body_at.
  by rewrite Ha, Hb.
Qed.

Lemma array_children array rs h' :
  dst_gc_header array = a → ref_matches (RValue {| type := DST_ARRAY; as_ := array |}) (body b) = true →
  out_refs h (body b) = Some rs → mark_refs fuel rs h1 = Done h' →
  dst_mark_array (S fuel) array h = Done h'.
Proof.
  intros Ha Hm Ho Hr. simpl. rewrite (guard_reachable _ Ha), (guard_mark _ Ha).
  cbn [res_bind]. unfold array_at. rewrite (body_at_marked _ Ha).
  destruct (body b); try discriminate. simpl in Ho.
  destruct (values_at h _ _) as [vs|] eqn:Evs; [|done]. injection Ho as <-.
  cbn [load res_bind].
  by rewrite (dst_mark_many_refs _ h _ _ vs) by auto using marked_le.
Qed.

Lemma table_children table rs h' :
  dst_gc_header table = a →
  ref_matches (RValue {| type := DST_TABLE; as_ := table |}) (body b) = true →
  out_refs h (body b) = Some rs → mark_refs fuel rs h1 = Done h' →
  dst_mark_table (S fuel) table h = Done h'.
Proof.
  intros Ha Hm Ho Hr. simpl. rewrite (guard_reachable _ Ha), (guard_mark _ Ha).
  cbn [res_bind]. unfold table_at. rewrite (body_at_marked _ Ha).
  destruct (body b); try discriminate. simpl in Ho.
  destruct (values_at h _ _) as [vs|] eqn:Evs; [|done]. injection Ho as <-.
  cbn [load res_bind].
  by rewrite (dst_mark_many_refs _ h _ _ vs) by auto using marked_le.
Qed.

Lemma struct_children st rs h' :
  dst_gc_header (dst_struct_raw st) = a →
  ref_matches (RValue {| type := DST_STRUCT; as_ := st |}) (body b) = true →
  out_refs h (body b) = Some rs → mark_refs fuel rs h1 = Done h' →
  dst_mark_struct (S fuel) st h = Done h'.
Proof.
  intros Ha Hm Ho Hr. simpl. rewrite (guard_reachable _ Ha), (guard_mark _ Ha).
  cbn [res_bind]. unfold dst_struct_capacity. rewrite (body_at_marked _ Ha).
  destruct (body b) eqn:Eb; try discriminate. simpl in Ho.
  destruct (tabulate _ _ _) as [vs|] eqn:Evs; [|done]. injection Ho as <-.
  cbn [load res_bind].
  rewrite (dst_mark_many_refs _ h _ _ vs); auto using marked_le.
  unfold values_at. rewrite <- Evs. apply tabulate_ext. intros k. simpl.
  unfold body_at. rewrite Ha, Hb. simpl. by rewrite Eb.
Qed.

Lemma tuple_children tuple rs h' :
  dst_gc_header (dst_tuple_raw tuple) = a →
  ref_matches (RValue {| type := DST_TUPLE; as_ := tuple |}) (body b) = true →
  out_refs h (body b) = Some rs → mark_refs fuel rs h1 = Done h' →
  dst_mark_tuple (S fuel) tuple h = Done h'.
Proof.
  intros Ha Hm Ho Hr. simpl. rewrite (guard_reachable _ Ha), (guard_mark _ Ha).
  cbn [res_bind]. unfold dst_tuple_length. rewrite (body_at_marked _ Ha).
  destruct (body b) eqn:Eb; try discriminate. simpl in Ho.
  destruct (tabulate _ _ _) as [vs|] eqn:Evs; [|done]. injection Ho as <-.
  cbn [load res_bind].
  rewrite (dst_mark_many_refs _ h _ _ vs); auto using marked_le.
  unfold values_at. rewrite <- Evs. apply tabulate_ext. intros k. simpl.
  unfold body_at. rewrite Ha, Hb. simpl. by rewrite Eb.
Qed.

Lemma funcenv_children env rs h' :
  dst_gc_header env = a → ref_matches (RFuncEnv env) (body b) = true →
  out_refs h (body b) = Some rs → mark_refs fuel rs h1 = Done h' →
  dst_mark_funcenv (S fuel) env h = Done h'.
Proof.
  intros Ha Hm Ho Hr. simpl. rewrite (guard_reachable _ Ha), (guard_mark _ Ha).
  cbn [res_bind]. unfold funcenv_at. rewrite (body_at_marked _ Ha).
  destruct (body b); try discriminate. simpl in Ho. cbn [load res_bind].
  destruct (negb (offset e =? 0)).
  - injection Ho as <-. by rewrite mark_refs_singleton in Hr.
  - destruct (values_at h _ _) as [vs|] eqn:Evs; [|done]. injection Ho as <-.
    by rewrite (dst_mark_many_refs _ h _ _ vs) by auto using marked_le.
Qed.

Lemma funcdef_children def rs h' :
  dst_gc_header def = a → ref_matches (RFuncDef def) (body b) = true →
  out_refs h (body b) = Some rs → mark_refs fuel rs h1 = Done h' →
  dst_mark_funcdef (S fuel) def h = Done h'.
Proof.
  intros Ha Hm Ho Hr. simpl. rewrite (guard_reachable _ Ha), (guard_mark _ Ha).
  cbn [res_bind]. unfold funcdef_at. rewrite (body_at_marked _ Ha).
  destruct (body b); try discriminate. cbn [out_refs] in Ho. cbn [load res_bind].
  destruct (negb (constants d =? 0)).
  - destruct (values_at h _ _) as [vs|] eqn:Evs; [|done]. injection Ho as <-.
    rewrite (for_loop_refs fuel (fun h k => value_at h (InBuffer (constants d) k))
               (fun v h => match type v with
                           | DST_BOOLEAN => dst_mark_funcdef fuel (as_ v) h
                           | _ => dst_mark fuel v h
                           end)
               (fun v => [const_ref v]) h) with (xs := vs);
      auto using marked_le.
    + by rewrite concat_map_singleton.
    + intros h2 k Hle. by apply heap_le_value_at.
    + intros v h2. rewrite mark_refs_singleton. unfold const_ref.
      by destruct (type v).
  - by injection Ho as <-.
Qed.

Lemma concat_map_envs (es : list Z) :
  concat (map (fun e => if negb (e =? 0) then [RFuncEnv e] else []) es)
  = map RFuncEnv (filter (fun e => e ≠ 0) es).
Proof.
  induction es as [|e es IH]; [done|]. cbn [map concat].
  rewrite filter_cons, IH. case_decide as E.
  - apply Z.eqb_neq in E. by rewrite E.
  - by subst.
Qed.

Lemma function_children func rs h' :
  dst_gc_header func = a → ref_matches (RFunction func) (body b) = true →
  out_refs h (body b) = Some rs → mark_refs fuel rs h1 = Done h' →
  dst_mark_function (S fuel) func h = Done h'.
Proof.
  intros Ha Hm Ho Hr. simpl. rewrite (guard_reachable _ Ha), (guard_mark _ Ha).
  cbn [res_bind]. unfold function_at. rewrite (body_at_marked _ Ha).
  destruct (body b); try discriminate. cbn [out_refs] in Ho. cbn [load res_bind].
  unfold funcdef_at in *. rewrite (heap_le_body_at _ _ _ marked_le).
  destruct (body_at h (def f)) as [[]|]; try discriminate.
  cbn [mbind option_bind load res_bind] in *.
  destruct (negb (envs f =? 0)).
  - destruct (tabulate _ _ _) as [es|] eqn:Ees; [|done].
    cbn [mbind option_bind] in Ho. injection Ho as <-.
    rewrite mark_refs_app in Hr.
    rewrite (for_loop_refs fuel (fun h k => env_at h (envs f) k)
               (fun e h => if negb (e =? 0) then dst_mark_funcenv fuel e h else Done h)
               (fun e => if negb (e =? 0) then [RFuncEnv e] else []) h)
      with (xs := es); auto using marked_le.
    + rewrite concat_map_envs. bind_inv Hr. rewrite E. cbn [res_bind].
      by rewrite mark_refs_singleton in Hr.
    + intros h2 k Hle. by apply heap_le_env_at.
    + intros e h2. destruct (negb (e =? 0)); [|done].
      by rewrite mark_refs_singleton.
  - cbn [mbind option_bind] in Ho. injection Ho as <-. simpl in Hr.
    by rewrite res_bind_ret in Hr.
Qed.

Lemma fiber_children fiber rs h' :
  dst_gc_header fiber = a → ref_matches (RFiber fiber) (body b) = true →
  out_refs h (body b) = Some rs → mark_refs fuel rs h1 = Done h' →
  ∃ fuel', dst_mark_fiber fuel' fiber h = Done h'.
Proof.
  intros Ha Hm Ho Hr.
  destruct (body b) eqn:Eb; try discriminate. cbn [out_refs] in Ho.
  destruct (frame_refs _ _ _ _ _) as [frs|] eqn:Efrs; [|done].
  cbn [mbind option_bind] in Ho. injection Ho as <-.
  rewrite mark_refs_app in Hr. bind_inv Hr.
  rewrite mark_refs_app in Hr. bind_inv Hr.
  rewrite mark_refs_singleton in Hr.
  remember (frames_bound h f + S fuel)%nat as F eqn:EF.
  assert (Hfuel : (fuel ≤ F)%nat) by lia.
  exists (S F). cbn [dst_mark_fiber].
  rewrite (guard_reachable _ Ha), (guard_mark _ Ha).
  cbn [res_bind]. unfold fiber_at. rewrite (body_at_marked _ Ha), Eb.
  cbn [load res_bind]. subst F.
  rewrite (frames_follow fuel h f _ _ _ frs h1 x); auto using marked_le.
  cbn [res_bind].
  assert ((if negb (fiber_parent f =? 0)
           then dst_mark_fiber (frames_bound h f + S fuel) (fiber_parent f) x
           else Done x) = Done x0) as ->.
  { destruct (negb (fiber_parent f =? 0)); [|done].
    rewrite mark_refs_singleton in E0.
    by apply (mark_ref_mono fuel _ (RFiber (fiber_parent f))). }
  cbn [res_bind]. by apply (mark_ref_mono fuel _ (RValue (ret f))).
Qed.

(** Marking an unmarked object amounts to setting its bit and marking
    its references in order. *)
Lemma mark_children r rs h' :
  ref_header r = Some a → ref_matches r (body b) = true →
  out_refs h (body b) = Some rs → mark_refs fuel rs h1 = Done h' →
  ∃ fuel', mark_ref fuel' r h = Done h'.
Proof.
  intros Ha Hm Ho Hr. destruct r as [[ty p]|p|p|p|p]; cbn [mark_ref].
  - destruct ty; try discriminate; cbn [ref_header type as_] in Ha;
      injection Ha as Ha.
    + (* string *) exists 1%nat. simpl. unfold dst_mark_string.
      rewrite (guard_mark _ Ha). simpl in Hm.
      destruct (body b); try discriminate. simpl in Ho. injection Ho as <-.
      done.
    + (* symbol *) exists 1%nat. simpl. unfold dst_mark_string.
      rewrite (guard_mark _ Ha). simpl in Hm.
      destruct (body b); try discriminate. simpl in Ho. injection Ho as <-.
      done.
    + exists (S (S fuel)). by apply (array_children p rs).
    + exists (S (S fuel)). by apply (tuple_children p rs).
    + exists (S (S fuel)). by apply (table_children p rs).
    + exists (S (S fuel)). by apply (struct_children p rs).
    + destruct (fiber_children p rs h') as [fuel' Hf]; try done.
      by exists (S fuel').
    + (* buffer *) exists 1%nat. simpl. unfold dst_mark_buffer.
      rewrite (guard_mark _ Ha). simpl in Hm.
      destruct (body b); try discriminate. simpl in Ho. injection Ho as <-.
      done.
    + exists (S (S fuel)). by apply (function_children p rs).
    + (* userdata *) exists 1%nat. simpl. unfold dst_mark_udata.
      rewrite (guard_mark _ Ha). simpl in Hm.
      destruct (body b); try discriminate. simpl in Ho. injection Ho as <-.
      done.
  - injection Ha as Ha. exists (S fuel). by apply (funcenv_children p rs).
  - injection Ha as Ha. exists (S fuel). by apply (funcdef_children p rs).
  - injection Ha as Ha. exists (S fuel). by apply (function_children p rs).
  - injection Ha as Ha. by apply (fiber_children p rs).
Qed.
End Children.

(** ** Marking terminates and marks what is reachable *)

Lemma mark_ref_no_header r h : ref_header r = None → mark_ref 1 r h = Done h.
Proof. destruct r as [[[] p]| | | |]; simpl; done. Qed.

Lemma mark_ref_marked r a b h :
  ref_header r = Some a → blocks h !! a = Some b →
  ref_matches r (body b) = true → reachable_bit (flags b) = true →
  ∃ h', mark_ref 2 r h = Done h' ∧ heap_le h h' ∧ closed_from h h'.
Proof.
  intros Ha Hb Hm Hr.
  assert (Hg : ∀ m, dst_gc_header m = a → dst_gc_reachable m h = Done true).
  { intros m <-. unfold dst_gc_reachable. rewrite Hb. simpl. by rewrite Hr. }
  assert (Hk : ∀ m, dst_gc_header m = a → ∃ h',
             dst_gc_mark m h = Done h' ∧ heap_le h h' ∧ closed_from h h').
  { intros m <-. unfold dst_gc_mark. rewrite Hb. simpl. eexists. split; [done|].
    split; [by apply heap_le_set_flags|by apply closed_from_set_flags]. }
  assert (Hid : heap_le h h ∧ closed_from h h)
    by auto using heap_le_refl, closed_from_refl.
  destruct r as [[ty p]|p|p|p|p]; [destruct ty; try discriminate|..];
    injection Ha as Ha; simpl;
    unfold dst_mark_string, dst_mark_buffer, dst_mark_udata;
    rewrite ?(Hg _ Ha); simpl; eauto.
Qed.

Lemma mark_refs_total n :
  (∀ h r, (size (unmarked_set h) < n)%nat → graph_ok h r →
          ∃ fuel h', mark_ref fuel r h = Done h' ∧ mark_post r h h') →
  ∀ rs h, (size (unmarked_set h) < n)%nat → (∀ r, r ∈ rs → graph_ok h r) →
    ∃ fuel h', mark_refs fuel rs h = Done h' ∧ heap_le h h' ∧ closed_from h h'
               ∧ ∀ r a, r ∈ rs → ref_header r = Some a → marked h' a.
Proof.
  intros IH. induction rs as [|r rs IHrs]; intros h Hn Hok.
  - exists O, h. simpl. split; [done|]. split; [apply heap_le_refl|].
    split; [apply closed_from_refl|]. intros r a Hin. by apply elem_of_nil in Hin.
  - destruct (IH h r Hn) as (f1 & h1 & E1 & L1 & M1 & C1).
    { apply Hok. left. }
    destruct (IHrs h1) as (f2 & h2 & E2 & L2 & C2 & M2).
    { pose proof (subseteq_size _ _ (heap_le_unmarked_set _ _ L1)). lia. }
    { intros r' Hin. apply (heap_le_graph_ok _ _ _ L1), Hok. by right. }
    exists (f1 `max` f2)%nat, h2. simpl.
    rewrite (mark_ref_mono f1 (f1 `max` f2) _ _ _ ltac:(lia) E1). simpl.
    rewrite (mark_refs_mono f2 (f1 `max` f2) _ _ _ ltac:(lia) E2).
    split; [done|]. split; [by eapply heap_le_trans|].
    split; [by eapply closed_from_trans|].
    intros r' a [->|Hin]%elem_of_cons Ha.
    + eapply heap_le_marked; eauto.
    + eauto.
Qed.

Lemma mark_total n h r :
  (size (unmarked_set h) < n)%nat → graph_ok h r →
  ∃ fuel h', mark_ref fuel r h = Done h' ∧ mark_post r h h'.
Proof.
  revert h r. induction n as [|n IH]; intros h r Hn Hok; [lia|].
  destruct (ref_header r) as [a|] eqn:Ha.
  2:{ exists 1%nat, h. split; [by apply mark_ref_no_header|].
      split; [apply heap_le_refl|]. split; [|apply closed_from_refl].
      intros a. by rewrite Ha. }
  destruct (graph_ok_ref_ok _ _ Hok a Ha) as (b & rs & Hb & Hm & Ho).
  destruct (reachable_bit (flags b)) eqn:Hbit.
  - destruct (mark_ref_marked r a b h) as (h' & E & L & C); try done.
    exists 2%nat, h'. split; [done|]. split; [done|]. split; [|done].
    intros a' Ha'. assert (a' = a) as -> by congruence.
    eapply heap_le_marked; [done|]. by exists b.
  - set (h1 := set_flags a (Z.lor (flags b) DST_MEM_REACHABLE) h).
    assert (L1 : heap_le h h1) by by apply heap_le_set_flags.
    destruct (mark_refs_total n IH rs h1) as (f & h' & E & L & C & M).
    { pose proof (set_flags_unmarked_set a b h Hb Hbit). unfold h1. lia. }
    { intros r' Hin. apply (heap_le_graph_ok _ _ _ L1).
      apply (graph_ok_child _ r); [done|]. by exists a, b, rs. }
    destruct (mark_children f h a b Hb Hbit r rs h') as (fuel' & E'); try done.
    exists fuel', h'. split; [done|]. split; [by eapply heap_le_trans|].
    assert (Ma : marked h' a).
    { eapply heap_le_marked; [done|]. by apply set_flags_marked. }
    split.
    + intros a' Ha'. by assert (a' = a) as -> by congruence.
    + intros a0 b0 rs0 r0 a0' Hb0 Hu0 Hm0 Ho0 Hin0 Hh0.
      destruct (decide (a0 = a)) as [->|Hne].
      * assert (b0 = b) as -> by congruence.
        assert (rs0 = rs) as -> by congruence. eauto.
      * eapply (C a0 b0 rs0 r0 a0'); try done.
        -- unfold h1. rewrite set_flags_lookup. by rewrite decide_False.
        -- by rewrite (heap_le_out_refs _ _ _ L1).
Qed.

(** With all reachable bits clear at the start, what is marked at the
    end contains every block reachable from the root. *)
Lemma closed_reachable h h' r a :
  heap_le h h' → closed_from h h' → (∀ a, ¬ marked h a) →
  (∀ a, ref_header r = Some a → marked h' a) →
  graph_ok h r → reachable_from h r a → marked h' a.
Proof.
  intros L C Hclear Hroot Hok (r' & Hpath & Ha). revert a Ha.
  induction Hpath as [r|r r1 r2 Hc Hpath IH]; intros a Ha; [auto|].
  apply IH; [| by eapply graph_ok_child |done].
  intros a1 Ha1. destruct Hc as (a0 & b0 & rs & Ha0 & Hb0 & Ho & Hin).
  eapply (C a0 b0 rs r1 a1); eauto.
  destruct (reachable_bit (flags b0)) eqn:E; [|done].
  destruct (Hclear a0). by exists b0.
Qed.

(** ** The finalizer *)

Lemma header_of_body a : dst_gc_header (a + sizeof_DstGCMemoryHeader) = a.
Proof. unfold dst_gc_header. lia. Qed.

Lemma body_at_block h a b :
  blocks h !! a = Some b → body_at h (a + sizeof_DstGCMemoryHeader) = Some (body b).
Proof. intros Hb. unfold body_at. by rewrite header_of_body, Hb. Qed.

Lemma free_blocks p vm :
  blocks (heap vm) !! p = None → blocks (heap (free p vm)) = blocks (heap vm).
Proof. intros H. simpl. by apply delete_id. Qed.

(** On a block whose tag tells what it holds, the finalizer runs to its
    end, does what [deinit_events] tells and leaves the blocks alone. *)
Lemma deinit_spec a b vm :
  blocks (heap vm) !! a = Some b → well_tagged b →
  (∀ p, p ∈ owned (body b) → blocks (heap vm) !! p = None) →
  ∃ vm', dst_deinit_block a vm = Done vm'
         ∧ trace vm' = trace vm ++ EvDeinit a :: deinit_events a b
         ∧ blocks (heap vm') = blocks (heap vm)
         ∧ dst_vm_blocks vm' = dst_vm_blocks vm
         ∧ same_globals vm vm'.
Proof.
  intros Hb (t & Hin & Htag) Hown.
  unfold dst_deinit_block, deinit_events.
  cbn [heap emit]. rewrite Hb. cbn [load res_bind].
  unfold array_at, table_at, fiber_at, buffer_at, function_at, userdata_at,
    funcenv_at, funcdef_at.
  cbn [heap emit]. rewrite (body_at_block _ _ _ Hb), Htag.
  destruct (body b) eqn:Eb; cbn [body_tags] in Hin;
    repeat (apply elem_of_cons in Hin as [->|Hin]);
    try (by apply elem_of_nil in Hin);
    cbn [mem_tag Z.eqb Pos.eqb load res_bind owned];
    try match goal with
      | |- context [offset ?e] => destruct (offset e) eqn:Eoff
      | |- context [finalize ?u] => destruct (finalize u)
      end;
    cbn [map negb];
    (eexists; split; [reflexivity|]; cbn; rewrite <- ?app_assoc;
     split; [reflexivity|]);
    repeat match goal with
      | |- context [delete ?p (blocks (heap vm))] =>
          rewrite (delete_id (blocks (heap vm)) p)
            by (apply Hown; cbn [owned]; rewrite ?Eoff; set_solver)
      end;
    done.
Qed.

(** ** The sweeper *)

Lemma chain_ext h h' p (l : list Z) :
  (∀ a, a ∈ l → blocks h' !! a = blocks h !! a) → chain h p l → chain h' p l.
Proof.
  revert p. induction l as [|a l IH]; intros p Hext; simpl; [done|].
  intros (-> & Hnz & b & Hb & Hc). split; [done|]. split; [done|].
  exists b. split; [rewrite Hext; [done|left]|].
  apply IH; [|done]. intros x Hx. apply Hext. by right.
Qed.

Lemma kept_ext h h' a : blocks h' !! a = blocks h !! a → kept h' a = kept h a.
Proof. unfold kept. by intros ->. Qed.

Lemma filter_kept_ext h h' (l : list Z) :
  (∀ a, a ∈ l → blocks h' !! a = blocks h !! a) →
  filter (fun a => kept h' a = true) l = filter (fun a => kept h a = true) l.
Proof.
  induction l as [|a l IH]; intros Hext; [done|].
  rewrite !filter_cons, (kept_ext h h' a), IH; [done| |].
  - intros x Hx. apply Hext. by right.
  - apply Hext. left.
Qed.

Lemma sweep_events_ext h h' previous (l : list Z) :
  (∀ a, a ∈ l → blocks h' !! a = blocks h !! a) →
  sweep_events h' previous l = sweep_events h previous l.
Proof.
  revert previous. induction l as [|a l IH]; intros previous Hext; [done|].
  simpl. rewrite Hext by left.
  assert (Hl : ∀ x, x ∈ l → blocks h' !! x = blocks h !! x).
  { intros x Hx. apply Hext. by right. }
  destruct (blocks h !! a) as [b|]; [|done]. by rewrite !IH.
Qed.

Lemma sweepable_ext h h' a :
  blocks h' !! a = blocks h !! a →
  (∀ p, blocks h !! p = None → blocks h' !! p = None) →
  sweepable h a → sweepable h' a.
Proof.
  intros Ha Hnone Hs b Hb. rewrite Ha in Hb. destruct (Hs b Hb) as [Ht Ho].
  split; [done|]. auto.
Qed.

Lemma update_flags_lookup a f vm x :
  blocks (heap (update_flags a f vm)) !! x =
    if decide (x = a)
    then (fun b => {| next := next b; flags := f (flags b); body := body b |})
           <$> blocks (heap vm) !! a
    else blocks (heap vm) !! x.
Proof.
  simpl. case_decide as E; [subst; apply lookup_alter_eq|by apply lookup_alter_ne].
Qed.

Lemma store_next_lookup a n vm x :
  blocks (heap (store_next a n vm)) !! x =
    if decide (x = a)
    then (fun b => {| next := n; flags := flags b; body := body b |})
           <$> blocks (heap vm) !! a
    else blocks (heap vm) !! x.
Proof.
  simpl. case_decide as E; [subst; apply lookup_alter_eq|by apply lookup_alter_ne].
Qed.

Lemma free_lookup a vm x :
  blocks (heap (free a vm)) !! x =
    if decide (x = a) then None else blocks (heap vm) !! x.
Proof.
  simpl. case_decide as E; [subst; apply lookup_delete_eq|by apply lookup_delete_ne].
Qed.

Lemma link_lookup previous vm vm' :
  dst_vm_blocks vm' = dst_vm_blocks vm →
  next <$> blocks (heap vm') !! previous = next <$> blocks (heap vm) !! previous →
  link previous vm' = link previous vm.
Proof.
  intros Hh Hn. unfold link. rewrite Hh.
  destruct (previous =? 0); [done|].
  destruct (blocks (heap vm') !! previous), (blocks (heap vm) !! previous);
    simpl in *; congruence.
Qed.


Lemma same_globals_refl vm : same_globals vm vm.
Proof. by unfold same_globals. Qed.

Lemma same_globals_trans vm1 vm2 vm3 :
  same_globals vm1 vm2 → same_globals vm2 vm3 → same_globals vm1 vm3.
Proof. unfold same_globals. intros (?&?&?) (?&?&?). repeat split; congruence. Qed.

Lemma sweep_loop_spec (l : list Z) : ∀ fuel previous vm,
  chain (heap vm) (link previous vm) l → NoDup l → previous ∉ l →
  (previous ≠ 0 → is_Some (blocks (heap vm) !! previous)) →
  (∀ a, a ∈ l → kept (heap vm) a = false → sweepable (heap vm) a) →
  (length l < fuel)%nat →
  ∃ vm', dst_sweep_loop fuel previous (link previous vm) vm = Done vm'
         ∧ sweep_post previous l vm vm'.
Proof.
  induction l as [|a l IH]; intros fuel previous vm Hc Hnd Hp Hprev Hsw Hfuel;
    (destruct fuel as [|fuel]; [simpl in Hfuel; lia|]).
  - simpl in Hc. rewrite Hc. exists vm. split; [done|].
    unfold sweep_post. rewrite filter_nil. cbn [chain sweep_events].
    rewrite app_nil_r. repeat split; try done.
    + intros a b Hin. by apply elem_of_nil in Hin.
    + eauto.
  - cbn [chain] in Hc. destruct Hc as (Hlink & Hnz & b & Hb & Hc).
    apply NoDup_cons in Hnd as [Hal Hnd].
    apply not_elem_of_cons in Hp as [Hpa Hp].
    rewrite Hlink. cbn [dst_sweep_loop].
    rewrite (proj2 (Z.eqb_neq a 0) Hnz), Hb. cbn [load res_bind].
    fold (keeps (flags b)).
    destruct (keeps (flags b)) eqn:Hk; cbn [negb res_bind fst snd].
    + (* the block stays *)
      set (vm1 := update_flags a (fun fl => Z.land fl (Z.lnot DST_MEM_REACHABLE)) vm).
      assert (Hother : ∀ x, x ≠ a → blocks (heap vm1) !! x = blocks (heap vm) !! x).
      { intros x Hx. unfold vm1. rewrite update_flags_lookup. by rewrite decide_False. }
      assert (Ha1 : blocks (heap vm1) !! a
                    = Some {| next := next b;
                              flags := Z.land (flags b) (Z.lnot DST_MEM_REACHABLE);
                              body := body b |}).
      { unfold vm1. rewrite update_flags_lookup, decide_True, Hb; done. }
      assert (Hon : ∀ x, x ∈ l → blocks (heap vm1) !! x = blocks (heap vm) !! x).
      { intros x Hx. apply Hother. intros ->. done. }
      assert (Hl1 : link a vm1 = next b).
      { unfold link. rewrite (proj2 (Z.eqb_neq a 0) Hnz), Ha1. done. }
      destruct (IH fuel a vm1) as (vm' & Hrun & Hpost);
        [ | exact Hnd | exact Hal | | | simpl in Hfuel; lia | ].
      { rewrite Hl1. by apply (chain_ext (heap vm)). }
      { intros _. by rewrite Ha1. }
      { intros x Hx Hkx. rewrite (kept_ext (heap vm)) in Hkx by auto.
        apply (sweepable_ext (heap vm)); [by apply Hon| |apply Hsw; [by right|done]].
        intros p Hnone. destruct (decide (p = a)) as [->|]; [congruence|].
        by rewrite Hother. }
      rewrite Hl1 in Hrun. exists vm'. split; [done|].
      destruct Hpost as (P1 & P2 & P3 & P4 & P5 & P6 & P7).
      destruct (P4 _ Ha1) as (b' & Hb' & Hfl & Hbody). cbn in Hfl, Hbody.
      assert (Hlp : link previous vm' = a).
      { rewrite <- Hlink. apply link_lookup.
        - rewrite P5 by done. done.
        - rewrite P3, Hother; done. }
      refine (conj _ (conj _ (conj _ (conj _ (conj _ (conj _ _)))))).
      * rewrite filter_cons_True by (unfold kept; by rewrite Hb).
        cbn [chain]. rewrite Hlp.
        split; [done|]. split; [done|]. exists b'. split; [done|].
        rewrite (filter_kept_ext (heap vm)) in P1 by done.
        unfold link in P1. rewrite (proj2 (Z.eqb_neq a 0) Hnz), Hb' in P1. done.
      * intros x bx [->|Hx]%elem_of_cons Hbx.
        -- assert (bx = b) as -> by congruence. rewrite Hk. by exists b'.
        -- apply (P2 x bx); [done|]. by rewrite Hon.
      * intros x [Hxa Hx]%not_elem_of_cons Hxp. rewrite P3, Hother; done.
      * intros bp Hbp. exists bp. rewrite P3, Hother; done.
      * intros Hpz. rewrite P5; done.
      * rewrite P6. cbn [sweep_events]. rewrite Hb, Hk.
        rewrite (sweep_events_ext (heap vm)) by done.
        unfold vm1. cbn. by rewrite <- app_assoc.
      * eapply same_globals_trans; [|done]. by unfold same_globals.
    + (* the block is finalized, unlinked and freed *)
      assert (Hka : kept (heap vm) a = false) by (unfold kept; by rewrite Hb).
      destruct (Hsw a ltac:(left) Hka b Hb) as [Htag Hown].
      destruct (deinit_spec a b vm Hb Htag Hown) as (vmd & Hd & Td & Bd & Hhd & Gd).
      rewrite Hd. cbn [res_bind fst snd].
      fold (after_free previous a (next b) vmd).
      set (vm4 := after_free previous a (next b) vmd).
      assert (Ha4 : blocks (heap vm4) !! a = None).
      { unfold vm4, after_free. rewrite update_flags_lookup, decide_True by done.
        rewrite free_lookup, decide_True by done. done. }
      assert (Hother : ∀ x, x ≠ a → x ≠ previous →
                            blocks (heap vm4) !! x = blocks (heap vm) !! x).
      { intros x Hxa Hxp. unfold vm4, after_free.
        rewrite update_flags_lookup, decide_False by done.
        rewrite free_lookup, decide_False by done.
        destruct (negb (previous =? 0)); [|by rewrite <- Bd].
        rewrite store_next_lookup, decide_False by done. by rewrite Bd. }
      assert (Hon : ∀ x, x ∈ l → blocks (heap vm4) !! x = blocks (heap vm) !! x).
      { intros x Hx. apply Hother; intros ->; done. }
      assert (Hp4 : previous ≠ 0 → ∀ bp, blocks (heap vm) !! previous = Some bp →
                    blocks (heap vm4) !! previous
                    = Some {| next := next b; flags := flags bp; body := body bp |}).
      { intros Hpz bp Hbp. unfold vm4, after_free.
        rewrite update_flags_lookup, decide_False by done.
        rewrite free_lookup, decide_False by done.
        rewrite (proj2 (Z.eqb_neq previous 0) Hpz). cbn [negb].
        rewrite store_next_lookup, decide_True, Bd, Hbp; done. }
      assert (Hh4 : dst_vm_blocks vm4
                    = if previous =? 0 then next b else dst_vm_blocks vm).
      { unfold vm4, after_free. destruct (previous =? 0); cbn; congruence. }
      assert (Hl4 : link previous vm4 = next b).
      { unfold link. rewrite Hh4. destruct (previous =? 0) eqn:Epz; [done|].
        apply Z.eqb_neq in Epz. destruct (Hprev Epz) as [bp Hbp].
        by rewrite (Hp4 Epz bp Hbp). }
      assert (Hnone : ∀ p, blocks (heap vm) !! p = None → blocks (heap vm4) !! p = None).
      { intros p Hpn. destruct (decide (p = a)) as [->|Hpa']; [done|].
        destruct (decide (p = previous)) as [->|Hpp]; [|by rewrite Hother].
        unfold vm4, after_free.
        rewrite update_flags_lookup, decide_False by done.
        rewrite free_lookup, decide_False by done.
        destruct (negb (previous =? 0)); [|by rewrite <- Bd in Hpn].
        rewrite store_next_lookup, decide_True, Bd, Hpn; done. }
      destruct (IH fuel previous vm4) as (vm' & Hrun & Hpost);
        [ | exact Hnd | exact Hp | | | simpl in Hfuel; lia | ].
      { rewrite Hl4. by apply (chain_ext (heap vm)). }
      { intros Hpz. destruct (Hprev Hpz) as [bp Hbp]. by rewrite (Hp4 Hpz bp Hbp). }
      { intros x Hx Hkx. rewrite (kept_ext (heap vm)) in Hkx by auto.
        apply (sweepable_ext (heap vm));
          [by apply Hon|done|apply Hsw; [by right|done]]. }
      rewrite Hl4 in Hrun. exists vm'. split; [done|].
      destruct Hpost as (P1 & P2 & P3 & P4 & P5 & P6 & P7).
      refine (conj _ (conj _ (conj _ (conj _ (conj _ (conj _ _)))))).
      * rewrite filter_cons_False by (unfold kept; by rewrite Hb, Hk).
        by rewrite (filter_kept_ext (heap vm)) in P1.
      * intros x bx [->|Hx]%elem_of_cons Hbx.
        -- assert (bx = b) as -> by congruence. rewrite Hk.
           rewrite P3; done.
        -- apply (P2 x bx); [done|]. by rewrite Hon.
      * intros x [Hxa Hx]%not_elem_of_cons Hxp. rewrite P3, Hother; done.
      * intros bp Hbp. destruct (decide (previous = 0)) as [Hpz|Hpz].
        -- assert (Hbp4 : blocks (heap vm4) !! previous = Some bp).
           { unfold vm4, after_free.
             rewrite update_flags_lookup, decide_False by done.
             rewrite free_lookup, decide_False by done.
             rewrite (proj2 (Z.eqb_eq previous 0) Hpz). cbn. by rewrite Bd. }
           apply (P4 _ Hbp4).
        -- destruct (P4 _ (Hp4 Hpz bp Hbp)) as (b' & Hb' & Hfl & Hbody). by exists b'.
      * intros Hpz. rewrite P5, Hh4 by done.
        by rewrite (proj2 (Z.eqb_neq previous 0) Hpz).
      * rewrite P6. cbn [sweep_events]. rewrite Hb, Hk.
        rewrite (sweep_events_ext (heap vm)) by done.
        unfold vm4, after_free. destruct (previous =? 0); cbn; rewrite Td;
          rewrite <- !app_assoc; cbn; rewrite <- ?app_assoc; done.
      * eapply same_globals_trans; [|done].
        eapply same_globals_trans; [done|].
        unfold vm4, after_free. by destruct (previous =? 0).
Qed.

(** ** The list is a list *)

Lemma chain_functional h p (l1 l2 : list Z) : chain h p l1 → chain h p l2 → l1 = l2.
Proof.
  revert p l2. induction l1 as [|a l1 IH]; intros p [|a2 l2]; simpl.
  - done.
  - intros -> (-> & Hnz & _). done.
  - intros (-> & Hnz & _) ->. done.
  - intros (-> & _ & b & Hb & Hc) (-> & _ & b2 & Hb2 & Hc2).
    assert (b2 = b) as -> by congruence. f_equal. eauto.
Qed.

Lemma chain_suffix h p (l1 l2 : list Z) a :
  chain h p (l1 ++ a :: l2) → chain h a (a :: l2).
Proof.
  revert p. induction l1 as [|x l1 IH]; intros p Hc; simpl in Hc.
  - destruct Hc as (-> & H). by split.
  - destruct Hc as (-> & _ & b & _ & Hc). by apply (IH (next b)).
Qed.

Lemma chain_NoDup h p (l : list Z) : chain h p l → NoDup l.
Proof.
  revert p. induction l as [|a l IH]; intros p; [constructor|].
  intros Hc. pose proof Hc as (-> & Hnz & b & Hb & Hc'). apply NoDup_cons.
  split; [|eauto]. intros (l1 & l2 & ->)%list_elem_of_split.
  pose proof (chain_suffix _ _ _ _ _ Hc') as (_ & _ & b2 & Hb2 & Hc2).
  assert (b2 = b) as -> by congruence.
  pose proof (chain_functional _ _ _ _ Hc' Hc2) as E.
  apply (f_equal length) in E. rewrite length_app in E. simpl in E. lia.
Qed.

Lemma chain_nonzero h p (l : list Z) : chain h p l → 0 ∉ l.
Proof.
  revert p. induction l as [|a l IH]; intros p; simpl.
  - intros _. apply not_elem_of_nil.
  - intros (-> & Hnz & b & Hb & Hc). apply not_elem_of_cons. eauto.
Qed.

Lemma chain_lookup h p (l : list Z) a :
  chain h p l → a ∈ l → is_Some (blocks h !! a).
Proof.
  revert p. induction l as [|x l IH]; intros p; simpl.
  - intros _ Hin. by apply elem_of_nil in Hin.
  - intros (-> & Hnz & b & Hb & Hc) [->|Hin]%elem_of_cons; eauto.
Qed.

Lemma walk_chain n h p l : walk n h p = Some l → chain h p l.
Proof.
  revert p l. induction n as [|n IH]; intros p l; simpl; [done|].
  destruct (p =? 0) eqn:Ep.
  - intros [= <-]. simpl. by apply Z.eqb_eq.
  - destruct (blocks h !! p) as [b|] eqn:Hb; simpl; [|done].
    destruct (walk n h (next b)) as [l'|] eqn:Hw; simpl; [|done].
    intros [= <-]. simpl. apply Z.eqb_neq in Ep. eauto 6.
Qed.

Lemma heap_le_chain h h' p (l : list Z) : heap_le h h' → chain h p l → chain h' p l.
Proof.
  intros Hle. revert p. induction l as [|a l IH]; intros p; simpl; [done|].
  intros (-> & Hnz & b & Hb & Hc).
  destruct (heap_le_lookup _ _ _ _ Hle Hb) as (b' & Hb' & (Hn & _ & _)).
  split; [done|]. split; [done|]. exists b'. rewrite Hn. eauto.
Qed.

Lemma heap_le_well_tagged b b' : block_le b b' → well_tagged b → well_tagged b'.
Proof.
  intros (_ & Hbody & Hf) (t & Hin & Ht). exists t. rewrite Hbody.
  split; [done|]. destruct Hf as [->| ->]; [done|]. by rewrite typebits_lor.
Qed.

Lemma heap_le_sweepable h h' a : heap_le h h' → sweepable h a → sweepable h' a.
Proof.
  intros Hle Hs b' Hb'.
  destruct (heap_le_lookup_inv _ _ _ _ Hle Hb') as (b & Hb & Hbb).
  destruct (Hs b Hb) as [Ht Ho]. split; [by eapply heap_le_well_tagged|].
  intros p Hp. rewrite (proj1 (proj2 Hbb)) in Hp. specialize (Ho p Hp).
  destruct (blocks h' !! p) as [bp|] eqn:Ebp; [|done].
  destruct (heap_le_lookup_inv _ _ _ _ Hle Ebp) as (? & ? & _). congruence.
Qed.

(** ** The sweep and the collection as a whole *)

Lemma dst_sweep_loop_S fuel previous current vm vm' :
  dst_sweep_loop fuel previous current vm = Done vm' →
  dst_sweep_loop (S fuel) previous current vm = Done vm'.
Proof.
  revert previous current vm. induction fuel as [|fuel IH];
    intros previous current vm; [done|].
  intros H. cbn [dst_sweep_loop] in H |- *.
  destruct (current =? 0); [done|].
  bind_inv H. rewrite E. cbn [load res_bind]. bind_inv H. rewrite E0.
  cbn [res_bind]. by apply IH.
Qed.

Lemma dst_sweep_loop_mono fuel fuel' previous current vm vm' :
  (fuel ≤ fuel')%nat →
  dst_sweep_loop fuel previous current vm = Done vm' →
  dst_sweep_loop fuel' previous current vm = Done vm'.
Proof. induction 1; auto using dst_sweep_loop_S. Qed.

Lemma sweep_spec vm (l : list Z) fuel :
  chain (heap vm) (dst_vm_blocks vm) l →
  (∀ a, a ∈ l → kept (heap vm) a = false → sweepable (heap vm) a) →
  (length l < fuel)%nat →
  ∃ vm', dst_sweep fuel vm = Done vm' ∧ sweep_post 0 l vm vm'.
Proof.
  intros Hc Hs Hfuel. unfold dst_sweep.
  apply (sweep_loop_spec l fuel 0 vm); try done.
  - by eapply chain_NoDup.
  - by eapply chain_nonzero.
Qed.

Lemma dst_mark_fiber_mono fuel fuel' p h h' :
  (fuel ≤ fuel')%nat → dst_mark_fiber fuel p h = Done h' →
  dst_mark_fiber fuel' p h = Done h'.
Proof. apply (mark_ref_mono fuel fuel' (RFiber p)). Qed.

Lemma dst_collect_mono fuel fuel' vm vm' :
  (fuel ≤ fuel')%nat → dst_collect fuel vm = Done vm' → dst_collect fuel' vm = Done vm'.
Proof.
  intros Hle H. unfold dst_collect in *. bind_inv H. bind_inv H.
  injection H as <-.
  assert ((if negb (dst_vm_fiber vm =? 0)
           then h <- dst_mark_fiber fuel' (dst_vm_fiber vm) (heap vm) ;;
                Done (with_heap h vm)
           else Done vm) = Done x) as ->.
  { destruct (negb (dst_vm_fiber vm =? 0)); [|done]. bind_inv E.
    by rewrite (dst_mark_fiber_mono fuel fuel' _ _ _ Hle E1). }
  cbn [res_bind]. unfold dst_sweep in *.
  by rewrite (dst_sweep_loop_mono fuel fuel' _ _ _ _ Hle E0).
Qed.

Lemma dst_collect_det fuel fuel' vm vm1 vm2 :
  dst_collect fuel vm = Done vm1 → dst_collect fuel' vm = Done vm2 → vm1 = vm2.
Proof.
  intros H1 H2.
  apply (dst_collect_mono _ (fuel `max` fuel')) in H1; [|lia].
  apply (dst_collect_mono _ (fuel `max` fuel')) in H2; [|lia].
  congruence.
Qed.

(** A collection from a well-formed state runs to its end: the mark
    phase leaves [h1], the sweep over [l] leaves [vm1]. *)
Lemma collect_spec vm (l : list Z) :
  heap_ok vm l →
  ∃ fuel h1 vm1,
    dst_collect fuel vm = Done (set_next_collection 0 vm1)
    ∧ heap_le (heap vm) h1
    ∧ (dst_vm_fiber vm ≠ 0 → mark_post (RFiber (dst_vm_fiber vm)) (heap vm) h1)
    ∧ sweep_post 0 l (with_heap h1 vm) vm1.
Proof.
  intros (Hc & Hg & Hs).
  assert (∃ fm h1, (if negb (dst_vm_fiber vm =? 0)
                    then h <- dst_mark_fiber fm (dst_vm_fiber vm) (heap vm) ;;
                         Done (with_heap h vm)
                    else Done vm) = Done (with_heap h1 vm)
                   ∧ heap_le (heap vm) h1
                   ∧ (dst_vm_fiber vm ≠ 0 →
                      mark_post (RFiber (dst_vm_fiber vm)) (heap vm) h1))
    as (fm & h1 & Hm & Hle & Hpost).
  { destruct (dst_vm_fiber vm =? 0) eqn:Ef.
    - exists O, (heap vm). apply Z.eqb_eq in Ef. split; [by destruct vm|].
      split; [apply heap_le_refl|done].
    - apply Z.eqb_neq in Ef.
      destruct (mark_total (S (size (unmarked_set (heap vm)))) (heap vm)
                  (RFiber (dst_vm_fiber vm))) as (fm & h1 & Hm & Hp);
        [lia|by apply Hg|].
      exists fm, h1. cbn [negb mark_ref] in *. rewrite Hm. split; [done|].
      split; [apply Hp|done]. }
  destruct (sweep_spec (with_heap h1 vm) l (S (length l))) as (vm1 & Hsw & Hsp).
  { by apply (heap_le_chain (heap vm)). }
  { intros a Ha _. apply (heap_le_sweepable (heap vm)); auto. }
  { lia. }
  exists (fm `max` S (length l))%nat, h1, vm1. split; [|done].
  apply (dst_collect_mono (fm `max` S (length l))); [lia|].
  unfold dst_collect.
  assert ((if negb (dst_vm_fiber vm =? 0)
           then h <- dst_mark_fiber (fm `max` S (length l)) (dst_vm_fiber vm) (heap vm) ;;
                Done (with_heap h vm)
           else Done vm) = Done (with_heap h1 vm)) as ->.
  { destruct (negb (dst_vm_fiber vm =? 0)); [|done]. bind_inv Hm.
    injection Hm as <-.
    by rewrite (dst_mark_fiber_mono fm (fm `max` S (length l)) _ _ _
                  ltac:(apply Nat.le_max_l) E). }
  cbn [res_bind]. unfold dst_sweep in *.
  by rewrite (dst_sweep_loop_mono (S (length l)) (fm `max` S (length l)) _ _ _ _
                ltac:(apply Nat.le_max_r) Hsw).
Qed.

(** * The properties of the specification *)

Lemma sweep_post_survivors l vm vm1 l' :
  sweep_post 0 l vm vm1 → chain (heap vm1) (dst_vm_blocks vm1) l' →
  l' = filter (fun a => kept (heap vm) a = true) l.
Proof.
  intros (P1 & _) Hc. unfold link in P1. simpl in P1.
  eapply chain_functional; eauto.
Qed.

(** C9: after a collection has returned, every block that remains on
    the global list has its reachable bit clear (and from a well-formed
    state the collection does return). *)
Theorem collect_clears_reachable vm (l : list Z) :
  heap_ok vm l →
  (∃ fuel vm', dst_collect fuel vm = Done vm')
  ∧ ∀ fuel vm' l' a,
      dst_collect fuel vm = Done vm' →
      chain (heap vm') (dst_vm_blocks vm') l' → a ∈ l' →
      ∃ b, blocks (heap vm') !! a = Some b ∧ reachable_bit (flags b) = false.
Proof.
  intros Hok. destruct (collect_spec vm l Hok) as (f0 & h1 & vm1 & Hrun & Hle & _ & Hsp).
  split; [eauto|]. intros fuel vm' l' a Hrun' Hc Ha.
  assert (vm' = set_next_collection 0 vm1) as -> by eauto using dst_collect_det.
  cbn [heap dst_vm_blocks set_next_collection] in *.
  rewrite (sweep_post_survivors _ _ _ _ Hsp Hc) in Ha.
  apply list_elem_of_filter in Ha as [Hk Hin].
  destruct Hsp as (_ & P2 & _).
  unfold kept in Hk. destruct (blocks (heap (with_heap h1 vm)) !! a) as [b|] eqn:Hb;
    [|done].
  specialize (P2 a b Hin Hb). rewrite Hk in P2. destruct P2 as (b' & Hb' & Hfl & _).
  exists b'. split; [done|]. rewrite Hfl. apply reachable_bit_clear.
Qed.

(** C1 (amended): from a well-formed state with all reachable bits
    clear, a collection returns, and every block of the list that was
    reachable from the active fiber, and every pinned block itself, is
    still allocated and on the list afterwards.  (What only a pinned
    block refers to is not protected.) *)
Theorem collect_keeps_reachable vm (l : list Z) :
  heap_ok vm l → all_clear (heap vm) →
  (∃ fuel vm', dst_collect fuel vm = Done vm')
  ∧ ∀ fuel vm', dst_collect fuel vm = Done vm' →
      ∃ l', chain (heap vm') (dst_vm_blocks vm') l'
            ∧ ∀ a, a ∈ l →
                (dst_vm_fiber vm ≠ 0
                 ∧ reachable_from (heap vm) (RFiber (dst_vm_fiber vm)) a)
                ∨ pinned (heap vm) a →
                a ∈ l' ∧ is_Some (blocks (heap vm') !! a).
Proof.
  intros Hok Hclear.
  destruct (collect_spec vm l Hok) as (f0 & h1 & vm1 & Hrun & Hle & Hmark & Hsp).
  split; [eauto|]. intros fuel vm' Hrun'.
  assert (vm' = set_next_collection 0 vm1) as -> by eauto using dst_collect_det.
  cbn [heap dst_vm_blocks set_next_collection].
  pose proof Hsp as (P1 & P2 & _). unfold link in P1. simpl in P1.
  eexists. split; [exact P1|]. intros a Hin Hwhy.
  assert (Hk : ∃ b1, blocks h1 !! a = Some b1 ∧ keeps (flags b1) = true).
  { destruct Hwhy as [[Hf Hreach]|(b & Hb & Hpin)].
    - destruct (Hmark Hf) as (_ & Hroot & Hcl).
      destruct (closed_reachable (heap vm) h1 (RFiber (dst_vm_fiber vm)) a)
        as (b1 & Hb1 & Hm1); try done.
      + intros x (bx & Hbx & Hmx). rewrite (Hclear x bx Hbx) in Hmx. done.
      + by apply Hok.
      + exists b1. split; [done|]. by rewrite keeps_spec, Hm1.
    - destruct (heap_le_lookup _ _ _ _ Hle Hb) as (b1 & Hb1 & (_ & _ & Hf)).
      exists b1. split; [done|]. rewrite keeps_spec.
      destruct Hf as [->| ->]; rewrite ?disabled_bit_lor, Hpin;
        by destruct (reachable_bit _). }
  destruct Hk as (b1 & Hb1 & Hk). split.
  - apply list_elem_of_filter. split; [|done]. unfold kept. simpl. by rewrite Hb1.
  - specialize (P2 a b1 Hin Hb1). rewrite Hk in P2.
    destruct P2 as (b' & Hb' & _). eauto.
Qed.

(** ** The events of a sweep *)

Lemma deinit_events_elem a b e :
  e ∈ deinit_events a b →
  (∀ x, e ≠ EvDeinit x) ∧ (∀ x f, e ≠ EvStore x f)
  ∧ (∀ p, e = EvFree p → p ∈ owned (body b)).
Proof.
  unfold deinit_events. intros He.
  assert (Hfree : e ∈ map EvFree (owned (body b)) →
          (∀ x, e ≠ EvDeinit x) ∧ (∀ x f, e ≠ EvStore x f)
          ∧ (∀ p, e = EvFree p → p ∈ owned (body b))).
  { intros (p & <- & Hp%list_elem_of_In)%list_elem_of_In%in_map_iff.
    repeat split; try done. by intros p' [= <-]. }
  destruct (body b) eqn:Eb; try (by apply Hfree);
    repeat match type of He with context [if ?c then _ else _] => destruct c end;
    repeat (apply elem_of_cons in He as [->|He]); try (by apply elem_of_nil in He);
    done.
Qed.

Lemma sweep_events_elem h previous (l : list Z) e :
  e ∈ sweep_events h previous l →
  (∃ x f, e = EvStore x f)
  ∨ ∃ x bx, x ∈ l ∧ blocks h !! x = Some bx ∧ keeps (flags bx) = false
            ∧ (e = EvDeinit x ∨ e = EvFree x ∨ e ∈ deinit_events x bx).
Proof.
  revert previous. induction l as [|a l IH]; intros previous; simpl.
  - intros He. by apply elem_of_nil in He.
  - destruct (blocks h !! a) as [b|] eqn:Hb; [|intros He; by apply elem_of_nil in He].
    assert (Hrest : ∀ p, e ∈ sweep_events h p l →
      (∃ x f, e = EvStore x f)
      ∨ ∃ x bx, x ∈ a :: l ∧ blocks h !! x = Some bx ∧ keeps (flags bx) = false
                ∧ (e = EvDeinit x ∨ e = EvFree x ∨ e ∈ deinit_events x bx)).
    { intros p [?|(x & bx & Hx & ?)]%IH; [by left|right].
      exists x, bx. split; [by right|done]. }
    destruct (keeps (flags b)) eqn:Hk.
    + intros [->|He]%elem_of_cons; [left; eauto|eauto].
    + intros [->|He]%elem_of_cons.
      { right. exists a, b. split; [left|]. eauto. }
      apply elem_of_app in He as [He|He].
      { right. exists a, b. split; [left|]. eauto. }
      apply elem_of_app in He as [He|He].
      { left. destruct (previous =? 0); [by apply elem_of_nil in He|].
        apply list_elem_of_singleton in He. eauto. }
      apply elem_of_cons in He as [->|He].
      { right. exists a, b. split; [left|]. eauto. }
      apply elem_of_cons in He as [->|He]; [left; eauto|eauto].
Qed.

(** The events of the blocks before [a], then those of [a], which is
    finalized and freed and then written to, then the rest. *)
Lemma sweep_events_split h previous (l1 l2 : list Z) a b :
  (∀ x, x ∈ l1 → is_Some (blocks h !! x)) →
  blocks h !! a = Some b → keeps (flags b) = false →
  ∃ p t3, sweep_events h previous (l1 ++ a :: l2)
          = sweep_events h previous l1
            ++ EvDeinit a :: deinit_events a b
            ++ (if p =? 0 then [] else [EvStore p FNext])
            ++ EvFree a :: EvStore a FFlags :: t3
            ∧ t3 = sweep_events h p l2.
Proof.
  revert previous. induction l1 as [|x l1 IH]; intros previous Hl1 Hb Hk.
  - exists previous, (sweep_events h previous l2). simpl. by rewrite Hb, Hk.
  - destruct (Hl1 x) as [bx Hbx]; [left|].
    destruct (IH (if keeps (flags bx) then x else previous)) as (p & t3 & E & Et);
      try done.
    { intros y Hy. apply Hl1. by right. }
    exists p, t3. split; [|done]. simpl. rewrite Hbx.
    destruct (keeps (flags bx)); rewrite E; [done|].
    cbn [app]. rewrite <- !app_assoc. by cbn [app].
Qed.

Lemma sweep_events_no_deinit h previous (l : list Z) a :
  a ∉ l → EvDeinit a ∉ sweep_events h previous l.
Proof.
  intros Ha [(x & f & E)|(x & bx & Hx & Hbx & _ & [E|[E|E]])]%sweep_events_elem;
    try done.
  - by injection E as ->.
  - by destruct (deinit_events_elem _ _ _ E) as (H & _); destruct (H a).
Qed.

Lemma sweep_events_no_free h previous (l : list Z) a :
  a ∉ l → is_Some (blocks h !! a) →
  (∀ x, x ∈ l → kept h x = false → sweepable h x) →
  EvFree a ∉ sweep_events h previous l.
Proof.
  intros Ha [b Hb] Hs
    [(x & f & E)|(x & bx & Hx & Hbx & Hk & [E|[E|E]])]%sweep_events_elem;
    try done.
  - by injection E as ->.
  - destruct (deinit_events_elem _ _ _ E) as (_ & _ & H).
    destruct (Hs x Hx) with (b := bx) as [_ Ho]; [unfold kept; by rewrite Hbx|done|].
    rewrite (Ho a) in Hb; [done|]. by apply H.
Qed.

Lemma deinit_events_no_free a b p :
  p ∉ owned (body b) → EvFree p ∉ deinit_events a b.
Proof. intros Hp He. apply Hp. by apply (deinit_events_elem _ _ _ He). Qed.

Lemma sweep_events_free h previous (l : list Z) a :
  EvFree a ∈ sweep_events h previous l → is_Some (blocks h !! a) →
  (∀ x, x ∈ l → kept h x = false → sweepable h x) →
  a ∈ l ∧ kept h a = false.
Proof.
  intros [(x & f & E)|(x & bx & Hx & Hbx & Hk & [E|[E|E]])]%sweep_events_elem
    [b Hb] Hs; try done.
  - injection E as ->. split; [done|]. unfold kept. by rewrite Hbx.
  - destruct (deinit_events_elem _ _ _ E) as (_ & _ & H).
    destruct (Hs x Hx) with (b := bx) as [_ Ho]; [unfold kept; by rewrite Hbx|done|].
    rewrite (Ho a) in Hb; [done|]. by apply H.
Qed.

Lemma dst_sweep_det fuel fuel' vm vm1 vm2 :
  dst_sweep fuel vm = Done vm1 → dst_sweep fuel' vm = Done vm2 → vm1 = vm2.
Proof.
  unfold dst_sweep. intros H1 H2.
  apply (dst_sweep_loop_mono _ (fuel `max` fuel')) in H1; [|lia].
  apply (dst_sweep_loop_mono _ (fuel `max` fuel')) in H2; [|lia].
  congruence.
Qed.

(** C3: a sweep returns and leaves a list again, the old one without the
    blocks it unlinked; a block of the old list is unlinked and freed
    exactly when its reachable bit and its disabled bit are both clear,
    and a freed block was finalized exactly once, before it was freed. *)
Theorem sweep_frees_unmarked_unpinned vm (l : list Z) :
  chain (heap vm) (dst_vm_blocks vm) l →
  (∀ a, a ∈ l → sweepable (heap vm) a) →
  (∃ fuel vm', dst_sweep fuel vm = Done vm')
  ∧ ∀ fuel vm' evs,
      dst_sweep fuel vm = Done vm' → new_events vm vm' evs →
      ∃ l', chain (heap vm') (dst_vm_blocks vm') l'
            ∧ (∀ l'', chain (heap vm') (dst_vm_blocks vm') l'' → l'' = l')
            ∧ l' = filter (fun a => kept (heap vm) a = true) l
            ∧ ∀ a b, a ∈ l → blocks (heap vm) !! a = Some b →
                let clear :=
                  reachable_bit (flags b) = false ∧ disabled_bit (flags b) = false in
                (a ∉ l' ↔ clear)
                ∧ (blocks (heap vm') !! a = None ↔ clear)
                ∧ (EvFree a ∈ evs ↔ clear)
                ∧ (clear →
                   ∃ t1 t2 t3, evs = t1 ++ EvDeinit a :: t2 ++ EvFree a :: t3
                               ∧ (EvDeinit a ∉ t1 ++ t2 ++ t3)
                               ∧ (EvFree a ∉ t1 ++ t2)).
Proof.
  intros Hc Hs.
  destruct (sweep_spec vm l (S (length l))) as (vm1 & Hrun & Hsp); [done|auto|lia|].
  split; [eauto|]. intros fuel vm' evs Hrun' Hev.
  assert (vm' = vm1) as -> by eauto using dst_sweep_det.
  assert (Hc' : chain (heap vm1) (dst_vm_blocks vm1)
                  (filter (fun a => kept (heap vm) a = true) l)).
  { destruct Hsp as (P1 & _). unfold link in P1. by simpl in P1. }
  exists (filter (fun a => kept (heap vm) a = true) l).
  split; [exact Hc'|].
  split; [intros l'' Hc''; by apply (chain_functional _ _ _ _ Hc'' Hc')|].
  split; [done|]. intros a b Hin Hb clear.
  destruct Hsp as (_ & P2 & _ & _ & _ & P6 & _).
  assert (evs = sweep_events (heap vm) 0 l) as ->.
  { unfold new_events in Hev. rewrite P6 in Hev. by apply app_inv_head in Hev. }
  specialize (P2 a b Hin Hb).
  assert (Hclear : clear ↔ keeps (flags b) = false).
  { unfold clear. rewrite keeps_spec.
    destruct (reachable_bit (flags b)), (disabled_bit (flags b)); simpl;
      intuition congruence. }
  assert (Hsplit : keeps (flags b) = false →
    ∃ t1 t2 t3, sweep_events (heap vm) 0 l = t1 ++ EvDeinit a :: t2 ++ EvFree a :: t3
                ∧ (EvDeinit a ∉ t1 ++ t2 ++ t3) ∧ (EvFree a ∉ t1 ++ t2)).
  { intros Hk. pose proof (chain_NoDup _ _ _ Hc) as Hnd.
    destruct (list_elem_of_split _ _ Hin) as (l1 & l2 & ->).
    apply NoDup_app in Hnd as (_ & Hl1 & [Hl2 _]%NoDup_cons).
    destruct (sweep_events_split (heap vm) 0 l1 l2 a b) as (p & t3 & E & ->);
      try done.
    { intros x Hx. apply (chain_lookup _ _ _ _ Hc). apply elem_of_app. by left. }
    assert (Hs1 : ∀ x, x ∈ l1 → kept (heap vm) x = false → sweepable (heap vm) x).
    { intros x Hx _. apply Hs. apply elem_of_app. by left. }
    assert (Hs2 : ∀ x, x ∈ l2 → kept (heap vm) x = false → sweepable (heap vm) x).
    { intros x Hx _. apply Hs. apply elem_of_app. right. by right. }
    assert (Ha1 : a ∉ l1).
    { intros Ha1. apply (Hl1 a Ha1). left. }
    exists (sweep_events (heap vm) 0 l1),
      (deinit_events a b ++ (if p =? 0 then [] else [EvStore p FNext])),
      (EvStore a FFlags :: sweep_events (heap vm) p l2).
    split; [by rewrite E, <- !app_assoc|].
    assert (Hd : EvFree a ∉ deinit_events a b).
    { apply deinit_events_no_free. intros Hown.
      destruct (Hs a Hin b Hb) as [_ Ho]. rewrite (Ho a Hown) in Hb. done. }
    assert (Hst : ∀ e, e ∈ (if p =? 0 then [] else [EvStore p FNext]) →
                       e = EvStore p FNext).
    { intros e He. destruct (p =? 0); [by apply elem_of_nil in He|].
      by apply list_elem_of_singleton in He. }
    split.
    - rewrite !elem_of_app, elem_of_cons.
      intros [H|[[H|H]|[H|H]]]; try done.
      + by apply (sweep_events_no_deinit _ _ _ _ Ha1) in H.
      + by destruct (deinit_events_elem _ _ _ H) as (Hno & _); destruct (Hno a).
      + by apply Hst in H.
      + by apply (sweep_events_no_deinit _ _ _ _ Hl2) in H.
    - rewrite !elem_of_app. intros [H|[H|H]]; try done.
      + apply sweep_events_free in H as [? _]; eauto.
      + by apply Hst in H. }
  rewrite Hclear. repeat split.
  - intros Hnot. destruct (keeps (flags b)) eqn:Hk; [|done].
    destruct Hnot. apply list_elem_of_filter. split; [|done].
    unfold kept. by rewrite Hb.
  - intros Hk [Hk' _]%list_elem_of_filter. unfold kept in Hk'.
    rewrite Hb in Hk'. congruence.
  - intros Hnone. destruct (keeps (flags b)); [|done].
    destruct P2 as (? & ? & _). congruence.
  - intros Hk. by rewrite Hk in P2.
  - intros Hfree. apply sweep_events_free in Hfree as [_ Hk]; eauto.
    unfold kept in Hk. by rewrite Hb in Hk.
  - intros Hk. destruct (Hsplit Hk) as (t1 & t2 & t3 & -> & _).
    rewrite !elem_of_app, !elem_of_cons, !elem_of_app, !elem_of_cons. tauto.
  - done.
Qed.

Lemma sweep_events_no_free_buffer h previous (l : list Z) p :
  p ∉ l →
  (∀ x bx, x ∈ l → blocks h !! x = Some bx → p ∉ owned (body bx)) →
  EvFree p ∉ sweep_events h previous l.
Proof.
  intros Hp Hown
    [(x & f & E)|(x & bx & Hx & Hbx & Hk & [E|[E|E]])]%sweep_events_elem;
    try done.
  - by injection E as ->.
  - apply (Hown x bx Hx Hbx). by apply (deinit_events_elem _ _ _ E).
Qed.

(** C8: finalizing a FUNCENV frees [as.values] exactly when its offset
    is 0, and nothing when it borrows its slots from a fiber; in a sweep
    that collects such an environment together with its fiber, the
    stack of the fiber (which the fiber alone owns) is freed exactly
    once. *)
Theorem funcenv_frees_values_iff_closed :
  (∀ vm a b e,
     blocks (heap vm) !! a = Some b →
     Z.land (flags b) DST_MEM_TYPEBITS = mem_tag DST_MEMORY_FUNCENV →
     body b = FuncEnvBody e →
     ∃ vm' evs, dst_deinit_block a vm = Done vm'
                ∧ new_events vm vm' (EvDeinit a :: evs)
                ∧ (offset e = 0 → evs = [EvFree (env_as e)])
                ∧ (offset e ≠ 0 → evs = [] ∧ heap vm' = heap vm))
  ∧ (∀ vm (l : list Z) E F bE bF e f,
       chain (heap vm) (dst_vm_blocks vm) l →
       (∀ a, a ∈ l → sweepable (heap vm) a) →
       E ∈ l → blocks (heap vm) !! E = Some bE → body bE = FuncEnvBody e →
       offset e ≠ 0 → env_as e = F + sizeof_DstGCMemoryHeader →
       F ∈ l → blocks (heap vm) !! F = Some bF → body bF = FiberBody f →
       keeps (flags bE) = false → keeps (flags bF) = false →
       (∀ x bx, x ∈ l → x ≠ F → x ≠ E → blocks (heap vm) !! x = Some bx →
                fiber_data f ∉ owned (body bx)) →
       (∃ fuel vm', dst_sweep fuel vm = Done vm')
       ∧ ∀ fuel vm' evs,
           dst_sweep fuel vm = Done vm' → new_events vm vm' evs →
           ∃ t1 t2, evs = t1 ++ EvFree (fiber_data f) :: t2
                    ∧ (EvFree (fiber_data f) ∉ t1) ∧ (EvFree (fiber_data f) ∉ t2)).
Proof.
  split.
  - intros vm a b e Hb Htag Hbody. unfold dst_deinit_block, new_events.
    cbn [heap emit]. rewrite Hb. cbn [load res_bind]. rewrite Htag.
    cbn [mem_tag Z.eqb Pos.eqb]. unfold funcenv_at.
    rewrite (body_at_block _ _ _ Hb), Hbody. cbn [load res_bind].
    destruct (offset e) eqn:Eo; cbn [Z.eqb];
      (eexists; eexists; split; [reflexivity|]; cbn; rewrite <- ?app_assoc;
       split; [reflexivity|]; split; intros; try done).
    all: split; [done|]; by destruct vm as [? ? ? ? [] ?].
  - intros vm l E F bE bF e f Hc Hs HE HbE HeE Hoff Has HF HbF HfF HkE HkF Hown.
    destruct (sweep_spec vm l (S (length l))) as (vm1 & Hrun & Hsp);
      [done|auto|lia|].
    split; [eauto|]. intros fuel vm' evs Hrun' Hev.
    assert (vm' = vm1) as -> by eauto using dst_sweep_det.
    destruct Hsp as (_ & _ & _ & _ & _ & P6 & _).
    assert (evs = sweep_events (heap vm) 0 l) as ->.
    { unfold new_events in Hev. rewrite P6 in Hev. by apply app_inv_head in Hev. }
    destruct (Hs F HF bF HbF) as [_ HoF]. rewrite HfF in HoF.
    assert (Hdata : blocks (heap vm) !! fiber_data f = None).
    { apply HoF. cbn [owned]. left. }
    assert (Hnl : fiber_data f ∉ l).
    { intros Hin. destruct (chain_lookup _ _ _ _ Hc Hin) as [? ?]. congruence. }
    assert (Hothers : ∀ x bx, x ∈ l → x ≠ F → blocks (heap vm) !! x = Some bx →
                              fiber_data f ∉ owned (body bx)).
    { intros x bx Hx HxF Hbx. destruct (decide (x = E)) as [->|HxE]; [|eauto].
      assert (bx = bE) as -> by congruence. rewrite HeE. cbn [owned].
      rewrite (proj2 (Z.eqb_neq _ _) Hoff). apply not_elem_of_nil. }
    pose proof (chain_NoDup _ _ _ Hc) as Hnd.
    destruct (list_elem_of_split _ _ HF) as (l1 & l2 & ->).
    apply NoDup_app in Hnd as (_ & Hl1 & [Hl2 _]%NoDup_cons).
    destruct (sweep_events_split (heap vm) 0 l1 l2 F bF) as (p & t3 & E' & ->);
      try done.
    { intros x Hx. apply (chain_lookup _ _ _ _ Hc). apply elem_of_app. by left. }
    assert (Hde : deinit_events F bF = [EvFree (fiber_data f)]).
    { unfold deinit_events. by rewrite HfF. }
    rewrite Hde in E'.
    exists (sweep_events (heap vm) 0 l1 ++ [EvDeinit F]),
      ((if p =? 0 then [] else [EvStore p FNext])
         ++ EvFree F :: EvStore F FFlags :: sweep_events (heap vm) p l2).
    split; [by rewrite E', <- !app_assoc|].
    assert (HFd : F ≠ fiber_data f) by (intros ->; congruence).
    split.
    + rewrite elem_of_app, list_elem_of_singleton. intros [H|H]; [|done].
      revert H. apply sweep_events_no_free_buffer.
      * intros Hin. apply Hnl. apply elem_of_app. by left.
      * intros x bx Hx. apply Hothers; [apply elem_of_app; by left|].
        intros ->. apply (Hl1 F Hx). left.
    + rewrite elem_of_app, !elem_of_cons. intros [H|[H|[H|H]]]; try done.
      * destruct (p =? 0); [by apply elem_of_nil in H|].
        by apply list_elem_of_singleton in H.
      * injection H as H. by destruct HFd.
      * revert H. apply sweep_events_no_free_buffer.
        -- intros Hin. apply Hnl. apply elem_of_app. right. by right.
        -- intros x bx Hx. apply Hothers; [apply elem_of_app; right; by right|].
           by intros ->.
Qed.

(** C5: when the underlying allocator returns the null pointer,
    [dst_alloc] ends the process with the out-of-memory error in the
    state it was called in: no block is linked and the counter is
    unchanged. *)
Theorem alloc_out_of_memory malloc ty sz vm :
  dst_vm_cache vm ≠ 0 →
  malloc (size_t (sz + sizeof_DstGCMemoryHeader)) = 0 →
  dst_alloc malloc ty sz vm = Exit OUT_OF_MEMORY vm.
Proof.
  intros Hc Hm. unfold dst_alloc.
  by rewrite (proj2 (Z.eqb_neq _ _) Hc), Hm.
Qed.

(** C6 (amended): a successful [dst_alloc] returns the address just
    past the header of the block the allocator gave; the block is the
    new head of the list, its link is the old head, its flags are the
    type tag alone (both bits clear); the counter, a [uint32_t], has
    grown by [size] modulo 2^32, and by [size] when that fits. *)
Theorem alloc_success malloc ty sz vm p vm' :
  dst_alloc malloc ty sz vm = Return p vm' →
  let mem := malloc (size_t (sz + sizeof_DstGCMemoryHeader)) in
  p = mem + sizeof_DstGCMemoryHeader
  ∧ dst_vm_blocks vm' = mem
  ∧ blocks (heap vm') !! mem
    = Some {| next := dst_vm_blocks vm; flags := mem_tag ty; body := Uninit |}
  ∧ reachable_bit (mem_tag ty) = false ∧ disabled_bit (mem_tag ty) = false
  ∧ dst_vm_next_collection vm' = (dst_vm_next_collection vm + sz) mod 2 ^ 32
  ∧ (0 ≤ dst_vm_next_collection vm + sz < 2 ^ 32 →
     dst_vm_next_collection vm' = dst_vm_next_collection vm + sz).
Proof.
  unfold dst_alloc. destruct (dst_vm_cache vm =? 0); [done|].
  destruct (malloc _ =? 0); [done|]. intros [= <- <-]. cbn.
  rewrite lookup_insert_eq. repeat split; try apply mem_tag_flags.
  intros Hfit. unfold uint32. by apply Z.mod_small.
Qed.

(** ** A routine that returns has marked its object *)

Lemma gc_reachable_true m h : dst_gc_reachable m h = Done true → marked h (dst_gc_header m).
Proof.
  unfold dst_gc_reachable. intros H. bind_inv H. injection H as H. by exists x.
Qed.

Lemma gc_mark_marked m h h' : dst_gc_mark m h = Done h' → marked h' (dst_gc_header m).
Proof.
  unfold dst_gc_mark. intros H. bind_inv H. injection H as <-.
  by apply set_flags_marked.
Qed.

Lemma run_marks fuel c h h' a :
  run fuel c h = Done h' → call_header c = Some a → marked h' a.
Proof.
  revert c h h' a. induction fuel as [|fuel IH]; intros c h h' a H Ha;
    [by destruct c|].
  pose proof (run_heap_le fuel) as Hle.
  destruct c; simpl in H, Ha; crunch; try discriminate;
    try injection Ha as <-;
    try (by apply gc_reachable_true);
    try (by eapply gc_mark_marked);
    try match goal with
      | H : dst_gc_mark _ _ = Done ?x |- marked ?h' _ =>
          apply (heap_le_marked x h'); [|by eapply gc_mark_marked]
      end.
  all: try (by eapply (IH (CArray _))); try (by eapply (IH (CTuple _)));
    try (by eapply (IH (CTable _))); try (by eapply (IH (CStruct _)));
    try (by eapply (IH (CFiber _))); try (by eapply (IH (CFunction _))).
  all: try (le_facts Hle; by le_chain).
  - match goal with
    | H : for_loop _ _ _ _ = Done _ |- _ => apply for_loop_le in H; [done|]
    end.
    intros i h1 h2 Hb. crunch; le_facts Hle; le_chain.
  - match goal with
    | H : for_loop _ _ _ _ = Done _ |- _ => apply for_loop_le in H
    end; [le_facts Hle; le_chain|].
    intros i h1 h2 Hb. crunch; le_facts Hle; le_chain.
Qed.

Lemma mark_ref_marks fuel r h h' a :
  mark_ref fuel r h = Done h' → ref_header r = Some a → marked h' a.
Proof.
  destruct r; simpl; intros H Ha;
    [ apply (run_marks _ (CMark v) _ _ _ H) | apply (run_marks _ (CFuncEnv p) _ _ _ H)
    | apply (run_marks _ (CFuncDef p) _ _ _ H) | apply (run_marks _ (CFunction p) _ _ _ H)
    | apply (run_marks _ (CFiber p) _ _ _ H) ]; done.
Qed.

Lemma mark_refs_marks fuel (rs : list Ref) h h' r a :
  mark_refs fuel rs h = Done h' → r ∈ rs → ref_header r = Some a → marked h' a.
Proof.
  revert h. induction rs as [|r0 rs IH]; intros h; simpl.
  - intros _ Hin. by apply elem_of_nil in Hin.
  - intros H [->|Hin]%elem_of_cons Ha; bind_inv H.
    + eapply heap_le_marked; [by eapply mark_refs_heap_le|].
      by eapply mark_ref_marks.
    + eauto.
Qed.

(** C7: marking a FUNCDEF that is not yet marked sets its bit; with a
    null [constants] nothing else is read, whatever [constants_length]
    says; otherwise the constants are gone through in order, one under
    the boolean tag being marked as a FUNCDEF through its pointer
    payload and any other as a value, so that afterwards the nested
    funcdefs and the heap values among the constants are marked. *)
Theorem mark_funcdef_constants fuel def h b d :
  blocks h !! dst_gc_header def = Some b →
  reachable_bit (flags b) = false → body b = FuncDefBody d →
  let h1 := set_flags (dst_gc_header def) (Z.lor (flags b) DST_MEM_REACHABLE) h in
  (constants d = 0 → dst_mark_funcdef (S fuel) def h = Done h1)
  ∧ (∀ vs, constants d ≠ 0 →
       values_at h (InBuffer (constants d) 0) (constants_length d) = Some vs →
       dst_mark_funcdef (S fuel) def h
       = foldl (fun acc v =>
                  h <- acc ;;
                  match type v with
                  | DST_BOOLEAN => dst_mark_funcdef fuel (as_ v) h
                  | _ => dst_mark fuel v h
                  end) (Done h1) vs
       ∧ ∀ h' v, dst_mark_funcdef (S fuel) def h = Done h' → v ∈ vs →
           match type v with
           | DST_BOOLEAN => marked h' (dst_gc_header (as_ v))
           | _ => ∀ a, ref_header (RValue v) = Some a → marked h' a
           end).
Proof.
  intros Hb Hu Hbody h1.
  assert (Hstep : dst_mark_funcdef (S fuel) def h
    = if negb (constants d =? 0) then
        for_loop (Z.to_nat (constants_length d)) 0
          (fun i h =>
             v <- load (value_at h (InBuffer (constants d) i)) ;;
             match type v with
             | DST_BOOLEAN => dst_mark_funcdef fuel (as_ v) h
             | _ => dst_mark fuel v h
             end) h1
      else Done h1).
  { simpl. rewrite (guard_reachable h _ b Hb Hu def eq_refl),
      (guard_mark h _ b Hb def eq_refl). cbn [res_bind]. unfold funcdef_at.
    rewrite (body_at_marked h _ b Hb def eq_refl), Hbody. done. }
  split.
  - intros Hnull. rewrite Hstep, Hnull. done.
  - intros vs Hnn Hvs. rewrite Hstep, (proj2 (Z.eqb_neq _ _) Hnn). cbn [negb].
    assert (Hloop : ∀ h2, heap_le h h2 →
      for_loop (Z.to_nat (constants_length d)) 0
        (fun i h => v <- load (value_at h (InBuffer (constants d) i)) ;;
           match type v with
           | DST_BOOLEAN => dst_mark_funcdef fuel (as_ v) h
           | _ => dst_mark fuel v h
           end) h2
      = mark_refs fuel (map const_ref vs) h2).
    { intros h2 Hle.
      rewrite (for_loop_refs fuel (fun h k => value_at h (InBuffer (constants d) k))
                 (fun v h => match type v with
                             | DST_BOOLEAN => dst_mark_funcdef fuel (as_ v) h
                             | _ => dst_mark fuel v h
                             end)
                 (fun v => [const_ref v]) h) with (xs := vs); try done.
      - by rewrite concat_map_singleton.
      - intros h3 k Hle3. by apply heap_le_value_at.
      - intros v h3. rewrite mark_refs_singleton. unfold const_ref.
        by destruct (type v). }
    rewrite Hloop by (by apply heap_le_set_flags).
    split.
    + clear Hvs Hloop.
      assert (Hfold : ∀ acc : Res Heap,
        (h2 <- acc ;; mark_refs fuel (map const_ref vs) h2)
        = foldl (fun acc v =>
                   h <- acc ;;
                   match type v with
                   | DST_BOOLEAN => dst_mark_funcdef fuel (as_ v) h
                   | _ => dst_mark fuel v h
                   end) acc vs).
      { induction vs as [|v vs IH]; intros acc; simpl; [apply res_bind_ret|].
        rewrite <- IH. destruct acc as [h2| |]; simpl; try done.
        unfold const_ref. by destruct (type v). }
      by rewrite <- Hfold.
    + intros h' v Hrun Hin.
      assert (Hr : const_ref v ∈ map const_ref vs).
      { apply list_elem_of_In, in_map. by apply list_elem_of_In. }
      pose proof (fun a => mark_refs_marks _ _ _ _ _ a Hrun Hr) as Hm.
      unfold const_ref in Hm. destruct (type v); auto.
Qed.

(** C10: marking a FUNCTION that is not yet marked reads
    [def->environments_length] first, so it needs [def] to point to a
    FUNCDEF, also when [envs] is null; with a null [envs] no entry of
    [envs] is read, and the FUNCDEF is marked all the same. *)
Theorem mark_function_null_envs fuel func h b f :
  blocks h !! dst_gc_header func = Some b →
  reachable_bit (flags b) = false → body b = FunctionBody f →
  let h1 := set_flags (dst_gc_header func) (Z.lor (flags b) DST_MEM_REACHABLE) h in
  (∀ d, funcdef_at h (def f) = Some d → envs f = 0 →
        dst_mark_function (S fuel) func h = dst_mark_funcdef fuel (def f) h1
        ∧ ∀ h', dst_mark_function (S fuel) func h = Done h' →
                marked h' (dst_gc_header (def f)))
  ∧ (funcdef_at h (def f) = None → dst_mark_function (S fuel) func h = Crash).
Proof.
  intros Hb Hu Hbody h1.
  assert (Hle : heap_le h h1) by by apply heap_le_set_flags.
  assert (Hstep : dst_mark_function (S fuel) func h
    = (d <- load (funcdef_at h (def f)) ;;
       h2 <- (if negb (envs f =? 0) then
                for_loop (Z.to_nat (environments_length d)) 0
                  (fun i h =>
                     e <- load (env_at h (envs f) i) ;;
                     if negb (e =? 0) then dst_mark_funcenv fuel e h else Done h) h1
              else Done h1) ;;
       dst_mark_funcdef fuel (def f) h2)).
  { simpl. rewrite (guard_reachable h _ b Hb Hu func eq_refl),
      (guard_mark h _ b Hb func eq_refl). cbn [res_bind]. unfold function_at.
    rewrite (body_at_marked h _ b Hb func eq_refl), Hbody. cbn [load res_bind].
    unfold funcdef_at. by rewrite (heap_le_body_at _ _ _ Hle). }
  split.
  - intros d Hd Hnull. rewrite Hstep, Hd, Hnull. cbn [load res_bind Z.eqb negb].
    split; [done|]. intros h' Hrun.
    by apply (mark_ref_marks fuel (RFuncDef (def f)) h1).
  - intros Hnone. by rewrite Hstep, Hnone.
Qed.

(** C4: on every well-formed object graph, cycles and sharing included,
    marking terminates; a routine called on an object that is already
    marked returns at once, without going into what the object refers
    to. *)
Theorem mark_terminates h r :
  graph_ok h r →
  (∃ fuel h', mark_ref fuel r h = Done h')
  ∧ (∀ a b, ref_header r = Some a → blocks h !! a = Some b →
            reachable_bit (flags b) = true →
            ∃ h', mark_ref 2 r h = Done h' ∧ blocks h' = blocks h).
Proof.
  intros Hok. split.
  - destruct (mark_total (S (size (unmarked_set h))) h r) as (fuel & h' & H & _);
      [lia|done|eauto].
  - intros a b Ha Hb Hm.
    destruct (graph_ok_ref_ok _ _ Hok a Ha) as (b' & rs & Hb' & Hmatch & _).
    assert (b' = b) as -> by congruence.
    assert (Hg : ∀ m, dst_gc_header m = a → dst_gc_reachable m h = Done true).
    { intros m <-. unfold dst_gc_reachable. rewrite Hb. simpl. by rewrite Hm. }
    assert (Hor : Z.lor (flags b) DST_MEM_REACHABLE = flags b).
    { unfold reachable_bit in Hm. apply negb_true_iff, Z.eqb_neq in Hm.
      apply Z.bits_inj'. intros n Hn. rewrite Z.lor_spec.
      destruct (decide (n = 8)) as [->|Hne].
      - destruct (Z.testbit (flags b) 8) eqn:E; [done|]. destruct Hm.
        apply Z.bits_inj'. intros n Hn'. rewrite Z.land_spec, Z.bits_0.
        destruct (decide (n = 8)) as [->|Hne]; [by rewrite E|].
        change DST_MEM_REACHABLE with (2 ^ 8).
        rewrite Z.pow2_bits_eqb by lia. rewrite (proj2 (Z.eqb_neq 8 n)) by done.
        apply andb_false_r.
      - change DST_MEM_REACHABLE with (2 ^ 8).
        rewrite Z.pow2_bits_eqb by lia. rewrite (proj2 (Z.eqb_neq 8 n)) by done.
        apply orb_false_r. }
    assert (Hk : ∀ m, dst_gc_header m = a →
                 ∃ h', dst_gc_mark m h = Done h' ∧ blocks h' = blocks h).
    { intros m <-. unfold dst_gc_mark. rewrite Hb. simpl. eexists. split; [done|].
      simpl. rewrite Hor. apply map_eq. intros x.
      destruct (decide (x = dst_gc_header m)) as [->|Hne].
      - rewrite lookup_alter_eq, Hb. by destruct b.
      - by rewrite lookup_alter_ne. }
    destruct r as [[ty p]|p|p|p|p]; [destruct ty; try discriminate|..];
      injection Ha as Ha; simpl;
      unfold dst_mark_string, dst_mark_buffer, dst_mark_udata;
      rewrite ?(Hg _ Ha); simpl; eauto.
Qed.

(** ** Checking a given state *)

Lemma ref_ok_b_spec h r : ref_ok_b h r = true → ref_ok h r.
Proof.
  unfold ref_ok_b, ref_ok. intros H a Ha. rewrite Ha in H.
  destruct (blocks h !! a) as [b|] eqn:Hb; [|done].
  apply andb_true_iff in H as [Hm Ho].
  destruct (out_refs h (body b)) as [rs|] eqn:Hrs; [|done]. by exists b, rs.
Qed.

Lemma closed_b_graph_ok h (rs : list Ref) r :
  closed_b h rs = true → r ∈ rs → graph_ok h r.
Proof.
  intros Hc Hr r' Hpath.
  assert (Hall : ∀ x, x ∈ rs → ref_ok h x ∧ ∀ y, child h x y → y ∈ rs).
  { intros x Hx. unfold closed_b in Hc. rewrite forallb_forall in Hc.
    specialize (Hc x (proj1 (list_elem_of_In _ _) Hx)).
    apply andb_true_iff in Hc as [Hok Hch]. split; [by apply ref_ok_b_spec|].
    intros y (a & b & ys & Ha & Hb & Ho & Hy). rewrite forallb_forall in Hch.
    unfold children in Hch. rewrite Ha, Hb, Ho in Hch. simpl in Hch.
    specialize (Hch y (proj1 (list_elem_of_In _ _) Hy)).
    by apply bool_decide_eq_true in Hch. }
  assert (Hin : r' ∈ rs).
  { induction Hpath as [|x y z Hxy _ IH]; [done|]. apply IH.
    by apply (Hall x). }
  by apply Hall.
Qed.

Lemma sweepable_b_spec h a : sweepable_b h a = true → sweepable h a.
Proof.
  unfold sweepable_b, sweepable. intros H b Hb. rewrite Hb in H.
  apply andb_true_iff in H as [Ht Ho]. split.
  - apply existsb_exists in Ht as (t & Hin & Ht). exists t.
    split; [by apply list_elem_of_In|by apply Z.eqb_eq].
  - intros p Hp. rewrite forallb_forall in Ho.
    specialize (Ho p (proj1 (list_elem_of_In _ _) Hp)).
    by apply bool_decide_eq_true in Ho.
Qed.

Lemma refs_closure_incl n h (rs : list Ref) r : r ∈ rs → r ∈ refs_closure n h rs.
Proof.
  revert rs. induction n as [|n IH]; intros rs Hr; simpl; [done|].
  apply IH, elem_of_remove_dups, elem_of_app. by left.
Qed.

Lemma heap_ok_b_spec n vm (l : list Z) : heap_ok_b n vm l = true → heap_ok vm l.
Proof.
  unfold heap_ok_b. intros [[Hw Hg]%andb_true_iff Hs]%andb_true_iff.
  apply bool_decide_eq_true in Hw. split; [by eapply walk_chain|]. split.
  - intros Hf. rewrite (proj2 (Z.eqb_neq _ _) Hf) in Hg.
    eapply closed_b_graph_ok; [exact Hg|].
    apply refs_closure_incl. left.
  - intros a Ha. apply sweepable_b_spec. rewrite forallb_forall in Hs.
    apply Hs. by apply list_elem_of_In.
Qed.

(** ** The properties on the example states *)

Lemma cyclic_vm_ok : heap_ok cyclic_vm cyclic_list.
Proof. apply (heap_ok_b_spec 20). vm_compute. reflexivity. Qed.

Lemma garbage_vm_ok : heap_ok garbage_vm [300; 200; 100].
Proof. apply (heap_ok_b_spec 20). vm_compute. reflexivity. Qed.

Lemma pinned_vm_ok : heap_ok pinned_vm [100; 200].
Proof. apply (heap_ok_b_spec 20). vm_compute. reflexivity. Qed.

Lemma all_clear_check h :
  bool_decide (map_Forall (fun _ b => reachable_bit (flags b) = false) (blocks h)) = true →
  all_clear h.
Proof. intros H. apply bool_decide_eq_true in H. exact H. Qed.

Lemma cyclic_heap_clear : all_clear cyclic_heap.
Proof. apply all_clear_check. vm_compute. reflexivity. Qed.

Lemma pinned_heap_clear : all_clear pinned_heap.
Proof. apply all_clear_check. vm_compute. reflexivity. Qed.

Lemma collect_clears_reachable_witness :
  heap_ok cyclic_vm cyclic_list
  ∧ ((∃ fuel vm', dst_collect fuel cyclic_vm = Done vm')
     ∧ ∀ fuel vm' l' a,
         dst_collect fuel cyclic_vm = Done vm' →
         chain (heap vm') (dst_vm_blocks vm') l' → a ∈ l' →
         ∃ b, blocks (heap vm') !! a = Some b ∧ reachable_bit (flags b) = false).
Proof.
  split; [exact cyclic_vm_ok|].
  exact (collect_clears_reachable cyclic_vm cyclic_list cyclic_vm_ok).
Defined.

Lemma collect_keeps_reachable_witness :
  heap_ok cyclic_vm cyclic_list ∧ all_clear (heap cyclic_vm)
  ∧ ((∃ fuel vm', dst_collect fuel cyclic_vm = Done vm')
     ∧ ∀ fuel vm', dst_collect fuel cyclic_vm = Done vm' →
         ∃ l', chain (heap vm') (dst_vm_blocks vm') l'
               ∧ ∀ a, a ∈ cyclic_list →
                   (dst_vm_fiber cyclic_vm ≠ 0
                    ∧ reachable_from (heap cyclic_vm)
                        (RFiber (dst_vm_fiber cyclic_vm)) a)
                   ∨ pinned (heap cyclic_vm) a →
                   a ∈ l' ∧ is_Some (blocks (heap vm') !! a)).
Proof.
  split; [exact cyclic_vm_ok|]. split; [exact cyclic_heap_clear|].
  exact (collect_keeps_reachable cyclic_vm cyclic_list cyclic_vm_ok cyclic_heap_clear).
Defined.

(** C1 as stated fails: the string at 200 is reachable from the pinned
    array at 100 and is on the list, yet a collection frees it. *)
Lemma pinned_referent_is_freed :
  heap_ok pinned_vm [100; 200] ∧ all_clear (heap pinned_vm)
  ∧ pinned (heap pinned_vm) 100
  ∧ ref_header (RValue (value DST_ARRAY 116)) = Some 100
  ∧ reachable_from (heap pinned_vm) (RValue (value DST_ARRAY 116)) 200
  ∧ ∃ vm', dst_collect 3 pinned_vm = Done vm'
           ∧ chain (heap vm') (dst_vm_blocks vm') [100]
           ∧ blocks (heap vm') !! 200 = None
           ∧ EvFree 200 ∈ trace vm'.
Proof.
  split; [exact pinned_vm_ok|]. split; [exact pinned_heap_clear|].
  split; [eexists; split; [reflexivity|by vm_compute]|].
  split; [reflexivity|]. split.
  - exists (RValue (value DST_STRING 224)). split; [|reflexivity].
    apply rtc_once. eexists 100, _, _. split; [reflexivity|].
    split; [reflexivity|]. split; [reflexivity|]. left.
  - eexists. split; [vm_compute; reflexivity|].
    split; [by apply (walk_chain 3); vm_compute|].
    split; [by vm_compute|]. cbn. do 4 right. left.
Qed.

Lemma mixed_vm_ok : heap_ok mixed_vm mixed_list.
Proof. apply (heap_ok_b_spec 20). vm_compute. reflexivity. Qed.

Lemma sweep_frees_unmarked_unpinned_witness :
  chain (heap mixed_vm) (dst_vm_blocks mixed_vm) mixed_list
  ∧ (∀ a, a ∈ mixed_list → sweepable (heap mixed_vm) a)
  ∧ marked (heap mixed_vm) 300 ∧ pinned (heap mixed_vm) 100
  ∧ ∃ vm', dst_sweep 20 mixed_vm = Done vm'
      ∧ chain (heap vm') (dst_vm_blocks vm') [300; 100]
      ∧ [300; 100] = filter (fun a => kept (heap mixed_vm) a = true) mixed_list
      ∧ ∀ a b, a ∈ mixed_list → blocks (heap mixed_vm) !! a = Some b →
          let clear :=
            reachable_bit (flags b) = false ∧ disabled_bit (flags b) = false in
          (a ∉ [300; 100] ↔ clear)
          ∧ (blocks (heap vm') !! a = None ↔ clear)
          ∧ (EvFree a ∈ trace vm' ↔ clear)
          ∧ (clear →
             ∃ t1 t2 t3, trace vm' = t1 ++ EvDeinit a :: t2 ++ EvFree a :: t3
                         ∧ (EvDeinit a ∉ t1 ++ t2 ++ t3)
                         ∧ (EvFree a ∉ t1 ++ t2)).
Proof.
  pose proof mixed_vm_ok as (Hc & _ & Hs).
  split; [exact Hc|]. split; [exact Hs|].
  split; [eexists; split; [reflexivity|by vm_compute]|].
  split; [eexists; split; [reflexivity|by vm_compute]|].
  eexists. eassert (E : dst_sweep 20 mixed_vm = Done _) by (vm_compute; reflexivity).
  split; [exact E|].
  match type of E with
  | _ = Done ?v =>
      destruct (proj2 (sweep_frees_unmarked_unpinned mixed_vm mixed_list Hc Hs)
                  20%nat v (trace v) E eq_refl) as (l' & Hc' & Huniq & Hl' & Hall)
  end.
  match goal with
  | |- chain ?h ?p ?l ∧ _ =>
      assert (Hch : chain h p l) by (apply (walk_chain 20); vm_compute; reflexivity)
  end.
  rewrite (Huniq _ Hch) in *.
  split; [exact Hc'|]. split; [exact Hl'|]. exact Hall.
Defined.

Lemma mark_terminates_witness :
  graph_ok cyclic_heap (RFiber 116)
  ∧ ((∃ fuel h', mark_ref fuel (RFiber 116) cyclic_heap = Done h')
     ∧ (∀ a b, ref_header (RFiber 116) = Some a → blocks cyclic_heap !! a = Some b →
               reachable_bit (flags b) = true →
               ∃ h', mark_ref 2 (RFiber 116) cyclic_heap = Done h'
                     ∧ blocks h' = blocks cyclic_heap)).
Proof.
  assert (Hg : graph_ok cyclic_heap (RFiber 116)).
  { apply (closed_b_graph_ok _ (refs_closure 20 cyclic_heap [RFiber 116]));
      [vm_compute; reflexivity|]. apply refs_closure_incl. left. }
  split; [exact Hg|]. exact (mark_terminates cyclic_heap (RFiber 116) Hg).
Defined.

Lemma alloc_out_of_memory_witness :
  dst_vm_cache string_vm ≠ 0
  ∧ (fun _ : Z => 0) (size_t (24 + sizeof_DstGCMemoryHeader)) = 0
  ∧ dst_alloc (fun _ => 0) DST_MEMORY_ARRAY 24 string_vm
    = Exit OUT_OF_MEMORY string_vm.
Proof.
  assert (Hc : dst_vm_cache string_vm ≠ 0) by (vm_compute; discriminate).
  split; [exact Hc|]. split; [reflexivity|].
  exact (alloc_out_of_memory (fun _ => 0) DST_MEMORY_ARRAY 24 string_vm Hc eq_refl).
Defined.

Lemma alloc_success_witness :
  ∃ vm',
    dst_alloc (fun _ => 4096) DST_MEMORY_ARRAY 24 string_vm = Return 4112 vm'
    ∧ (4112 = 4096 + sizeof_DstGCMemoryHeader
       ∧ dst_vm_blocks vm' = 4096
       ∧ blocks (heap vm') !! 4096
         = Some {| next := dst_vm_blocks string_vm;
                   flags := mem_tag DST_MEMORY_ARRAY; body := Uninit |}
       ∧ reachable_bit (mem_tag DST_MEMORY_ARRAY) = false
       ∧ disabled_bit (mem_tag DST_MEMORY_ARRAY) = false
       ∧ dst_vm_next_collection vm'
         = (dst_vm_next_collection string_vm + 24) mod 2 ^ 32
       ∧ (0 ≤ dst_vm_next_collection string_vm + 24 < 2 ^ 32 →
          dst_vm_next_collection vm' = dst_vm_next_collection string_vm + 24)).
Proof.
  eexists. split; [vm_compute; reflexivity|].
  exact (alloc_success (fun _ => 4096) DST_MEMORY_ARRAY 24 string_vm _ _ eq_refl).
Defined.

(** C6 as stated fails where the 32-bit counter wraps: one more byte at
    the largest value leaves it at 0. *)
Lemma alloc_counter_wraps :
  ∃ vm', dst_alloc (fun _ => 4096) DST_MEMORY_STRING 1 full_counter_vm
         = Return 4112 vm'
         ∧ dst_vm_next_collection vm' = 0
         ∧ dst_vm_next_collection vm' ≠ dst_vm_next_collection full_counter_vm + 1.
Proof. eexists. split; [vm_compute; reflexivity|]. by vm_compute. Qed.

Lemma mark_funcdef_constants_witness :
  ∃ b, blocks cyclic_heap !! dst_gc_header 416 = Some b
       ∧ reachable_bit (flags b) = false
       ∧ ∃ h', dst_mark_funcdef 6 416 cyclic_heap = Done h'
               ∧ marked h' (dst_gc_header 516).
Proof.
  set (b := mkblock 350 DST_MEMORY_FUNCDEF
              (FuncDefBody {| environments := 4100; constants := 4000;
                              bytecode := 4200; constants_length := 2;
                              environments_length := 0 |})).
  exists b.
  assert (Hb : blocks cyclic_heap !! dst_gc_header 416 = Some b)
    by (vm_compute; reflexivity).
  assert (Hu : reachable_bit (flags b) = false) by reflexivity.
  split; [exact Hb|]. split; [exact Hu|].
  destruct (mark_funcdef_constants 5 416 cyclic_heap b _ Hb Hu eq_refl)
    as [_ Hnn].
  destruct (Hnn [value DST_BOOLEAN 516; value DST_NIL 0]) as [Hrun Hm];
    [discriminate|vm_compute; reflexivity|].
  eexists. split; [vm_compute; reflexivity|].
  apply (Hm _ (value DST_BOOLEAN 516)); [vm_compute; reflexivity|left].
Defined.

Lemma funcenv_frees_values_iff_closed_witness :
  (∃ vm', dst_deinit_block 200 garbage_vm = Done vm'
          ∧ new_events garbage_vm vm' [EvDeinit 200] ∧ heap vm' = heap garbage_vm)
  ∧ (∃ vm', dst_deinit_block 300 garbage_vm = Done vm'
            ∧ new_events garbage_vm vm' [EvDeinit 300; EvFree 3000])
  ∧ ∀ fuel vm' evs,
      dst_sweep fuel garbage_vm = Done vm' → new_events garbage_vm vm' evs →
      ∃ t1 t2, evs = t1 ++ EvFree 1000 :: t2
               ∧ (EvFree 1000 ∉ t1) ∧ (EvFree 1000 ∉ t2).
Proof.
  destruct funcenv_frees_values_iff_closed as [Hd Hs].
  pose proof garbage_vm_ok as (Hc & _ & Hsw).
  split; [|split].
  - destruct (Hd garbage_vm 200 _ _ eq_refl eq_refl eq_refl)
      as (vm' & evs & Hrun & Hev & _ & Hopen).
    destruct Hopen as [-> Hh]; [discriminate|]. by exists vm'.
  - destruct (Hd garbage_vm 300 _ _ eq_refl eq_refl eq_refl)
      as (vm' & evs & Hrun & Hev & Hclosed & _).
    rewrite Hclosed in Hev by reflexivity. by exists vm'.
  - refine (proj2 (Hs garbage_vm [300; 200; 100] 200 100 _ _ _ _ Hc Hsw _ eq_refl
                     eq_refl _ eq_refl _ eq_refl eq_refl eq_refl eq_refl _)).
    + right. left.
    + discriminate.
    + right. right. left.
    + intros x bx Hx HxF HxE Hbx.
      apply elem_of_cons in Hx as [->|Hx].
      * injection Hbx as <-. cbn. by intros ?%list_elem_of_singleton.
      * apply elem_of_cons in Hx as [->|Hx]; [done|].
        apply list_elem_of_singleton in Hx. done.
Defined.

Lemma mark_function_null_envs_witness :
  ∃ b, blocks cyclic_heap !! dst_gc_header 316 = Some b
       ∧ reachable_bit (flags b) = false
       ∧ dst_mark_function 6 316 cyclic_heap
         = dst_mark_funcdef 5 416
             (set_flags (dst_gc_header 316) (Z.lor (flags b) DST_MEM_REACHABLE)
                cyclic_heap)
       ∧ ∀ h', dst_mark_function 6 316 cyclic_heap = Done h' →
               marked h' (dst_gc_header 416).
Proof.
  set (b := mkblock 200 DST_MEMORY_FUNCTION
              (FunctionBody {| def := 416; envs := 0 |})).
  exists b.
  assert (Hb : blocks cyclic_heap !! dst_gc_header 316 = Some b)
    by (vm_compute; reflexivity).
  assert (Hu : reachable_bit (flags b) = false) by reflexivity.
  split; [exact Hb|]. split; [exact Hu|].
  destruct (mark_function_null_envs 5 316 cyclic_heap b _ Hb Hu eq_refl)
    as [Hnull _].
  eapply Hnull; [vm_compute; reflexivity|reflexivity].
Defined.

(** C2: the sweeper writes to the flags of a block it has just freed.
    On the state with one unreferenced string (header 100) the sweep
    finalizes it, frees it and then stores to its flags. *)
Theorem sweep_stores_to_freed_block :
  ∃ vm', dst_sweep 2 string_vm = Done vm'
         ∧ blocks (heap vm') !! 100 = None
         ∧ trace vm' = [EvDeinit 100; EvCacheRemove (dst_wrap_string 124);
                        EvFree 100; EvStore 100 FFlags].
Proof. eexists. split; [vm_compute; reflexivity|]. split; reflexivity. Qed.

(** The same for every block a sweep frees: its [free] is followed by
    the store to its flags. *)
Lemma sweep_store_follows_free vm (l : list Z) a b :
  chain (heap vm) (dst_vm_blocks vm) l →
  (∀ a, a ∈ l → sweepable (heap vm) a) →
  a ∈ l → blocks (heap vm) !! a = Some b → keeps (flags b) = false →
  ∃ vm' t1 t2, dst_sweep (S (length l)) vm = Done vm'
               ∧ trace vm' = trace vm ++ t1 ++ EvFree a :: EvStore a FFlags :: t2.
Proof.
  intros Hc Hs Hin Hb Hk.
  destruct (sweep_spec vm l (S (length l))) as (vm1 & Hrun & Hsp); [done|auto|lia|].
  destruct Hsp as (_ & _ & _ & _ & _ & P6 & _).
  destruct (list_elem_of_split _ _ Hin) as (l1 & l2 & ->).
  destruct (sweep_events_split (heap vm) 0 l1 l2 a b) as (p & t3 & E & _); try done.
  { intros x Hx. apply (chain_lookup _ _ _ _ Hc). apply elem_of_app. by left. }
  exists vm1,
    (sweep_events (heap vm) 0 l1
       ++ EvDeinit a :: deinit_events a b
       ++ (if p =? 0 then [] else [EvStore p FNext])), t3.
  split; [done|]. rewrite P6, E. f_equal.
  rewrite <- !app_assoc. cbn [app]. by rewrite <- !app_assoc.
Qed.

(** * Further properties of the tracer *)

Lemma lor_reachable_id fl :
  reachable_bit fl = true → Z.lor fl DST_MEM_REACHABLE = fl.
Proof.
  unfold reachable_bit. intros Hm. apply negb_true_iff, Z.eqb_neq in Hm.
  apply Z.bits_inj'. intros n Hn. rewrite Z.lor_spec.
  change DST_MEM_REACHABLE with (2 ^ 8) in *.
  rewrite Z.pow2_bits_eqb by lia.
  destruct (Z.eqb_spec 8 n) as [<-|Hne]; [|apply orb_false_r].
  destruct (Z.testbit fl 8) eqn:E; [done|]. destruct Hm.
  apply Z.bits_inj'. intros m Hm. rewrite Z.land_spec, Z.bits_0.
  rewrite Z.pow2_bits_eqb by lia.
  destruct (Z.eqb_spec 8 m) as [<-|Hne]; [by rewrite E|apply andb_false_r].
Qed.

Lemma set_flags_same a b h :
  blocks h !! a = Some b → set_flags a (flags b) h = h.
Proof.
  intros Hb. destruct h as [bl bf]. unfold set_flags. simpl in *. f_equal.
  apply map_eq. intros x. destruct (decide (x = a)) as [->|Hne].
  - rewrite lookup_alter_eq, Hb. by destruct b.
  - by rewrite lookup_alter_ne.
Qed.

Lemma dst_gc_mark_marked_id m h :
  marked h (dst_gc_header m) → dst_gc_mark m h = Done h.
Proof.
  intros (b & Hb & Hm). unfold dst_gc_mark. rewrite Hb. simpl.
  by rewrite (lor_reachable_id _ Hm), (set_flags_same _ _ _ Hb).
Qed.

Lemma dst_gc_reachable_marked m h :
  marked h (dst_gc_header m) → dst_gc_reachable m h = Done true.
Proof.
  intros (b & Hb & Hm). unfold dst_gc_reachable. rewrite Hb. simpl. by rewrite Hm.
Qed.

(** Marking what is marked: the routine returns the heap it got. *)
Lemma mark_ref_on_marked r h :
  (∀ a, ref_header r = Some a → marked h a) → mark_ref 2 r h = Done h.
Proof.
  intros Hm.
  destruct r as [[ty p]|p|p|p|p]; [destruct ty|..]; simpl in *;
    unfold dst_mark_string, dst_mark_buffer, dst_mark_udata;
    try done;
    try (apply dst_gc_mark_marked_id; by apply Hm);
    by rewrite dst_gc_reachable_marked by (by apply Hm).
Qed.

(** X1: marking is idempotent.  Once a marking routine has returned for
    a value, marking the same value again returns the same heap. *)
Theorem mark_idempotent fuel r h h' :
  mark_ref fuel r h = Done h' → mark_ref 2 r h' = Done h'.
Proof.
  intros H. apply mark_ref_on_marked. intros a Ha. by eapply mark_ref_marks.
Qed.

(** X2: a marking routine changes nothing but reachable bits, which it
    only sets: the secondary arrays, the set of allocated blocks, and
    the link, the object, the type tag and the disabled bit of every
    block are as before. *)
Theorem mark_sets_reachable_bits_only fuel r h h' :
  mark_ref fuel r h = Done h' →
  bufs h' = bufs h
  ∧ (∀ a, blocks h !! a = None ↔ blocks h' !! a = None)
  ∧ ∀ a b b', blocks h !! a = Some b → blocks h' !! a = Some b' →
      next b' = next b ∧ body b' = body b
      ∧ Z.land (flags b') DST_MEM_TYPEBITS = Z.land (flags b) DST_MEM_TYPEBITS
      ∧ disabled_bit (flags b') = disabled_bit (flags b)
      ∧ (reachable_bit (flags b) = true → reachable_bit (flags b') = true).
Proof.
  intros H. apply mark_ref_heap_le in H as [Hbufs Hbl].
  split; [done|]. split.
  - intros a. specialize (Hbl a). destruct Hbl; naive_solver.
  - intros a b b' Hb Hb'. specialize (Hbl a). rewrite Hb, Hb' in Hbl.
    inversion Hbl as [? ? (Hn & Hbody & Hf)|]; subst.
    split; [done|]. split; [done|].
    destruct Hf as [->| ->]; [done|].
    rewrite typebits_lor, disabled_bit_lor, reachable_bit_lor. done.
Qed.

(** ** The tracer marks nothing but what the root leads to *)

Lemma reachable_from_child h r r' a :
  child h r r' → reachable_from h r' a → reachable_from h r a.
Proof. intros Hc (r2 & Hp & Ha). exists r2. split; [by eapply rtc_l|done]. Qed.

Lemma heap_le_reachable_from h h' r a :
  heap_le h h' → reachable_from h' r a → reachable_from h r a.
Proof.
  intros L (r' & Hp & Ha). exists r'. split; [|done].
  by apply (heap_le_rtc_child _ _ _ _ L).
Qed.

Lemma mark_refs_precise n :
  (∀ h r, (size (unmarked_set h) < n)%nat → graph_ok h r →
          ∃ fuel h', mark_ref fuel r h = Done h' ∧ heap_le h h'
                     ∧ ∀ a, marked h' a → marked h a ∨ reachable_from h r a) →
  ∀ rs h, (size (unmarked_set h) < n)%nat → (∀ r, r ∈ rs → graph_ok h r) →
    ∃ fuel h', mark_refs fuel rs h = Done h' ∧ heap_le h h'
               ∧ ∀ a, marked h' a →
                      marked h a ∨ ∃ r, r ∈ rs ∧ reachable_from h r a.
Proof.
  intros IH. induction rs as [|r rs IHrs]; intros h Hn Hok.
  - exists O, h. simpl. split; [done|]. split; [apply heap_le_refl|]. by left.
  - destruct (IH h r Hn) as (f1 & h1 & E1 & L1 & P1).
    { apply Hok. left. }
    destruct (IHrs h1) as (f2 & h2 & E2 & L2 & P2).
    { pose proof (subseteq_size _ _ (heap_le_unmarked_set _ _ L1)). lia. }
    { intros r' Hin. apply (heap_le_graph_ok _ _ _ L1), Hok. by right. }
    exists (f1 `max` f2)%nat, h2. simpl.
    rewrite (mark_ref_mono f1 (f1 `max` f2) _ _ _ ltac:(lia) E1). simpl.
    rewrite (mark_refs_mono f2 (f1 `max` f2) _ _ _ ltac:(lia) E2).
    split; [done|]. split; [by eapply heap_le_trans|].
    intros a Ha. destruct (P2 a Ha) as [H1|(r' & Hin & Hr)].
    + destruct (P1 a H1) as [H0|Hr]; [by left|].
      right. exists r. split; [left|done].
    + right. exists r'. split; [by right|]. by eapply heap_le_reachable_from.
Qed.

Lemma mark_precise n h r :
  (size (unmarked_set h) < n)%nat → graph_ok h r →
  ∃ fuel h', mark_ref fuel r h = Done h' ∧ heap_le h h'
             ∧ ∀ a, marked h' a → marked h a ∨ reachable_from h r a.
Proof.
  revert h r. induction n as [|n IH]; intros h r Hn Hok; [lia|].
  destruct (ref_header r) as [a|] eqn:Ha.
  2:{ exists 1%nat, h. split; [by apply mark_ref_no_header|].
      split; [apply heap_le_refl|]. by left. }
  destruct (graph_ok_ref_ok _ _ Hok a Ha) as (b & rs & Hb & Hm & Ho).
  destruct (reachable_bit (flags b)) eqn:Hbit.
  - exists 2%nat, h. split; [|split; [apply heap_le_refl|by left]].
    apply mark_ref_on_marked. intros a' Ha'.
    assert (a' = a) as -> by congruence. by exists b.
  - set (h1 := set_flags a (Z.lor (flags b) DST_MEM_REACHABLE) h).
    assert (L1 : heap_le h h1) by by apply heap_le_set_flags.
    destruct (mark_refs_precise n IH rs h1) as (f & h' & E & L & P).
    { pose proof (set_flags_unmarked_set a b h Hb Hbit). unfold h1. lia. }
    { intros r' Hin. apply (heap_le_graph_ok _ _ _ L1).
      apply (graph_ok_child _ r); [done|]. by exists a, b, rs. }
    destruct (mark_children f h a b Hb Hbit r rs h') as (fuel' & E'); try done.
    exists fuel', h'. split; [done|]. split; [by eapply heap_le_trans|].
    intros a0 Ha0. destruct (P a0 Ha0) as [H1|(r' & Hin & Hr)].
    + destruct (decide (a0 = a)) as [->|Hne].
      * right. by exists r.
      * left. destruct H1 as (b1 & Hb1 & Hm1). unfold h1 in Hb1.
        rewrite set_flags_lookup, decide_False in Hb1 by done. by exists b1.
    + right. apply (reachable_from_child _ r r'); [by exists a, b, rs|].
      by eapply heap_le_reachable_from.
Qed.

Lemma mark_reaches fuel r h h' a :
  graph_ok h r → all_clear h → mark_ref fuel r h = Done h' →
  reachable_from h r a → marked h' a.
Proof.
  intros Hok Hclear H Hr.
  assert (Hnm : ∀ a, ¬ marked h a).
  { intros x (b & Hb & Hm). by rewrite (Hclear x b Hb) in Hm. }
  destruct (mark_total (S (size (unmarked_set h))) h r) as (f & h2 & E & L & M & C);
    [lia|done|].
  rewrite (mark_ref_det _ _ _ _ _ _ H E).
  by apply (closed_reachable h h2 r a).
Qed.

(** X3: the tracer is exact.  Started on a well-formed graph with every
    reachable bit clear, a marking routine that returns has set the
    reachable bit of the blocks the root leads to, and of no other. *)
Theorem mark_marks_exactly_reachable fuel r h h' :
  graph_ok h r → all_clear h → mark_ref fuel r h = Done h' →
  ∀ a, marked h' a ↔ reachable_from h r a.
Proof.
  intros Hok Hclear H a. split; [|by apply (mark_reaches fuel)].
  intros Hm.
  destruct (mark_precise (S (size (unmarked_set h))) h r) as (f & h2 & E & _ & P);
    [lia|done|].
  rewrite (mark_ref_det _ _ _ _ _ _ H E) in Hm.
  destruct (P a Hm) as [H0|Hr]; [|done].
  destruct H0 as (b & Hb & Hbit). by rewrite (Hclear a b Hb) in Hbit.
Qed.

(** Without any assumption on the bits at the start, a block whose
    reachable bit is set after marking had it set before or is reached
    from the root. *)
Lemma mark_marks_only_reachable fuel r h h' a :
  graph_ok h r → mark_ref fuel r h = Done h' → marked h' a →
  marked h a ∨ reachable_from h r a.
Proof.
  intros Hok H Hm.
  destruct (mark_precise (S (size (unmarked_set h))) h r) as (f & h2 & E & _ & P);
    [lia|done|].
  rewrite (mark_ref_det _ _ _ _ _ _ H E) in Hm. by apply P.
Qed.

(** * Further properties of the sweeper and of a collection *)

Lemma land_clear_unmarked fl :
  reachable_bit fl = false → Z.land fl (Z.lnot DST_MEM_REACHABLE) = fl.
Proof.
  unfold reachable_bit. intros Hm. apply negb_false_iff, Z.eqb_eq in Hm.
  apply Z.bits_inj'. intros n Hn.
  rewrite Z.land_spec, Z.lnot_spec by done.
  change DST_MEM_REACHABLE with (2 ^ 8) in *.
  rewrite Z.pow2_bits_eqb by lia.
  destruct (Z.eqb_spec 8 n) as [<-|Hne]; [|apply andb_true_r].
  apply (f_equal (fun z => Z.testbit z 8)) in Hm.
  rewrite Z.land_spec, Z.pow2_bits_eqb, Z.bits_0 in Hm by lia.
  rewrite Z.eqb_refl, andb_true_r in Hm. rewrite Hm. done.
Qed.

Lemma land_clear_lor fl :
  reachable_bit fl = false →
  Z.land (Z.lor fl DST_MEM_REACHABLE) (Z.lnot DST_MEM_REACHABLE) = fl.
Proof.
  intros Hm. rewrite Z.land_lor_distr_l, Z.land_lnot_diag, Z.lor_0_r.
  by apply land_clear_unmarked.
Qed.

Lemma typebits_clear fl :
  Z.land (Z.land fl (Z.lnot DST_MEM_REACHABLE)) DST_MEM_TYPEBITS
  = Z.land fl DST_MEM_TYPEBITS.
Proof.
  rewrite <- Z.land_assoc. f_equal.
Qed.

Lemma filter_ext_elem (P Q : Z → Prop) `{∀ x, Decision (P x)} `{∀ x, Decision (Q x)}
    (l : list Z) :
  (∀ a, a ∈ l → P a ↔ Q a) → filter P l = filter Q l.
Proof.
  induction l as [|a l IH]; intros Hpq; [done|].
  assert (Ha : P a ↔ Q a) by (apply Hpq; left).
  assert (Hl : filter P l = filter Q l).
  { apply IH. intros x Hx. apply Hpq. by right. }
  destruct (decide (P a)) as [Hp|Hp].
  - rewrite !filter_cons_True by tauto. by rewrite Hl.
  - rewrite !filter_cons_False by tauto. done.
Qed.

Lemma with_heap_id vm : with_heap (heap vm) vm = vm.
Proof. by destruct vm. Qed.

Lemma collect_inv fuel vm vm' :
  dst_collect fuel vm = Done vm' →
  ∃ h1 vm1,
    (if dst_vm_fiber vm =? 0 then h1 = heap vm
     else mark_ref fuel (RFiber (dst_vm_fiber vm)) (heap vm) = Done h1)
    ∧ dst_sweep fuel (with_heap h1 vm) = Done vm1
    ∧ vm' = set_next_collection 0 vm1.
Proof.
  unfold dst_collect. intros H. bind_inv H. bind_inv H. injection H as <-.
  destruct (dst_vm_fiber vm =? 0) eqn:Ef; cbn [negb] in E.
  - injection E as <-. exists (heap vm), x0. by rewrite with_heap_id.
  - bind_inv E. injection E as <-. by exists x1, x0.
Qed.

Lemma heap_le_pinned h h' a : heap_le h h' → pinned h' a ↔ pinned h a.
Proof.
  intros L. split.
  - intros (b' & Hb' & Hp).
    destruct (heap_le_lookup_inv _ _ _ _ L Hb') as (b & Hb & (_ & _ & Hf)).
    exists b. split; [done|].
    destruct Hf as [<-|Hf]; [done|]. by rewrite Hf, disabled_bit_lor in Hp.
  - intros (b & Hb & Hp).
    destruct (heap_le_lookup _ _ _ _ L Hb) as (b' & Hb' & (_ & _ & Hf)).
    exists b'. split; [done|].
    destruct Hf as [->| ->]; [done|]. by rewrite disabled_bit_lor.
Qed.

Lemma kept_spec h a : kept h a = true ↔ marked h a ∨ pinned h a.
Proof.
  unfold kept, marked, pinned. destruct (blocks h !! a) as [b|].
  - rewrite keeps_spec, orb_true_iff. split.
    + intros [Hm|Hp]; [left|right]; by exists b.
    + intros [(b' & [= <-] & Hm)|(b' & [= <-] & Hp)]; [by left|by right].
  - split; [done|]. by intros [(b' & [=] & _)|(b' & [=] & _)].
Qed.

(** A run of the collector, told in full: the heap after the marking
    phase carries the reachable bit on what the active fiber leads to,
    and the sweep starts from there. *)
Lemma collect_run vm (l : list Z) fuel vm' :
  heap_ok vm l → all_clear (heap vm) → dst_collect fuel vm = Done vm' →
  ∃ h1 vm1,
    vm' = set_next_collection 0 vm1
    ∧ heap_le (heap vm) h1
    ∧ (∀ a, marked h1 a ↔
            dst_vm_fiber vm ≠ 0
            ∧ reachable_from (heap vm) (RFiber (dst_vm_fiber vm)) a)
    ∧ sweep_post 0 l (with_heap h1 vm) vm1
    ∧ dst_sweep fuel (with_heap h1 vm) = Done vm1.
Proof.
  intros (Hc & Hg & Hs) Hclear H.
  assert (Hnm : ∀ a, ¬ marked (heap vm) a).
  { intros x (b & Hb & Hm). by rewrite (Hclear x b Hb) in Hm. }
  destruct (collect_inv _ _ _ H) as (h1 & vm1 & Hm & Hsw & ->).
  assert (heap_le (heap vm) h1
          ∧ (∀ a, marked h1 a ↔
                  dst_vm_fiber vm ≠ 0
                  ∧ reachable_from (heap vm) (RFiber (dst_vm_fiber vm)) a))
    as [Hle Hex].
  { destruct (Z.eqb_spec (dst_vm_fiber vm) 0) as [Ef|Ef].
    - subst h1. split; [apply heap_le_refl|]. intros a. split; [|tauto].
      intros Ha. by destruct (Hnm a).
    - specialize (Hg Ef).
      split; [by apply (mark_ref_heap_le fuel (RFiber (dst_vm_fiber vm)))|].
      intros a. split.
      + intros Ha. split; [done|].
        destruct (mark_precise (S (size (unmarked_set (heap vm)))) (heap vm)
                    (RFiber (dst_vm_fiber vm))) as (f & h2 & E & _ & P);
          [lia|done|].
        rewrite (mark_ref_det _ _ _ _ _ _ Hm E) in Ha.
        destruct (P a Ha) as [H0|Hr]; [by destruct (Hnm a)|done].
      + intros [_ Hr].
        destruct (mark_total (S (size (unmarked_set (heap vm)))) (heap vm)
                    (RFiber (dst_vm_fiber vm))) as (f & h2 & E & L & M & C);
          [lia|done|].
        rewrite (mark_ref_det _ _ _ _ _ _ Hm E).
        by apply (closed_reachable (heap vm) h2 (RFiber (dst_vm_fiber vm)) a). }
  exists h1, vm1. split; [done|]. split; [done|]. split; [done|].
  destruct (sweep_spec (with_heap h1 vm) l (S (length l))) as (vm2 & Hsw2 & Hsp).
  { by apply (heap_le_chain (heap vm)). }
  { intros a Ha _. apply (heap_le_sweepable (heap vm)); auto. }
  { lia. }
  split; [|done]. by rewrite (dst_sweep_det _ _ _ _ _ Hsw Hsw2).
Qed.

(** What becomes of a block of the list in a collection. *)
Lemma collect_block_fate vm (l : list Z) fuel vm' l' a :
  heap_ok vm l → all_clear (heap vm) →
  dst_collect fuel vm = Done vm' →
  chain (heap vm') (dst_vm_blocks vm') l' → a ∈ l →
  let live :=
    pinned (heap vm) a
    ∨ (dst_vm_fiber vm ≠ 0
       ∧ reachable_from (heap vm) (RFiber (dst_vm_fiber vm)) a) in
  (live → a ∈ l' ∧ is_Some (blocks (heap vm') !! a))
  ∧ (¬ live → (a ∉ l') ∧ blocks (heap vm') !! a = None).
Proof.
  intros Hok Hclear H Hch Hin live.
  destruct (collect_run vm l fuel vm' Hok Hclear H)
    as (h1 & vm1 & -> & Hle & Hex & Hsp & _).
  cbn [heap dst_vm_blocks set_next_collection trace] in *.
  assert (Hl' := sweep_post_survivors _ _ _ _ Hsp Hch). cbn [heap with_heap] in Hl'.
  assert (Hk : kept h1 a = true ↔ live).
  { rewrite kept_spec, Hex, (heap_le_pinned _ _ _ Hle). unfold live. tauto. }
  destruct Hsp as (_ & P2 & _).
  cbn [heap with_heap] in *.
  destruct Hok as (Hc & _ & Hs).
  destruct (chain_lookup _ _ _ _ Hc Hin) as [b Hb].
  destruct (heap_le_lookup _ _ _ _ Hle Hb) as (b1 & Hb1 & _).
  specialize (P2 a b1 Hin Hb1).
  assert (Hkb : kept h1 a = keeps (flags b1)) by (unfold kept; by rewrite Hb1).
  rewrite Hl', list_elem_of_filter, <- Hk, Hkb.
  destruct (keeps (flags b1)).
  - destruct P2 as (b' & Hb' & _). rewrite Hb'. split; [by eauto|]. by intros [].
  - split; [done|]. intros _. split; [|done]. by intros [? _].
Qed.

(** X4: a collection frees exactly the garbage.  From a well-formed
    state with every reachable bit clear, a block of the list is gone
    after [dst_collect] if and only if it is neither pinned nor reached
    from the active fiber; with no active fiber every block that is not
    pinned is freed. *)
Theorem collect_frees_exactly_garbage vm (l : list Z) fuel vm' l' a :
  heap_ok vm l → all_clear (heap vm) →
  dst_collect fuel vm = Done vm' →
  chain (heap vm') (dst_vm_blocks vm') l' → a ∈ l →
  let live :=
    pinned (heap vm) a
    ∨ (dst_vm_fiber vm ≠ 0
       ∧ reachable_from (heap vm) (RFiber (dst_vm_fiber vm)) a) in
  (blocks (heap vm') !! a = None ↔ ¬ live)
  ∧ (a ∉ l' ↔ ¬ live)
  ∧ (EvFree a ∈ drop (length (trace vm)) (trace vm') ↔ ¬ live).
Proof.
  intros Hok Hclear H Hch Hin live.
  destruct (collect_block_fate vm l fuel vm' l' a Hok Hclear H Hch Hin)
    as [Hlive Hdead]. fold live in Hlive, Hdead.
  destruct (collect_run vm l fuel vm' Hok Hclear H)
    as (h1 & vm1 & -> & Hle & Hex & Hsp & _).
  cbn [heap dst_vm_blocks set_next_collection trace] in *.
  assert (Hk : kept h1 a = true ↔ live).
  { rewrite kept_spec, Hex, (heap_le_pinned _ _ _ Hle). unfold live. tauto. }
  destruct Hsp as (_ & _ & _ & _ & _ & Htr & _).
  cbn [heap with_heap trace] in *.
  destruct Hok as (Hc & _ & Hs).
  destruct (chain_lookup _ _ _ _ Hc Hin) as [b Hb].
  destruct (heap_le_lookup _ _ _ _ Hle Hb) as (b1 & Hb1 & _).
  assert (Hkb : kept h1 a = keeps (flags b1)) by (unfold kept; by rewrite Hb1).
  split; [|split].
  - split; [|intros Hd; by destruct (Hdead Hd)].
    intros Hnone Hl. destruct (Hlive Hl) as [_ [? Hsome]]. congruence.
  - split; [|intros Hd; by destruct (Hdead Hd)].
    intros Hnin Hl. by destruct (Hlive Hl).
  - rewrite Htr, drop_app_length. rewrite <- Hk. split.
    + intros Hf. apply sweep_events_free in Hf as [_ Hf].
      * by rewrite Hf.
      * by rewrite Hb1.
      * intros x Hx _. apply (heap_le_sweepable (heap vm)); auto.
    + intros Hnk. apply not_true_is_false in Hnk.
      apply list_elem_of_split in Hin as (l1 & l2 & ->).
      rewrite Hkb in Hnk.
      destruct (sweep_events_split h1 0 l1 l2 a b1) as (p & t3 & -> & _);
        [|done|done|].
      { intros x Hx. apply (chain_lookup _ _ _ x (heap_le_chain _ _ _ _ Hle Hc)).
        apply elem_of_app. by left. }
      rewrite !elem_of_app, !elem_of_cons, !elem_of_app, !elem_of_cons. tauto.
Qed.

(** X5: a collection leaves what survives as it was.  From a state with
    every reachable bit clear, a block that is still allocated after
    [dst_collect] has the flags and the object it had before; the
    active fiber and the interner are as before, the allocation counter
    is zero, and the new list is the old one without the blocks that
    were freed, in the same order. *)
Theorem collect_restores_survivors vm (l : list Z) fuel vm' l' :
  heap_ok vm l → all_clear (heap vm) →
  dst_collect fuel vm = Done vm' →
  chain (heap vm') (dst_vm_blocks vm') l' →
  l' = filter (fun a => is_Some (blocks (heap vm') !! a)) l
  ∧ (∀ a b b', a ∈ l → blocks (heap vm) !! a = Some b →
       blocks (heap vm') !! a = Some b' →
       flags b' = flags b ∧ body b' = body b)
  ∧ dst_vm_next_collection vm' = 0
  ∧ dst_vm_fiber vm' = dst_vm_fiber vm
  ∧ dst_vm_cache vm' = dst_vm_cache vm.
Proof.
  intros Hok Hclear H Hch.
  destruct (collect_run vm l fuel vm' Hok Hclear H)
    as (h1 & vm1 & -> & Hle & Hex & Hsp & _).
  cbn [heap dst_vm_blocks set_next_collection dst_vm_next_collection
       dst_vm_fiber dst_vm_cache] in *.
  assert (Hl' := sweep_post_survivors _ _ _ _ Hsp Hch). cbn [heap with_heap] in Hl'.
  destruct Hsp as (_ & P2 & P3 & _ & _ & _ & (_ & G2 & G3)).
  cbn [heap with_heap dst_vm_fiber dst_vm_cache] in *.
  destruct Hok as (Hc & _ & Hs).
  assert (Hblk : ∀ a, a ∈ l → ∃ b b1, blocks (heap vm) !! a = Some b
            ∧ blocks h1 !! a = Some b1 ∧ block_le b b1
            ∧ if keeps (flags b1)
              then ∃ b', blocks (heap vm1) !! a = Some b' ∧ swept b1 b'
              else blocks (heap vm1) !! a = None).
  { intros a Hin. destruct (chain_lookup _ _ _ _ Hc Hin) as [b Hb].
    destruct (heap_le_lookup _ _ _ _ Hle Hb) as (b1 & Hb1 & Hbl).
    exists b, b1. repeat split; try done; try apply Hbl. by apply P2. }
  split; [|split; [|done]].
  - rewrite Hl'. apply filter_ext_elem. intros a Hin.
    destruct (Hblk a Hin) as (b & b1 & Hb & Hb1 & _ & Hsw).
    unfold kept. rewrite Hb1. destruct (keeps (flags b1)).
    + destruct Hsw as (b' & -> & _). split; [by eexists|done].
    + rewrite Hsw. split; [done|]. by intros [? ?].
  - intros a b b' Hin Hb Hb'.
    destruct (Hblk a Hin) as (b0 & b1 & Hb0 & Hb1 & (_ & Hbody & Hf) & Hsw).
    assert (b0 = b) as -> by congruence.
    destruct (keeps (flags b1)); [|congruence].
    destruct Hsw as (b2 & Hb2 & Hf2 & Hbody2).
    assert (b2 = b') as -> by congruence.
    split; [|congruence]. rewrite Hf2.
    pose proof (Hclear a b Hb) as Hu.
    destruct Hf as [->| ->]; [by apply land_clear_unmarked|by apply land_clear_lor].
Qed.

(** ** What a sweep leaves of the blocks it keeps *)

(** X6: the sweeper changes nothing of a block it keeps but the
    reachable bit.  The new list is the old one without the blocks that
    were neither marked nor pinned, in the same order, and each block
    on it has its object, its type tag and its disabled bit as before
    and its reachable bit clear; the allocation counter, the active
    fiber and the interner are not touched. *)
Theorem sweep_keeps_survivors vm (l : list Z) fuel vm' l' :
  chain (heap vm) (dst_vm_blocks vm) l →
  (∀ a, a ∈ l → kept (heap vm) a = false → sweepable (heap vm) a) →
  dst_sweep fuel vm = Done vm' →
  chain (heap vm') (dst_vm_blocks vm') l' →
  l' = filter (fun a => kept (heap vm) a = true) l
  ∧ (∀ a b, a ∈ l' → blocks (heap vm) !! a = Some b →
       ∃ b', blocks (heap vm') !! a = Some b'
             ∧ body b' = body b
             ∧ Z.land (flags b') DST_MEM_TYPEBITS = Z.land (flags b) DST_MEM_TYPEBITS
             ∧ disabled_bit (flags b') = disabled_bit (flags b)
             ∧ reachable_bit (flags b') = false)
  ∧ same_globals vm vm'.
Proof.
  intros Hc Hs H Hch.
  destruct (sweep_spec vm l (S (length l)) Hc Hs ltac:(lia)) as (vm2 & H2 & Hsp).
  rewrite (dst_sweep_det _ _ _ _ _ H H2) in *.
  assert (Hl' := sweep_post_survivors _ _ _ _ Hsp Hch).
  destruct Hsp as (_ & P2 & _ & _ & _ & _ & G).
  split; [done|]. split; [|done].
  intros a b Hin Hb. rewrite Hl' in Hin.
  apply list_elem_of_filter in Hin as [Hk Hin]. unfold kept in Hk. rewrite Hb in Hk.
  specialize (P2 a b Hin Hb). rewrite Hk in P2.
  destruct P2 as (b' & Hb' & Hf & Hbody). exists b'.
  rewrite Hf, typebits_clear, disabled_bit_clear, reachable_bit_clear. done.
Qed.

(** ** The secondary memory *)

Lemma replay_frees_app evs1 evs2 m :
  replay_frees (evs1 ++ evs2) m = replay_frees evs2 (replay_frees evs1 m).
Proof. apply foldl_app. Qed.

Lemma replay_frees_freed evs m p :
  EvFree p ∈ evs → replay_frees evs m !! p = None.
Proof.
  induction evs as [|e evs IH] using rev_ind; intros Hin.
  - by apply elem_of_nil in Hin.
  - rewrite replay_frees_app. cbn [replay_frees foldl].
    apply elem_of_app in Hin as [Hin|Hin].
    + specialize (IH Hin). destruct e; try done.
      destruct (decide (p0 = p)) as [->|Hne];
        [apply lookup_delete_eq|by rewrite lookup_delete_ne].
    + apply list_elem_of_singleton in Hin as <-. apply lookup_delete_eq.
Qed.

Lemma replay_frees_other evs m p :
  EvFree p ∉ evs → replay_frees evs m !! p = m !! p.
Proof.
  induction evs as [|e evs IH] using rev_ind; intros Hin; [done|].
  rewrite replay_frees_app. cbn [replay_frees foldl].
  rewrite elem_of_app, list_elem_of_singleton in Hin.
  assert (Hm : replay_frees evs m !! p = m !! p) by (apply IH; tauto).
  destruct e; try done. rewrite lookup_delete_ne; [done|].
  intros ->. tauto.
Qed.

(** The finalizer changes the secondary memory by its calls of [free]
    and in no other way. *)
Lemma deinit_bufs a vm vm' :
  dst_deinit_block a vm = Done vm' →
  ∃ evs, trace vm' = trace vm ++ evs
         ∧ bufs (heap vm') = replay_frees evs (bufs (heap vm)).
Proof.
  unfold dst_deinit_block. intros H. crunch; cbn [heap emit] in *;
    cbn; rewrite <- ?app_assoc; eexists; (split; [reflexivity|]); done.
Qed.

Lemma sweep_loop_bufs fuel : ∀ previous current vm vm',
  dst_sweep_loop fuel previous current vm = Done vm' →
  ∃ evs, trace vm' = trace vm ++ evs
         ∧ bufs (heap vm') = replay_frees evs (bufs (heap vm)).
Proof.
  induction fuel as [|fuel IH]; intros previous current vm vm' H; [done|].
  cbn [dst_sweep_loop] in H.
  destruct (current =? 0).
  { injection H as <-. exists []. by rewrite app_nil_r. }
  bind_inv H. bind_inv H.
  destruct (negb _) in E0.
  - injection E0 as <-. cbn [fst snd] in H.
    apply IH in H as (evs & Ht & Hb). cbn in Ht, Hb.
    exists (EvStore current FFlags :: evs). rewrite <- app_assoc in Ht.
    split; [done|]. by rewrite Hb.
  - bind_inv E0. injection E0 as <-. cbn [fst snd] in H.
    apply deinit_bufs in E1 as (evs1 & Ht1 & Hb1).
    apply IH in H as (evs & Ht & Hb).
    destruct (negb (previous =? 0)); cbn in Ht, Hb;
      rewrite Ht1, Hb1 in *; rewrite <- ?app_assoc in Ht; cbn [app] in Ht;
      eexists; (split; [exact Ht|]); rewrite Hb, !replay_frees_app; done.
Qed.

Lemma sweep_bufs_trace vm (l : list Z) fuel vm' :
  chain (heap vm) (dst_vm_blocks vm) l →
  (∀ a, a ∈ l → kept (heap vm) a = false → sweepable (heap vm) a) →
  dst_sweep fuel vm = Done vm' →
  bufs (heap vm') = replay_frees (sweep_events (heap vm) 0 l) (bufs (heap vm)).
Proof.
  intros Hc Hs H.
  destruct (sweep_spec vm l (S (length l)) Hc Hs ltac:(lia)) as (vm2 & H2 & Hsp).
  rewrite (dst_sweep_det _ _ _ _ _ H H2) in *.
  destruct Hsp as (_ & _ & _ & _ & _ & Htr & _).
  destruct (sweep_loop_bufs _ _ _ _ _ H2) as (evs & Ht & Hb).
  rewrite Htr in Ht. apply app_inv_head in Ht. by subst evs.
Qed.

(** An allocation that no freed block owned outlives the sweep. *)
Lemma sweep_bufs_kept vm (l : list Z) fuel vm' p :
  chain (heap vm) (dst_vm_blocks vm) l →
  (∀ a, a ∈ l → kept (heap vm) a = false → sweepable (heap vm) a) →
  dst_sweep fuel vm = Done vm' →
  (∀ a b, a ∈ l → blocks (heap vm) !! a = Some b →
          keeps (flags b) = false → p ≠ a ∧ p ∉ owned (body b)) →
  bufs (heap vm') !! p = bufs (heap vm) !! p.
Proof.
  intros Hc Hs H Hp. rewrite (sweep_bufs_trace vm l fuel vm' Hc Hs H).
  apply replay_frees_other.
  intros Hf. apply sweep_events_elem in Hf as [(x & f & [=])|Hf].
  destruct Hf as (x & bx & Hx & Hbx & Hkx & [[=]|[[= ->]|Hd]]).
  - by destruct (Hp x bx).
  - apply deinit_events_elem in Hd as (_ & _ & Hd).
    destruct (Hp x bx) as [_ Hno]; try done. by apply Hno, Hd.
Qed.

(** X7: the sweeper gives back the secondary allocations of the blocks
    it frees and no other.  After [dst_sweep] every array the object of
    a freed block owned is gone, and an allocation that no freed block
    owned, and that is not such a block itself, is what it was. *)
Theorem sweep_frees_owned_buffers vm (l : list Z) fuel vm' :
  chain (heap vm) (dst_vm_blocks vm) l →
  (∀ a, a ∈ l → kept (heap vm) a = false → sweepable (heap vm) a) →
  dst_sweep fuel vm = Done vm' →
  (∀ a b p, a ∈ l → blocks (heap vm) !! a = Some b → keeps (flags b) = false →
            p ∈ owned (body b) → bufs (heap vm') !! p = None)
  ∧ (∀ p, (∀ a b, a ∈ l → blocks (heap vm) !! a = Some b →
                  keeps (flags b) = false → p ≠ a ∧ p ∉ owned (body b)) →
          bufs (heap vm') !! p = bufs (heap vm) !! p).
Proof.
  intros Hc Hs H. split; [|intros p; by apply (sweep_bufs_kept vm l fuel)].
  intros a b p Hin Hblk Hk Hp. rewrite (sweep_bufs_trace vm l fuel vm' Hc Hs H).
  apply replay_frees_freed.
  apply list_elem_of_split in Hin as (l1 & l2 & ->).
  destruct (sweep_events_split (heap vm) 0 l1 l2 a b) as (q & t3 & -> & _);
    [|done|done|].
  { intros x Hx. apply (chain_lookup _ _ _ x Hc). apply elem_of_app. by left. }
  apply elem_of_app. right. right. apply elem_of_app. left.
  unfold deinit_events.
  destruct (body b); try (by apply elem_of_nil in Hp);
    by apply (list_elem_of_fmap_2 EvFree).
Qed.

(** ** Finalizer hooks and the interner *)

Lemma sweep_events_own h previous (l : list Z) a b (Q : Event → Prop) :
  NoDup l → a ∈ l → (∀ x, x ∈ l → is_Some (blocks h !! x)) →
  blocks h !! a = Some b → keeps (flags b) = false →
  (∀ e, Q e → (∀ x, e ≠ EvDeinit x) ∧ (∀ x, e ≠ EvFree x) ∧ ∀ x f, e ≠ EvStore x f) →
  (∀ x bx e, x ∈ l → blocks h !! x = Some bx → Q e →
             e ∈ deinit_events x bx → x = a) →
  ∃ t1 t2 t3, sweep_events h previous l
              = t1 ++ deinit_events a b ++ t2 ++ EvFree a :: t3
              ∧ ∀ e, Q e → e ∉ t1 ++ t2 ++ t3.
Proof.
  intros Hnd Hin Hall Hb Hk Hq Hown.
  apply list_elem_of_split in Hin as (l1 & l2 & ->).
  apply NoDup_app in Hnd as (_ & Hd1 & Hd2%NoDup_cons).
  destruct Hd2 as [Hd2 _].
  destruct (sweep_events_split h previous l1 l2 a b) as (p & t3 & -> & ->);
    [|done|done|].
  { intros x Hx. apply Hall. apply elem_of_app. by left. }
  exists (sweep_events h previous l1 ++ [EvDeinit a]),
    (if p =? 0 then [] else [EvStore p FNext]),
    (EvStore a FFlags :: sweep_events h p l2).
  split; [by rewrite <- !app_assoc|].
  intros e He Hin. destruct (Hq e He) as (Q1 & Q2 & Q3).
  assert (Hno : ∀ pv l', (∀ x, x ∈ l' → x ∈ l1 ++ a :: l2 ∧ x ≠ a) →
                         e ∉ sweep_events h pv l').
  { intros pv l' Hl' Hf. apply sweep_events_elem in Hf as [(x & f & ->)|Hf].
    - by destruct (Q3 x f).
    - destruct Hf as (x & bx & Hx & Hbx & _ & [->|[->|Hd]]).
      + by destruct (Q1 x).
      + by destruct (Q2 x).
      + destruct (Hl' x Hx) as [Hx' Hne]. apply Hne. by eapply Hown. }
  rewrite !elem_of_app, !elem_of_cons in Hin.
  destruct Hin as [[Hin|Hin]|[Hin|[Hin|Hin]]].
  - revert Hin. apply Hno. intros x Hx. split; [apply elem_of_app; by left|].
    intros ->. apply (Hd1 a Hx). left.
  - destruct Hin as [Hin|Hin]; [by destruct (Q1 a)|by apply elem_of_nil in Hin].
  - destruct (p =? 0); [by apply elem_of_nil in Hin|].
    apply list_elem_of_singleton in Hin. by destruct (Q3 p FNext).
  - by destruct (Q3 a FFlags).
  - revert Hin. apply Hno. intros x Hx.
    split; [apply elem_of_app; right; by right|]. by intros ->.
Qed.

Lemma sweep_events_none h previous (l : list Z) (Q : Event → Prop) :
  (∀ e, Q e → (∀ x, e ≠ EvDeinit x) ∧ (∀ x, e ≠ EvFree x) ∧ ∀ x f, e ≠ EvStore x f) →
  (∀ x bx e, x ∈ l → blocks h !! x = Some bx → keeps (flags bx) = false → Q e →
             e ∉ deinit_events x bx) →
  ∀ e, Q e → e ∉ sweep_events h previous l.
Proof.
  intros Hq Hown e He Hf. destruct (Hq e He) as (Q1 & Q2 & Q3).
  apply sweep_events_elem in Hf as [(x & f & ->)|Hf].
  - by destruct (Q3 x f).
  - destruct Hf as (x & bx & Hx & Hbx & Hk & [->|[->|Hd]]).
    + by destruct (Q1 x).
    + by destruct (Q2 x).
    + by apply (Hown x bx e).
Qed.

Lemma finalizes_kind a e :
  finalizes a e →
  (∀ x, e ≠ EvDeinit x) ∧ (∀ x, e ≠ EvFree x) ∧ ∀ x f, e ≠ EvStore x f.
Proof. intros (fn & sz & ->). done. Qed.

Lemma uncaches_kind a e :
  uncaches a e →
  (∀ x, e ≠ EvDeinit x) ∧ (∀ x, e ≠ EvFree x) ∧ ∀ x f, e ≠ EvStore x f.
Proof. intros (v & -> & _). done. Qed.

Lemma finalizes_own a x bx e :
  finalizes a e → e ∈ deinit_events x bx →
  x = a ∧ ∃ u, body bx = UserdataBody u ∧ finalize u ≠ 0.
Proof.
  intros (fn & sz & ->). unfold deinit_events.
  destruct (body bx) eqn:Eb; cbn [owned map];
    repeat match goal with
      | |- context [if ?c then _ else _] => destruct c eqn:?
      end;
    cbn [map]; rewrite ?elem_of_cons; intros Hin;
    repeat match goal with
      | H : _ ∨ _ |- _ => destruct H as [H|H]
      end;
    try discriminate; try (by apply elem_of_nil in Hin).
  injection Hin as _ Hp _. unfold sizeof_DstGCMemoryHeader, sizeof_DstUserdataHeader in *.
  split; [lia|]. exists u. split; [done|]. by apply Z.eqb_neq.
Qed.

Lemma uncaches_own a x bx e :
  uncaches a e → e ∈ deinit_events x bx →
  x = a ∧ (body bx = StringBody
             ∧ Z.land (flags bx) DST_MEM_TYPEBITS = mem_tag DST_MEMORY_STRING
           ∨ (∃ n d, body bx = TupleBody n d) ∨ (∃ n d, body bx = StructBody n d)).
Proof.
  intros (v & -> & Hv). unfold deinit_events.
  destruct (body bx) eqn:Eb; cbn [owned map];
    repeat match goal with
      | |- context [if ?c then _ else _] => destruct c eqn:?
      end;
    cbn [map]; rewrite ?elem_of_cons; intros Hin;
    repeat match goal with
      | H : _ ∨ _ |- _ => destruct H as [H|H]
      end;
    try discriminate; try (by apply elem_of_nil in Hin);
    injection Hin as ->; cbn in Hv;
    (split; [unfold sizeof_DstGCMemoryHeader in *; lia|]).
  - left. split; [done|]. by apply Z.eqb_eq.
  - right. left. eauto.
  - right. right. eauto.
Qed.

(** X8: the sweeper calls the finalizer hook of a user-data block it
    frees exactly once, on the user memory and with the recorded size,
    before the block is given back; a block without a hook, and a block
    that is kept, sees no such call. *)
Theorem sweep_finalizes_userdata_once vm (l : list Z) fuel vm' evs a b :
  chain (heap vm) (dst_vm_blocks vm) l →
  (∀ a, a ∈ l → kept (heap vm) a = false → sweepable (heap vm) a) →
  dst_sweep fuel vm = Done vm' → new_events vm vm' evs →
  a ∈ l → blocks (heap vm) !! a = Some b →
  match body b with
  | UserdataBody u =>
      if keeps (flags b) || (finalize u =? 0)
      then ∀ e, finalizes a e → e ∉ evs
      else once_before_free evs
             (EvFinalize (finalize u)
                (a + sizeof_DstGCMemoryHeader + sizeof_DstUserdataHeader)
                (userdata_size u)) a (finalizes a)
  | _ => ∀ e, finalizes a e → e ∉ evs
  end.
Proof.
  intros Hc Hs H Hev Hin Hb.
  destruct (sweep_spec vm l (S (length l)) Hc Hs ltac:(lia)) as (vm2 & H2 & Hsp).
  rewrite (dst_sweep_det _ _ _ _ _ H H2) in *.
  destruct Hsp as (_ & _ & _ & _ & _ & Htr & _).
  unfold new_events in Hev. rewrite Htr in Hev. apply app_inv_head in Hev. subst evs.
  assert (Hnone : (∀ u, body b = UserdataBody u →
                        keeps (flags b) || (finalize u =? 0) = true) →
                  ∀ e, finalizes a e → e ∉ sweep_events (heap vm) 0 l).
  { intros Hcase. apply sweep_events_none; [apply finalizes_kind|].
    intros x bx e Hx Hbx Hk He Hd.
    destruct (finalizes_own _ _ _ _ He Hd) as (-> & u & Hu & Hfin).
    assert (bx = b) as -> by congruence.
    specialize (Hcase u Hu). rewrite Hk in Hcase. simpl in Hcase.
    by apply Z.eqb_eq in Hcase. }
  destruct (body b) as [| | | | | | | | |u| |] eqn:Eb;
    try (apply Hnone; intros; discriminate).
  destruct (keeps (flags b) || (finalize u =? 0)) eqn:Ecase.
  { apply Hnone. by intros ? [= <-]. }
  apply orb_false_iff in Ecase as [Hk Hfin].
  destruct (sweep_events_own (heap vm) 0 l a b (finalizes a))
    as (t1 & t2 & t3 & Hsplit & Hno); try done.
  - by eapply chain_NoDup.
  - intros x Hx. by eapply chain_lookup.
  - apply finalizes_kind.
  - intros x bx e _ _ He Hd. by destruct (finalizes_own _ _ _ _ He Hd).
  - exists t1, t2, t3. split; [|done]. rewrite Hsplit.
    unfold deinit_events. by rewrite Eb, Hfin.
Qed.

(** X9: the sweeper takes an interned value out of the interner exactly
    once before it frees the block of the value: a string, a tuple or a
    struct.  For a block it keeps, and for a block of any other type
    (a symbol among them), it never calls the interner. *)
Theorem sweep_uncaches_interned_once vm (l : list Z) fuel vm' evs a b :
  chain (heap vm) (dst_vm_blocks vm) l →
  (∀ a, a ∈ l → sweepable (heap vm) a) →
  dst_sweep fuel vm = Done vm' → new_events vm vm' evs →
  a ∈ l → blocks (heap vm) !! a = Some b →
  let t := Z.land (flags b) DST_MEM_TYPEBITS in
  let smem := a + sizeof_DstGCMemoryHeader + 8 in
  if keeps (flags b) then ∀ e, uncaches a e → e ∉ evs
  else if t =? mem_tag DST_MEMORY_STRING
  then once_before_free evs (EvCacheRemove (dst_wrap_string smem)) a (uncaches a)
  else if t =? mem_tag DST_MEMORY_TUPLE
  then once_before_free evs (EvCacheRemove (dst_wrap_tuple smem)) a (uncaches a)
  else if t =? mem_tag DST_MEMORY_STRUCT
  then once_before_free evs (EvCacheRemove (dst_wrap_struct smem)) a (uncaches a)
  else ∀ e, uncaches a e → e ∉ evs.
Proof.
  intros Hc Hs H Hev Hin Hb t smem.
  destruct (sweep_spec vm l (S (length l)) Hc ltac:(auto) ltac:(lia))
    as (vm2 & H2 & Hsp).
  rewrite (dst_sweep_det _ _ _ _ _ H H2) in *.
  destruct Hsp as (_ & _ & _ & _ & _ & Htr & _).
  unfold new_events in Hev. rewrite Htr in Hev. apply app_inv_head in Hev. subst evs.
  destruct (Hs a Hin b Hb) as [(tg & Htg & Htag) _]. fold t in Htag.
  assert (Hnone : (keeps (flags b) = false → body b = StringBody →
                   t ≠ mem_tag DST_MEMORY_STRING) →
                  (keeps (flags b) = false → ∀ n d, body b ≠ TupleBody n d) →
                  (keeps (flags b) = false → ∀ n d, body b ≠ StructBody n d) →
                  ∀ e, uncaches a e → e ∉ sweep_events (heap vm) 0 l).
  { intros N1 N2 N3. apply sweep_events_none; [apply uncaches_kind|].
    intros x bx e Hx Hbx Hk He Hd.
    destruct (uncaches_own _ _ _ _ He Hd) as (-> & Hkind).
    assert (bx = b) as -> by congruence.
    destruct Hkind as [[Hbody Ht]|[(n & d & Hbody)|(n & d & Hbody)]].
    - by apply N1.
    - by apply (N2 Hk n d).
    - by apply (N3 Hk n d). }
  destruct (keeps (flags b)) eqn:Hk.
  { by apply Hnone. }
  assert (Hown : ∀ e, deinit_events a b = [e] →
                      once_before_free (sweep_events (heap vm) 0 l) e a (uncaches a)).
  { intros e Hd.
    destruct (sweep_events_own (heap vm) 0 l a b (uncaches a))
      as (t1 & t2 & t3 & Hsplit & Hno); try done.
    - by eapply chain_NoDup.
    - intros x Hx. by eapply chain_lookup.
    - apply uncaches_kind.
    - intros x bx e' _ _ He Hd'. by destruct (uncaches_own _ _ _ _ He Hd').
    - exists t1, t2, t3. split; [|done]. by rewrite Hsplit, Hd. }
  unfold deinit_events in Hown. fold smem in Hown. fold t in Hown.
  destruct (body b) eqn:Eb; cbn [body_tags] in Htg;
    repeat (apply elem_of_cons in Htg as [->|Htg]);
    try (by apply elem_of_nil in Htg);
    rewrite Htag in *; cbn [mem_tag Z.eqb Pos.eqb] in *;
    try (by apply Hown);
    apply Hnone; intros; try discriminate; done.
Qed.

(** * Teardown *)

Lemma dst_clear_memory_loop_mono fuel fuel' current vm vm' :
  (fuel ≤ fuel')%nat →
  dst_clear_memory_loop fuel current vm = Done vm' →
  dst_clear_memory_loop fuel' current vm = Done vm'.
Proof.
  revert fuel' current vm. induction fuel as [|fuel IH];
    intros fuel' current vm Hle H; [done|].
  destruct fuel' as [|fuel']; [lia|]. cbn [dst_clear_memory_loop] in *.
  destruct (current =? 0); [done|].
  bind_inv H. rewrite E. cbn [res_bind]. bind_inv H. rewrite E0.
  cbn [load res_bind]. apply IH; [lia|done].
Qed.

Lemma dst_clear_memory_loop_det fuel fuel' current vm vm1 vm2 :
  dst_clear_memory_loop fuel current vm = Done vm1 →
  dst_clear_memory_loop fuel' current vm = Done vm2 → vm1 = vm2.
Proof.
  intros H1 H2.
  apply (dst_clear_memory_loop_mono _ (fuel `max` fuel')) in H1; [|lia].
  apply (dst_clear_memory_loop_mono _ (fuel `max` fuel')) in H2; [|lia].
  congruence.
Qed.

Lemma clear_events_ext h h' (l : list Z) :
  (∀ a, a ∈ l → blocks h' !! a = blocks h !! a) →
  clear_events h' l = clear_events h l.
Proof.
  induction l as [|a l IH]; intros Hl; [done|]. cbn [clear_events].
  rewrite (Hl a) by left. destruct (blocks h !! a); [|done].
  rewrite IH; [done|]. intros x Hx. apply Hl. by right.
Qed.

Lemma clear_loop_spec (l : list Z) : ∀ fuel current vm,
  chain (heap vm) current l →
  (∀ a, a ∈ l → sweepable (heap vm) a) →
  (length l < fuel)%nat →
  ∃ vm', dst_clear_memory_loop fuel current vm = Done vm'
         ∧ (∀ a, a ∈ l → blocks (heap vm') !! a = None)
         ∧ (∀ a, a ∉ l → blocks (heap vm') !! a = blocks (heap vm) !! a)
         ∧ trace vm' = trace vm ++ clear_events (heap vm) l
         ∧ dst_vm_blocks vm' = dst_vm_blocks vm
         ∧ same_globals vm vm'.
Proof.
  induction l as [|a l IH]; intros fuel current vm Hc Hs Hfuel.
  - simpl in Hc. subst current. destruct fuel as [|fuel]; [simpl in Hfuel; lia|].
    exists vm. simpl. rewrite app_nil_r.
    split; [done|]. split; [by intros a ?%elem_of_nil|].
    split; [done|]. split; [done|]. split; [done|]. apply same_globals_refl.
  - destruct Hc as (-> & Hnz & b & Hb & Hc).
    destruct fuel as [|fuel]; [simpl in Hfuel; lia|].
    pose proof (chain_NoDup _ a (a :: l)
                  (conj eq_refl (conj Hnz (ex_intro _ b (conj Hb Hc))))) as Hnd.
    apply NoDup_cons in Hnd as [Hnin Hnd].
    destruct (Hs a ltac:(left) b Hb) as [Hw Hown].
    destruct (deinit_spec a b vm Hb Hw Hown) as (vm1 & Hd & Ht1 & Hb1 & Hh1 & G1).
    cbn [dst_clear_memory_loop]. apply Z.eqb_neq in Hnz. rewrite Hnz.
    rewrite Hd. cbn [res_bind]. rewrite Hb1, Hb. cbn [load res_bind].
    destruct (IH fuel (next b) (free a vm1)) as (vm' & Hrun & P1 & P2 & Ht & Hh & G).
    + apply (chain_ext (heap vm)); [|done]. intros x Hx.
      rewrite free_lookup, decide_False by (intros ->; done). by rewrite Hb1.
    + intros x Hx. apply (sweepable_ext (heap vm)).
      * rewrite free_lookup, decide_False by (intros ->; done). by rewrite Hb1.
      * intros p Hp. rewrite free_lookup. destruct (decide (p = a)); [done|].
        by rewrite Hb1.
      * apply Hs. by right.
    + simpl in Hfuel. lia.
    + exists vm'. split; [done|]. split; [|split; [|split; [|split]]].
      * intros x [->|Hx]%elem_of_cons; [|by apply P1].
        rewrite (P2 a Hnin), free_lookup. by rewrite decide_True.
      * intros x Hx. apply not_elem_of_cons in Hx as [Hne Hx].
        rewrite (P2 x Hx), free_lookup, decide_False by done. by rewrite Hb1.
      * rewrite Ht. cbn [trace free emit with_heap]. rewrite Ht1.
        cbn [clear_events]. rewrite Hb. rewrite <- !app_assoc. cbn [app].
        rewrite (clear_events_ext (heap vm) (heap (free a vm1))); [done|].
        intros x Hx. rewrite free_lookup, decide_False by (intros ->; done).
        by rewrite Hb1.
      * by rewrite Hh.
      * eapply same_globals_trans; [exact G1|].
        eapply same_globals_trans; [|exact G]. done.
Qed.

Lemma clear_events_elem h (l : list Z) e :
  e ∈ clear_events h l →
  ∃ x bx, x ∈ l ∧ blocks h !! x = Some bx
          ∧ (e = EvDeinit x ∨ e = EvFree x ∨ e ∈ deinit_events x bx).
Proof.
  induction l as [|a l IH]; cbn [clear_events]; [by intros ?%elem_of_nil|].
  destruct (blocks h !! a) as [b|] eqn:Hb; [|by intros ?%elem_of_nil].
  rewrite elem_of_cons, elem_of_app, elem_of_cons.
  intros [->|[Hd|[->|Hin]]].
  - exists a, b. split; [left|]. auto.
  - exists a, b. split; [left|]. auto.
  - exists a, b. split; [left|]. auto.
  - destruct (IH Hin) as (x & bx & Hx & Hbx & Hk). exists x, bx.
    split; [by right|]. auto.
Qed.

Lemma clear_events_split h (l1 l2 : list Z) a b :
  (∀ x, x ∈ l1 → is_Some (blocks h !! x)) → blocks h !! a = Some b →
  clear_events h (l1 ++ a :: l2)
  = clear_events h l1 ++ EvDeinit a :: deinit_events a b
      ++ EvFree a :: clear_events h l2.
Proof.
  intros Hall Hb. induction l1 as [|x l1 IH]; cbn [app clear_events].
  - by rewrite Hb.
  - destruct (Hall x ltac:(left)) as [bx ->].
    rewrite IH by (intros y Hy; apply Hall; by right).
    cbn [app]. by rewrite <- !app_assoc.
Qed.

(** X10: [dst_clear_memory] frees everything.  On a well-formed list it
    returns; afterwards the list is empty and no block of it is still
    allocated, whatever its reachable and disabled bits were; a block
    that was not on the list is not touched, and the allocation
    counter, the active fiber and the interner are as before. *)
Theorem clear_memory_frees_all vm (l : list Z) :
  chain (heap vm) (dst_vm_blocks vm) l →
  (∀ a, a ∈ l → sweepable (heap vm) a) →
  (∃ vm', dst_clear_memory (S (length l)) vm = Done vm')
  ∧ ∀ fuel vm', dst_clear_memory fuel vm = Done vm' →
      dst_vm_blocks vm' = 0
      ∧ (∀ a, a ∈ l → blocks (heap vm') !! a = None)
      ∧ (∀ a, a ∉ l → blocks (heap vm') !! a = blocks (heap vm) !! a)
      ∧ same_globals vm vm'.
Proof.
  intros Hc Hs.
  destruct (clear_loop_spec l (S (length l)) (dst_vm_blocks vm) vm Hc Hs ltac:(lia))
    as (vm1 & Hrun & P1 & P2 & Ht & Hh & G).
  split.
  { eexists. unfold dst_clear_memory. by rewrite Hrun. }
  intros fuel vm' H. unfold dst_clear_memory in H. bind_inv H. injection H as <-.
  assert (x = vm1) as -> by (by eapply dst_clear_memory_loop_det).
  done.
Qed.

Lemma clear_run vm (l : list Z) fuel vm' :
  chain (heap vm) (dst_vm_blocks vm) l →
  (∀ a, a ∈ l → sweepable (heap vm) a) →
  dst_clear_memory fuel vm = Done vm' →
  trace vm' = trace vm ++ clear_events (heap vm) l.
Proof.
  intros Hc Hs H.
  destruct (clear_loop_spec l (S (length l)) (dst_vm_blocks vm) vm Hc Hs ltac:(lia))
    as (vm1 & Hrun & _ & _ & Ht & _).
  unfold dst_clear_memory in H. bind_inv H. injection H as <-.
  assert (x = vm1) as -> by (by eapply dst_clear_memory_loop_det).
  done.
Qed.

Lemma clear_events_no_free h (l : list Z) a :
  a ∉ l → is_Some (blocks h !! a) → (∀ x, x ∈ l → sweepable h x) →
  EvFree a ∉ clear_events h l.
Proof.
  intros Hnin Ha Hs Hin.
  apply clear_events_elem in Hin as (x & bx & Hx & Hbx & [[=]|[[= ->]|Hd]]); [done|].
  apply deinit_events_elem in Hd as (_ & _ & Hd).
  destruct (Hs x Hx bx Hbx) as [_ Hown].
  rewrite (Hown a) in Ha by (by apply Hd). by destruct Ha.
Qed.

Lemma clear_events_no_deinit h (l : list Z) a :
  a ∉ l → EvDeinit a ∉ clear_events h l.
Proof.
  intros Hnin Hin.
  apply clear_events_elem in Hin as (x & bx & Hx & Hbx & [[= ->]|[[=]|Hd]]); [done|].
  apply deinit_events_elem in Hd as (Hd & _). by destruct (Hd a).
Qed.

(** X11: [dst_clear_memory] finalizes every block of the list exactly
    once and then frees it exactly once, and it never writes to a
    header: no store follows the [free] of a block, unlike in the
    sweeper. *)
Theorem clear_memory_finalizes_each_once vm (l : list Z) fuel vm' evs a :
  chain (heap vm) (dst_vm_blocks vm) l →
  (∀ a, a ∈ l → sweepable (heap vm) a) →
  dst_clear_memory fuel vm = Done vm' → new_events vm vm' evs →
  a ∈ l →
  (∃ t1 t2 t3, evs = t1 ++ EvDeinit a :: t2 ++ EvFree a :: t3
               ∧ (EvDeinit a ∉ t1 ++ t2 ++ t3) ∧ (EvFree a ∉ t1 ++ t2 ++ t3))
  ∧ ∀ x f, EvStore x f ∉ evs.
Proof.
  intros Hc Hs H Hev Hin.
  pose proof (clear_run vm l fuel vm' Hc Hs H) as Ht.
  unfold new_events in Hev. rewrite Ht in Hev. apply app_inv_head in Hev. subst evs.
  split.
  - pose proof (chain_NoDup _ _ _ Hc) as Hnd.
    destruct (chain_lookup _ _ _ _ Hc Hin) as [b Hb].
    destruct (Hs a Hin b Hb) as [_ Hown].
    apply list_elem_of_split in Hin as (l1 & l2 & ->).
    apply NoDup_app in Hnd as (_ & Hd1 & Hd2%NoDup_cons). destruct Hd2 as [Hd2 _].
    rewrite (clear_events_split _ l1 l2 a b); [|
      intros x Hx; apply (chain_lookup _ _ _ x Hc); apply elem_of_app; by left|done].
    exists (clear_events (heap vm) l1), (deinit_events a b), (clear_events (heap vm) l2).
    split; [done|].
    assert (Hn1 : a ∉ l1).
    { intros Hx. apply (Hd1 a Hx). left. }
    assert (Hsub : ∀ l', l' = l1 ∨ l' = l2 → ∀ x, x ∈ l' → sweepable (heap vm) x).
    { intros l' [->| ->] x Hx; apply Hs, elem_of_app; [by left|right; by right]. }
    split.
    + rewrite !elem_of_app. intros [Hx|[Hx|Hx]].
      * by apply clear_events_no_deinit in Hx.
      * apply deinit_events_elem in Hx as (Hx & _). by destruct (Hx a).
      * by apply clear_events_no_deinit in Hx.
    + rewrite !elem_of_app. intros [Hx|[Hx|Hx]].
      * apply clear_events_no_free in Hx; [done|done|by rewrite Hb|].
        apply Hsub. by left.
      * apply deinit_events_elem in Hx as (_ & _ & Hx).
        specialize (Hx a eq_refl). by rewrite (Hown a Hx) in Hb.
      * apply clear_events_no_free in Hx; [done|done|by rewrite Hb|].
        apply Hsub. by right.
  - intros x f Hx.
    apply clear_events_elem in Hx as (y & by_ & _ & _ & [[=]|[[=]|Hd]]).
    apply deinit_events_elem in Hd as (_ & Hd & _). by destruct (Hd x f).
Qed.

(** X12: tearing down twice is tearing down once.  After
    [dst_clear_memory] has returned a second call returns at once and
    changes nothing: no block is finalized or freed again. *)
Theorem clear_memory_idempotent fuel vm vm' :
  dst_clear_memory fuel vm = Done vm' → dst_clear_memory 1 vm' = Done vm'.
Proof.
  unfold dst_clear_memory. intros H. bind_inv H. by injection H as <-.
Qed.

Lemma clear_loop_bufs fuel : ∀ current vm vm',
  dst_clear_memory_loop fuel current vm = Done vm' →
  ∃ evs, trace vm' = trace vm ++ evs
         ∧ bufs (heap vm') = replay_frees evs (bufs (heap vm)).
Proof.
  induction fuel as [|fuel IH]; intros current vm vm' H; [done|].
  cbn [dst_clear_memory_loop] in H.
  destruct (current =? 0).
  { injection H as <-. exists []. by rewrite app_nil_r. }
  bind_inv H. bind_inv H.
  apply deinit_bufs in E as (evs1 & Ht1 & Hb1).
  apply IH in H as (evs & Ht & Hb). cbn in Ht, Hb.
  rewrite Ht1, Hb1 in *. rewrite <- !app_assoc in Ht.
  eexists. split; [exact Ht|]. by rewrite Hb, !replay_frees_app.
Qed.

(** X13: teardown gives back the secondary allocations as well.  After
    [dst_clear_memory] every array the object of a block of the list
    owned is gone, and an allocation that no block of the list owned,
    and that is no block of the list, is what it was. *)
Theorem clear_memory_frees_owned_buffers vm (l : list Z) fuel vm' :
  chain (heap vm) (dst_vm_blocks vm) l →
  (∀ a, a ∈ l → sweepable (heap vm) a) →
  dst_clear_memory fuel vm = Done vm' →
  (∀ a b p, a ∈ l → blocks (heap vm) !! a = Some b → p ∈ owned (body b) →
            bufs (heap vm') !! p = None)
  ∧ (∀ p, p ∉ l →
          (∀ a b, a ∈ l → blocks (heap vm) !! a = Some b → p ∉ owned (body b)) →
          bufs (heap vm') !! p = bufs (heap vm) !! p).
Proof.
  intros Hc Hs H.
  pose proof (clear_run vm l fuel vm' Hc Hs H) as Ht.
  unfold dst_clear_memory in H. bind_inv H. injection H as <-.
  destruct (clear_loop_bufs _ _ _ _ E) as (evs & Ht' & Hb).
  cbn [trace heap set_blocks_head] in *.
  rewrite Ht in Ht'. apply app_inv_head in Ht'. subst evs.
  split.
  - intros a b p Hin Hblk Hp. rewrite Hb. apply replay_frees_freed.
    apply list_elem_of_split in Hin as (l1 & l2 & ->).
    rewrite (clear_events_split _ l1 l2 a b); [|
      intros y Hy; apply (chain_lookup _ _ _ y Hc); apply elem_of_app; by left|done].
    apply elem_of_app. right. right. apply elem_of_app. left.
    unfold deinit_events.
    destruct (body b); try (by apply elem_of_nil in Hp);
      by apply (list_elem_of_fmap_2 EvFree).
  - intros p Hnin Hp. rewrite Hb. apply replay_frees_other.
    intros Hf.
    apply clear_events_elem in Hf as (y & bx & Hx & Hbx & [[=]|[[= ->]|Hd]]); [done|].
    apply deinit_events_elem in Hd as (_ & _ & Hd). by apply (Hp y bx Hx Hbx), Hd.
Qed.

(** * The allocator and the list *)

(** X14: [dst_alloc] puts the new block in front of the list and touches
    nothing else.  When the memory it gets is fresh, the list after a
    successful call is the new block followed by the old list; every
    other block, the secondary memory, the active fiber and the
    interner are as before, nothing is recorded, and no reachable bit
    is set if none was. *)
Theorem alloc_prepends_block malloc ty sz vm p vm' (l : list Z) :
  dst_alloc malloc ty sz vm = Return p vm' →
  chain (heap vm) (dst_vm_blocks vm) l →
  blocks (heap vm) !! (p - sizeof_DstGCMemoryHeader) = None →
  let mem := p - sizeof_DstGCMemoryHeader in
  chain (heap vm') (dst_vm_blocks vm') (mem :: l)
  ∧ (∀ a, a ≠ mem → blocks (heap vm') !! a = blocks (heap vm) !! a)
  ∧ bufs (heap vm') = bufs (heap vm)
  ∧ trace vm' = trace vm
  ∧ dst_vm_fiber vm' = dst_vm_fiber vm
  ∧ dst_vm_cache vm' = dst_vm_cache vm
  ∧ (all_clear (heap vm) → all_clear (heap vm')).
Proof.
  intros H Hc Hfresh mem. revert H.
  unfold dst_alloc. destruct (dst_vm_cache vm =? 0); [done|].
  destruct (malloc _ =? 0) eqn:Enz; [done|]. intros [= Hp <-].
  apply Z.eqb_neq in Enz. fold mem in Hfresh.
  assert (Hmem : malloc (size_t (sz + sizeof_DstGCMemoryHeader)) = mem).
  { unfold mem. lia. }
  rewrite Hmem in *. clear Hmem Hp. cbn.
  split; [|split; [|split; [|split; [|split; [|split]]]]]; try done.
  - split; [done|]. split; [done|]. eexists. rewrite lookup_insert_eq.
    split; [done|]. cbn [next]. apply (chain_ext (heap vm)); [|done].
    intros a Ha. cbn. rewrite lookup_insert_ne; [done|]. intros <-.
    destruct (chain_lookup _ _ _ _ Hc Ha) as [b Hb]. congruence.
  - intros a Hne. by rewrite lookup_insert_ne.
  - intros Hclear a b. cbn. destruct (decide (a = mem)) as [->|Hne].
    + rewrite lookup_insert_eq. intros [= <-]. apply mem_tag_flags.
    + rewrite lookup_insert_ne by done. apply Hclear.
Qed.

(** X15: a call of [dst_alloc] that ends the process has changed nothing,
    and the interner is checked before memory is asked for: the error
    is [DST_PLEASE_INIT] exactly when the interner is not set up, and
    [DST_OUT_OF_MEMORY] exactly when it is and [malloc] fails. *)
Theorem alloc_exit_unchanged malloc ty sz vm why vm' :
  dst_alloc malloc ty sz vm = Exit why vm' →
  vm' = vm
  ∧ (why = PLEASE_INIT ↔ dst_vm_cache vm = 0)
  ∧ (why = OUT_OF_MEMORY ↔
     dst_vm_cache vm ≠ 0 ∧ malloc (size_t (sz + sizeof_DstGCMemoryHeader)) = 0).
Proof.
  unfold dst_alloc. destruct (Z.eqb_spec (dst_vm_cache vm) 0) as [Hc|Hc].
  - intros [= <- <-]. split; [done|]. split; [done|]. split; [done|]. tauto.
  - destruct (Z.eqb_spec (malloc (size_t (sz + sizeof_DstGCMemoryHeader))) 0)
      as [Hm|Hm]; [|done].
    intros [= <- <-]. split; [done|]. split; [|done]. split; [done|]. tauto.
Qed.

(** * Pinning *)

Lemma land_lnot_id fl m : Z.land fl m = 0 → Z.land fl (Z.lnot m) = fl.
Proof.
  intros H. apply Z.bits_inj'. intros n Hn.
  rewrite Z.land_spec, Z.lnot_spec by done.
  apply (f_equal (fun z => Z.testbit z n)) in H.
  rewrite Z.land_spec, Z.bits_0 in H.
  destruct (Z.testbit fl n), (Z.testbit m n); done.
Qed.

Lemma disabled_bit_set fl : disabled_bit (Z.lor fl DST_MEM_DISABLED) = true.
Proof.
  unfold disabled_bit. rewrite Z.land_lor_distr_l.
  apply negb_true_iff, Z.eqb_neq. intros [_ H]%Z.lor_eq_0_iff. discriminate H.
Qed.

Lemma reachable_bit_pin fl :
  reachable_bit (Z.lor fl DST_MEM_DISABLED) = reachable_bit fl.
Proof.
  unfold reachable_bit. rewrite Z.land_lor_distr_l.
  change (Z.land DST_MEM_DISABLED DST_MEM_REACHABLE) with 0.
  by rewrite Z.lor_0_r.
Qed.

Lemma typebits_pin fl :
  Z.land (Z.lor fl DST_MEM_DISABLED) DST_MEM_TYPEBITS = Z.land fl DST_MEM_TYPEBITS.
Proof.
  rewrite Z.land_lor_distr_l.
  change (Z.land DST_MEM_DISABLED DST_MEM_TYPEBITS) with 0.
  by rewrite Z.lor_0_r.
Qed.

Lemma disabled_bit_unpin fl :
  disabled_bit (Z.land fl (Z.lnot DST_MEM_DISABLED)) = false.
Proof.
  unfold disabled_bit. rewrite <- Z.land_assoc.
  change (Z.land (Z.lnot DST_MEM_DISABLED) DST_MEM_DISABLED) with 0.
  by rewrite Z.land_0_r.
Qed.



Lemma unpin_pin_flags fl :
  disabled_bit fl = false →
  Z.land (Z.lor fl DST_MEM_DISABLED) (Z.lnot DST_MEM_DISABLED) = fl.
Proof.
  intros H. rewrite Z.land_lor_distr_l, Z.land_lnot_diag, Z.lor_0_r.
  apply land_lnot_id. unfold disabled_bit in H.
  by apply negb_false_iff, Z.eqb_eq in H.
Qed.

Lemma set_flags_twice a fl fl' h :
  set_flags a fl' (set_flags a fl h) = set_flags a fl' h.
Proof.
  unfold set_flags. cbn. f_equal. apply map_eq. intros x.
  destruct (decide (x = a)) as [->|Hne].
  - rewrite !lookup_alter_eq. by destruct (blocks h !! a).
  - by rewrite !lookup_alter_ne.
Qed.

(** The header of the block [dst_pin] and [dst_unpin] work on is the
    one the tracer marks for the same value. *)
Lemma dst_pin_header x h :
  dst_pin x h = match ref_header (RValue x) with
                | Some a => dst_gc_pin (a + sizeof_DstGCMemoryHeader) h
                | None => Done h
                end.
Proof.
  unfold dst_pin, ref_header, dst_pin_string, dst_pin_function, dst_pin_array,
    dst_pin_table, dst_pin_struct, dst_pin_tuple, dst_pin_buffer, dst_pin_fiber,
    dst_pin_userdata, dst_gc_pin.
  destruct (type x); rewrite ?header_of_body; done.
Qed.

Lemma dst_unpin_header x h :
  dst_unpin x h = match ref_header (RValue x) with
                  | Some a => dst_gc_unpin (a + sizeof_DstGCMemoryHeader) h
                  | None => Done h
                  end.
Proof.
  unfold dst_unpin, ref_header, dst_unpin_string, dst_unpin_function,
    dst_unpin_array, dst_unpin_table, dst_unpin_struct, dst_unpin_tuple,
    dst_unpin_buffer, dst_unpin_fiber, dst_unpin_userdata, dst_gc_unpin.
  destruct (type x); rewrite ?header_of_body; done.
Qed.

Lemma dst_pin_inv x h h' :
  dst_pin x h = Done h' →
  match ref_header (RValue x) with
  | Some a => ∃ b, blocks h !! a = Some b
                   ∧ h' = set_flags a (Z.lor (flags b) DST_MEM_DISABLED) h
  | None => h' = h
  end.
Proof.
  rewrite dst_pin_header. destruct (ref_header (RValue x)) as [a|]; [|congruence].
  unfold dst_gc_pin. rewrite header_of_body. intros H. bind_inv H.
  injection H as <-. eauto.
Qed.

Lemma dst_unpin_inv x h h' :
  dst_unpin x h = Done h' →
  match ref_header (RValue x) with
  | Some a => ∃ b, blocks h !! a = Some b
                   ∧ h' = set_flags a (Z.land (flags b) (Z.lnot DST_MEM_DISABLED)) h
  | None => h' = h
  end.
Proof.
  rewrite dst_unpin_header. destruct (ref_header (RValue x)) as [a|]; [|congruence].
  unfold dst_gc_unpin. rewrite header_of_body. intros H. bind_inv H.
  injection H as <-. eauto.
Qed.

(** X16: unpinning undoes pinning.  When the block of a value was not
    pinned, [dst_pin] followed by [dst_unpin] gives back the heap as it
    was; a value that is not on the heap is ignored by both. *)
Theorem pin_unpin_round_trip x h h1 :
  dst_pin x h = Done h1 →
  (∀ a, ref_header (RValue x) = Some a → ¬ pinned h a) →
  dst_unpin x h1 = Done h.
Proof.
  intros H Hnp. apply dst_pin_inv in H. rewrite dst_unpin_header.
  destruct (ref_header (RValue x)) as [a|]; [|by subst].
  destruct H as (b & Hb & ->). unfold dst_gc_unpin. rewrite header_of_body.
  rewrite set_flags_lookup, decide_True, Hb by done. cbn.
  rewrite set_flags_twice, unpin_pin_flags.
  - by rewrite (set_flags_same _ _ _ Hb).
  - destruct (disabled_bit (flags b)) eqn:E; [|done].
    destruct (Hnp a eq_refl). by exists b.
Qed.

(** X17: pins do not count.  Pinning a pinned value changes nothing, and
    one [dst_unpin] makes the block collectable again however often it
    was pinned. *)
Theorem pin_does_not_nest x h h1 :
  dst_pin x h = Done h1 →
  dst_pin x h1 = Done h1
  ∧ ∀ h2 a, dst_unpin x h1 = Done h2 → ref_header (RValue x) = Some a →
            ¬ pinned h2 a.
Proof.
  intros H. apply dst_pin_inv in H. split.
  - rewrite dst_pin_header.
    destruct (ref_header (RValue x)) as [a|]; [|by subst].
    destruct H as (b & Hb & ->). unfold dst_gc_pin. rewrite header_of_body.
    rewrite set_flags_lookup, decide_True, Hb by done. cbn.
    rewrite set_flags_twice. do 2 f_equal.
    by rewrite <- Z.lor_assoc, Z.lor_diag.
  - intros h2 a H2 Ha (b2 & Hb2 & Hp). apply dst_unpin_inv in H2.
    rewrite Ha in H2. destruct H2 as (b1 & Hb1 & ->).
    rewrite set_flags_lookup, decide_True, Hb1 in Hb2 by done.
    injection Hb2 as <-. cbn in Hp. by rewrite disabled_bit_unpin in Hp.
Qed.

(** X18: [dst_pin] protects the block the tracer would mark for the same
    value and changes nothing else.  After it the block is pinned; its
    link, its object, its type tag and its reachable bit, every other
    block, and the secondary memory are as before. *)
Theorem pin_sets_disabled_bit_only x h h' a :
  dst_pin x h = Done h' → ref_header (RValue x) = Some a →
  pinned h' a
  ∧ bufs h' = bufs h
  ∧ (∀ a', a' ≠ a → blocks h' !! a' = blocks h !! a')
  ∧ ∃ b b', blocks h !! a = Some b ∧ blocks h' !! a = Some b'
            ∧ next b' = next b ∧ body b' = body b
            ∧ Z.land (flags b') DST_MEM_TYPEBITS = Z.land (flags b) DST_MEM_TYPEBITS
            ∧ reachable_bit (flags b') = reachable_bit (flags b).
Proof.
  intros H Ha. apply dst_pin_inv in H. rewrite Ha in H.
  destruct H as (b & Hb & ->).
  assert (Hb' : blocks (set_flags a (Z.lor (flags b) DST_MEM_DISABLED) h) !! a
                = Some {| next := next b; flags := Z.lor (flags b) DST_MEM_DISABLED;
                          body := body b |}).
  { by rewrite set_flags_lookup, decide_True, Hb. }
  split; [|split; [done|split]].
  - eexists. split; [exact Hb'|]. apply disabled_bit_set.
  - intros a' Hne. by rewrite set_flags_lookup, decide_False.
  - eexists _, _. split; [done|]. split; [exact Hb'|]. cbn.
    by rewrite typebits_pin, reachable_bit_pin.
Qed.

(** * What the graph depends on *)

Lemma cell_at_agree h h' p i :
  bufs h' !! p = bufs h !! p → cell_at h' p i = cell_at h p i.
Proof. intros H. unfold cell_at. by rewrite H. Qed.

Lemma values_at_agree h h' p i n :
  bufs h' !! p = bufs h !! p →
  values_at h' (InBuffer p i) n = values_at h (InBuffer p i) n.
Proof.
  intros H. apply tabulate_ext. intros k. cbn [ptr_add value_at].
  by rewrite (cell_at_agree _ _ _ _ H).
Qed.

Lemma frame_refs_agree n h h' f i j :
  bufs h' !! fiber_data f = bufs h !! fiber_data f →
  frame_refs n h' f i j = frame_refs n h f i j.
Proof.
  intros H. revert i j. induction n as [|n IH]; intros i j; simpl; [done|].
  unfold frame_at. rewrite (cell_at_agree _ _ _ _ H), (values_at_agree _ _ _ _ _ H).
  destruct (i =? 0); [done|].
  destruct (cell_at h _ _) as [[]|]; simpl; try done.
  destruct (values_at h _ _); simpl; [|done]. by rewrite IH.
Qed.

(** The references of an object are read from its secondary arrays
    and, for a function, from its funcdef. *)
Lemma out_refs_agree h h' b :
  (∀ p, p ∈ owned b → bufs h' !! p = bufs h !! p) →
  (∀ f, b = FunctionBody f → body_at h' (def f) = body_at h (def f)) →
  out_refs h' b = out_refs h b.
Proof.
  intros Hown Hdef. destruct b; cbn [out_refs owned] in *; try done.
  - by rewrite (values_at_agree h h') by (apply Hown; left).
  - by rewrite (values_at_agree h h') by (apply Hown; left).
  - unfold frames_bound. rewrite (Hown (fiber_data f)) by left.
    by rewrite (frame_refs_agree _ h h') by (apply Hown; left).
  - unfold funcdef_at. rewrite (Hdef f eq_refl).
    destruct (body_at h (def f)) as [[]|]; simpl; try done.
    destruct (negb (envs f =? 0)); [|done].
    erewrite tabulate_ext; [done|]. intros k. unfold env_at.
    by rewrite (cell_at_agree h h') by (apply Hown; left).
  - destruct (offset e =? 0) eqn:E; cbn [negb]; [|done].
    by rewrite (values_at_agree h h') by (apply Hown; left).
  - destruct (negb (constants d =? 0)); [|done].
    by rewrite (values_at_agree h h') by (apply Hown; right; left).
Qed.

Lemma preserves_out_refs h h' r r' a b rs :
  graph_ok h r → preserves h h' r → rtc (child h) r r' →
  ref_header r' = Some a → blocks h !! a = Some b →
  out_refs h (body b) = Some rs → out_refs h' (body b) = Some rs.
Proof.
  intros Hok Hp Hr Ha Hb Ho.
  destruct (Hp r' a b Hr Ha Hb) as (b' & Hb' & Hbody & Hbufs).
  rewrite <- Ho. apply out_refs_agree; [done|].
  intros f Hf. pose proof Ho as Ho0. rewrite Hf in Ho. cbn [out_refs] in Ho.
  destruct (funcdef_at h (def f)) as [d|] eqn:Hd; [|done]. cbn in Ho.
  unfold funcdef_at, body_at in Hd.
  destruct (blocks h !! dst_gc_header (def f)) as [bd|] eqn:Hbd; [|done].
  destruct (Hp (RFuncDef (def f)) (dst_gc_header (def f)) bd)
    as (bd' & Hbd' & Hbody' & _); [|done|done|].
  { eapply rtc_r; [exact Hr|]. exists a, b, rs.
    split; [done|]. split; [done|]. split; [done|].
    destruct (if negb (envs f =? 0) then _ else _); [|done].
    cbn in Ho. injection Ho as <-. apply elem_of_app. right. left. }
  unfold body_at. rewrite Hbd', Hbd. cbn. by rewrite Hbody'.
Qed.

Lemma preserves_paths h h' r r' :
  graph_ok h r → preserves h h' r →
  rtc (child h') r r' ↔ rtc (child h) r r'.
Proof.
  intros Hok Hp. split.
  - revert r'. apply (rtc_ind_r (fun r' => rtc (child h) r r')); [done|].
    intros r1 r2 Hr Hc IH.
    eapply rtc_r; [exact IH|].
    destruct Hc as (a & b' & rs' & Ha & Hb' & Ho' & Hin).
    destruct (Hok r1 IH a Ha) as (b & rs & Hb & Hm & Ho).
    destruct (Hp r1 a b IH Ha Hb) as (b2 & Hb2 & Hbody & _).
    assert (b2 = b') as -> by congruence.
    rewrite Hbody, (preserves_out_refs h h' r r1 a b rs) in Ho' by done.
    injection Ho' as <-. by exists a, b, rs.
  - revert r'. apply (rtc_ind_r (fun r' => rtc (child h') r r')); [done|].
    intros r1 r2 Hr Hc IH.
    eapply rtc_r; [exact IH|].
    destruct Hc as (a & b & rs & Ha & Hb & Ho & Hin).
    destruct (Hp r1 a b Hr Ha Hb) as (b' & Hb' & Hbody & _).
    exists a, b', rs. rewrite Hbody.
    by rewrite (preserves_out_refs h h' r r1 a b rs).
Qed.

Lemma preserves_graph_ok h h' r :
  graph_ok h r → preserves h h' r → graph_ok h' r.
Proof.
  intros Hok Hp r' Hr' a Ha.
  apply (preserves_paths h h' r r' Hok Hp) in Hr'.
  destruct (Hok r' Hr' a Ha) as (b & rs & Hb & Hm & Ho).
  destruct (Hp r' a b Hr' Ha Hb) as (b' & Hb' & Hbody & _).
  exists b', rs. rewrite Hbody. split; [done|]. split; [done|].
  by apply (preserves_out_refs h h' r r' a b rs).
Qed.

Lemma preserves_reachable h h' r a :
  graph_ok h r → preserves h h' r →
  reachable_from h' r a ↔ reachable_from h r a.
Proof.
  intros Hok Hp. unfold reachable_from. split; intros (r' & Hr & Ha); exists r';
    (split; [by apply (preserves_paths h h' r r' Hok Hp)|done]).
Qed.

(** * From one collection to the next *)

Lemma replay_frees_sub evs m p :
  replay_frees evs m !! p = None ∨ replay_frees evs m !! p = m !! p.
Proof.
  induction evs as [|e evs IH] using rev_ind; [by right|].
  rewrite replay_frees_app. cbn [replay_frees foldl].
  destruct e; try done. destruct (decide (p0 = p)) as [->|Hne].
  - left. apply lookup_delete_eq.
  - by rewrite lookup_delete_ne.
Qed.

Lemma deinit_dom a vm vm' x :
  dst_deinit_block a vm = Done vm' →
  blocks (heap vm) !! x = None → blocks (heap vm') !! x = None.
Proof.
  unfold dst_deinit_block. intros H Hx. crunch; cbn [heap emit] in *; cbn;
    rewrite ?lookup_delete_None; tauto.
Qed.

Lemma sweep_loop_dom fuel : ∀ previous current vm vm' x,
  dst_sweep_loop fuel previous current vm = Done vm' →
  blocks (heap vm) !! x = None → blocks (heap vm') !! x = None.
Proof.
  induction fuel as [|fuel IH]; intros previous current vm vm' x H Hx; [done|].
  cbn [dst_sweep_loop] in H.
  destruct (current =? 0); [by injection H as <-|].
  bind_inv H. bind_inv H.
  destruct (negb _) in E0.
  - injection E0 as <-. cbn [fst snd] in H. apply (IH _ _ _ _ x) in H; [done|].
    rewrite update_flags_lookup. destruct (decide (x = current)) as [->|]; [|done].
    by rewrite Hx.
  - bind_inv E0. injection E0 as <-. cbn [fst snd] in H.
    apply (deinit_dom _ _ _ x) in E1; [|done].
    apply (IH _ _ _ _ x) in H; [done|].
    rewrite update_flags_lookup.
    assert (Hf : ∀ v, blocks (heap v) !! x = None →
                      blocks (heap (free current v)) !! x = None).
    { intros v Hv. rewrite free_lookup. by destruct (decide (x = current)). }
    destruct (decide (x = current)) as [->|].
    + rewrite free_lookup, decide_True; done.
    + apply Hf. destruct (negb (previous =? 0)); [|done].
      rewrite store_next_lookup. destruct (decide (x = previous)) as [->|]; [|done].
      by rewrite E1.
Qed.

(** A collection takes a state between two collections to another one:
    what it keeps is a heap the next collection can work on, and what
    the active fiber leads to is what it led to before. *)
Lemma collect_step vm (l : list Z) fuel vm' l' :
  gc_inv vm l → dst_collect fuel vm = Done vm' →
  chain (heap vm') (dst_vm_blocks vm') l' →
  gc_inv vm' l'
  ∧ dst_vm_fiber vm' = dst_vm_fiber vm
  ∧ (∀ a, a ∈ l' → a ∈ l)
  ∧ (∀ a, pinned (heap vm') a → pinned (heap vm) a)
  ∧ (∀ a, a ∈ l' → pinned (heap vm) a → pinned (heap vm') a)
  ∧ (dst_vm_fiber vm ≠ 0 →
     ∀ a, reachable_from (heap vm') (RFiber (dst_vm_fiber vm)) a
          ↔ reachable_from (heap vm) (RFiber (dst_vm_fiber vm)) a)
  ∧ (∀ a, a ∈ l' →
       pinned (heap vm) a
       ∨ dst_vm_fiber vm ≠ 0
         ∧ reachable_from (heap vm) (RFiber (dst_vm_fiber vm)) a).
Proof.
  intros (Hok & Hclear & Hlist & Hex & Hnull) H Hch.
  destruct (collect_run vm l fuel vm' Hok Hclear H)
    as (h1 & vm1 & -> & Hle & Hmk & Hsp & Hsw).
  cbn [heap dst_vm_blocks set_next_collection dst_vm_fiber] in *.
  assert (Hl' := sweep_post_survivors _ _ _ _ Hsp Hch). cbn [heap with_heap] in Hl'.
  destruct Hok as (Hc & Hg & Hs).
  assert (Hc1 : chain h1 (dst_vm_blocks vm) l) by by apply (heap_le_chain (heap vm)).
  assert (Hbufs : ∀ p,
            (∀ a b, a ∈ l → blocks h1 !! a = Some b →
                    keeps (flags b) = false → p ≠ a ∧ p ∉ owned (body b)) →
            bufs (heap vm1) !! p = bufs h1 !! p).
  { intros p Hp. apply (sweep_bufs_kept (with_heap h1 vm) l fuel vm1 p); try done.
    intros a Ha _. apply (heap_le_sweepable (heap vm)); auto. }
  assert (Hdom : ∀ x, blocks (heap vm) !! x = None → blocks (heap vm1) !! x = None).
  { intros x Hx. apply (sweep_loop_dom _ _ _ _ _ x Hsw). cbn.
    destruct (blocks h1 !! x) as [b1|] eqn:Hb1; [|done].
    destruct (heap_le_lookup_inv _ _ _ _ Hle Hb1) as (b & Hb & _). congruence. }
  destruct Hsp as (_ & P2 & _ & _ & _ & _ & (_ & G2 & _)).
  cbn [heap with_heap dst_vm_fiber] in *.
  (* what became of a block of the old heap *)
  assert (Hblk : ∀ a b', blocks (heap vm1) !! a = Some b' →
            ∃ b b1, a ∈ l ∧ blocks (heap vm) !! a = Some b ∧ blocks h1 !! a = Some b1
                    ∧ keeps (flags b1) = true ∧ body b' = body b
                    ∧ flags b' = flags b).
  { intros a b' Hb'. destruct (blocks (heap vm) !! a) as [b|] eqn:Hb.
    2:{ rewrite (Hdom a Hb) in Hb'. done. }
    assert (Hin : a ∈ l) by (apply Hlist; by rewrite Hb).
    destruct (heap_le_lookup _ _ _ _ Hle Hb) as (b1 & Hb1 & (_ & Hbody & Hf)).
    specialize (P2 a b1 Hin Hb1). exists b, b1.
    destruct (keeps (flags b1)); [|congruence].
    destruct P2 as (b2 & Hb2 & Hf2 & Hbody2). assert (b2 = b') as -> by congruence.
    repeat split; try done; [congruence|]. rewrite Hf2.
    pose proof (Hclear a b Hb).
    destruct Hf as [->| ->]; [by apply land_clear_unmarked|by apply land_clear_lor]. }
  assert (Hkeep : ∀ a b, a ∈ l → blocks (heap vm) !! a = Some b → kept h1 a = true →
            ∃ b', blocks (heap vm1) !! a = Some b' ∧ body b' = body b
                  ∧ flags b' = flags b).
  { intros a b Hin Hb Hk.
    destruct (heap_le_lookup _ _ _ _ Hle Hb) as (b1 & Hb1 & _).
    specialize (P2 a b1 Hin Hb1). unfold kept in Hk. rewrite Hb1 in Hk.
    rewrite Hk in P2. destruct P2 as (b' & Hb' & _). exists b'. split; [done|].
    destruct (Hblk a b' Hb') as (b0 & _ & _ & Hb0 & _ & _ & Hbody & Hf).
    assert (b0 = b) as -> by congruence. done. }
  assert (Hsub : ∀ a, a ∈ l' → a ∈ l ∧ kept h1 a = true).
  { intros a Ha. rewrite Hl' in Ha. by apply list_elem_of_filter in Ha as [? ?]. }
  assert (Hbuf : ∀ a b p, a ∈ l → blocks (heap vm) !! a = Some b → kept h1 a = true →
            p ∈ owned (body b) → bufs (heap vm1) !! p = bufs (heap vm) !! p).
  { intros a b p Hin Hb Hk Hp. destruct Hle as [Hbeq Hle].
    destruct (decide (p = 0)) as [->|Hnz].
    - rewrite Hnull. destruct (bufs (heap vm1) !! 0) eqn:E; [|done].
      exfalso. revert E. clear -Hsw Hnull Hbeq.
      unfold dst_sweep in Hsw. apply sweep_loop_bufs in Hsw as (evs & _ & ->).
      cbn. rewrite Hbeq. intros E.
      destruct (replay_frees_sub evs (bufs (heap vm)) 0) as [Hx|Hx]; congruence.
    - rewrite (Hbufs p); [by rewrite Hbeq|]. intros x bx Hx Hbx Hkx. split.
      + intros ->. destruct (Hs a Hin b Hb) as [_ Hown].
        specialize (Hle x). rewrite (Hown x Hp), Hbx in Hle. inversion Hle.
      + intros Hpx. apply Hnz.
        specialize (Hle x). rewrite Hbx in Hle.
        inversion Hle as [b0 ? (_ & Hbody0 & _) Hb0|]; subst.
        apply (Hex a x b b0 p); try done.
        * intros ->. unfold kept in Hk. by rewrite Hbx, Hkx in Hk.
        * by rewrite <- Hbody0. }
  assert (Hpres : dst_vm_fiber vm ≠ 0 →
            preserves (heap vm) (heap vm1) (RFiber (dst_vm_fiber vm))).
  { intros Hf r' a b Hr Ha Hb.
    assert (Hin : a ∈ l) by (apply Hlist; by rewrite Hb).
    assert (Hk : kept h1 a = true).
    { apply kept_spec. left. apply Hmk. split; [done|]. by exists r'. }
    destruct (Hkeep a b Hin Hb Hk) as (b' & Hb' & Hbody & _).
    exists b'. split; [done|]. split; [done|]. intros p Hp. by eapply Hbuf. }
  split; [|split; [done|split; [|split; [|split; [|split]]]]].
  - (* the invariant *)
    split; [|split; [|split; [|split]]].
    + split; [done|]. split.
      * cbn. rewrite G2. intros Hf. apply (preserves_graph_ok (heap vm)); auto.
      * intros a Ha b' Hb'.
        destruct (Hblk a b' Hb') as (b & b1 & Hin & Hb & _ & _ & Hbody & Hf).
        destruct (Hs a Hin b Hb) as [(t & Ht & Htag) Hown]. split.
        -- exists t. by rewrite Hbody, Hf.
        -- intros p Hp. apply Hdom, Hown. by rewrite <- Hbody.
    + intros a b' Hb'.
      destruct (Hblk a b' Hb') as (b & b1 & Hin & Hb & _ & _ & _ & Hf).
      rewrite Hf. by apply (Hclear a b).
    + intros a [b' Hb'].
      destruct (Hblk a b' Hb') as (b & b1 & Hin & Hb & Hb1 & Hk & _).
      rewrite Hl'. apply list_elem_of_filter. split; [|done].
      unfold kept. by rewrite Hb1.
    + intros a a' b b' p Ha Ha' Hne Hb Hb' Hp Hp'.
      destruct (Hblk a b Hb) as (b0 & _ & Hin & Hb0 & _ & _ & Hbody & _).
      destruct (Hblk a' b' Hb') as (b0' & _ & Hin' & Hb0' & _ & _ & Hbody' & _).
      apply (Hex a a' b0 b0' p); try done; congruence.
    + destruct (bufs (heap vm1) !! 0) eqn:E; [|done].
      exfalso. revert E. clear -Hsw Hnull Hle. destruct Hle as [Hbeq _].
      unfold dst_sweep in Hsw. apply sweep_loop_bufs in Hsw as (evs & _ & ->).
      cbn. rewrite Hbeq. intros E.
      destruct (replay_frees_sub evs (bufs (heap vm)) 0) as [Hx|Hx]; congruence.
  - intros a Ha. by apply Hsub.
  - intros a (b' & Hb' & Hp).
    destruct (Hblk a b' Hb') as (b & _ & _ & Hb & _ & _ & _ & Hf).
    exists b. split; [done|]. by rewrite <- Hf.
  - intros a Ha (b & Hb & Hp). destruct (Hsub a Ha) as [Hin Hk].
    destruct (Hkeep a b Hin Hb Hk) as (b' & Hb' & _ & Hf).
    exists b'. split; [done|]. by rewrite Hf.
  - intros Hf a. apply preserves_reachable; auto.
  - intros a Ha. destruct (Hsub a Ha) as [_ Hk].
    apply kept_spec in Hk as [Hm|Hp]; [right; by apply Hmk|left].
    by apply (heap_le_pinned _ _ _ Hle).
Qed.







Lemma collect_chain vm (l : list Z) fuel vm' :
  heap_ok vm l → all_clear (heap vm) → dst_collect fuel vm = Done vm' →
  ∃ l', chain (heap vm') (dst_vm_blocks vm') l'.
Proof.
  intros Hok Hclear H.
  destruct (collect_run vm l fuel vm' Hok Hclear H)
    as (h1 & vm1 & -> & _ & _ & (P1 & _) & _).
  unfold link in P1. simpl in P1. eauto.
Qed.

(** X19: a collection leaves a state the next collection can start from.
    From a state between collections (a well-formed list of all the
    blocks, reachable bits clear, secondary arrays not shared)
    [dst_collect] returns and ends in such a state again, its list being
    a part of the old one. *)
Theorem collect_preserves_invariant vm (l : list Z) :
  gc_inv vm l →
  (∃ fuel vm', dst_collect fuel vm = Done vm')
  ∧ ∀ fuel vm', dst_collect fuel vm = Done vm' →
      ∃ l', gc_inv vm' l' ∧ ∀ a, a ∈ l' → a ∈ l.
Proof.
  intros Hinv. pose proof Hinv as (Hok & Hclear & _). split.
  { destruct (collect_spec vm l Hok) as (fuel & h1 & vm1 & Hrun & _). eauto. }
  intros fuel vm' H.
  destruct (collect_chain vm l fuel vm' Hok Hclear H) as (l' & Hch).
  destruct (collect_step vm l fuel vm' l' Hinv H Hch) as (Hinv' & _ & Hsub & _).
  eauto.
Qed.

Lemma heap_eq (h h' : Heap) : blocks h = blocks h' → bufs h = bufs h' → h = h'.
Proof. destruct h, h'. cbn. by intros -> ->. Qed.

Lemma chain_next h p (l1 l2 : list Z) a b :
  chain h p (l1 ++ a :: l2) → blocks h !! a = Some b → next b = hd 0 l2.
Proof.
  intros Hc Hb. apply chain_suffix in Hc as (_ & _ & b' & Hb' & Hc).
  assert (b' = b) as -> by congruence.
  destruct l2 as [|x l2]; [done|]. by destruct Hc as [-> _].
Qed.

Lemma chain_head h p (l : list Z) : chain h p l → p = hd 0 l.
Proof. destruct l; [done|]. by intros [-> _]. Qed.

(** X20: collecting twice is collecting once.  A second [dst_collect]
    right after the first frees nothing and leaves the heap and the
    list exactly as the first one left them; all it does is store the
    flags of the blocks it visits. *)
Theorem collect_twice vm (l : list Z) fuel fuel' vm1 vm2 :
  gc_inv vm l → dst_collect fuel vm = Done vm1 → dst_collect fuel' vm1 = Done vm2 →
  heap vm2 = heap vm1
  ∧ dst_vm_blocks vm2 = dst_vm_blocks vm1
  ∧ ∀ e, e ∈ drop (length (trace vm1)) (trace vm2) → ∃ x, e = EvStore x FFlags.
Proof.
  intros Hinv H1 H2. pose proof Hinv as (Hok & Hclear & _).
  destruct (collect_chain vm l fuel vm1 Hok Hclear H1) as (l1 & Hch1).
  destruct (collect_step vm l fuel vm1 l1 Hinv H1 Hch1)
    as (Hinv1 & Hfib & Hsub & _ & Hpin & Hreach & Hwhy).
  pose proof Hinv1 as (Hok1 & Hclear1 & Hlist1 & _).
  (* every block the first collection kept is live for the second *)
  assert (Hlive : ∀ a, a ∈ l1 →
            pinned (heap vm1) a
            ∨ dst_vm_fiber vm1 ≠ 0
              ∧ reachable_from (heap vm1) (RFiber (dst_vm_fiber vm1)) a).
  { intros a Ha. destruct (Hwhy a Ha) as [Hp|[Hf Hr]].
    - left. by apply Hpin.
    - right. rewrite Hfib. split; [done|]. by apply (Hreach Hf). }
  destruct (collect_run vm1 l1 fuel' vm2 Hok1 Hclear1 H2)
    as (h2 & vm3 & -> & Hle & Hmk & Hsp & Hsw).
  cbn [heap dst_vm_blocks set_next_collection trace].
  assert (Hk : ∀ a, a ∈ l1 → kept h2 a = true).
  { intros a Ha. apply kept_spec. rewrite (heap_le_pinned _ _ _ Hle), Hmk.
    destruct (Hlive a Ha); tauto. }
  assert (Hfilter : filter (fun a => kept h2 a = true) l1 = l1).
  { clear -Hk. induction l1 as [|a l1 IH]; [done|].
    rewrite filter_cons_True by (apply Hk; left). f_equal. apply IH.
    intros x Hx. apply Hk. by right. }
  destruct Hsp as (P1 & P2 & _ & _ & _ & Htr & _).
  cbn [heap with_heap trace] in *. unfold link in P1. cbn in P1.
  rewrite Hfilter in P1.
  assert (Hev : ∀ e, e ∈ sweep_events h2 0 l1 → ∃ x, e = EvStore x FFlags).
  { intros e He. clear -He Hk. revert He. generalize 0 at 1.
    induction l1 as [|a l1 IH]; intros pv; cbn [sweep_events];
      [by intros ?%elem_of_nil|].
    pose proof (Hk a ltac:(left)) as Hka. unfold kept in Hka.
    destruct (blocks h2 !! a) as [b|]; [|done]. rewrite Hka.
    intros [->|He]%elem_of_cons; [eauto|].
    apply (IH ltac:(intros x Hx; apply Hk; by right) a He). }
  assert (Hhead : dst_vm_blocks vm3 = dst_vm_blocks vm1).
  { by rewrite (chain_head _ _ _ P1), (chain_head _ _ _ Hch1). }
  split; [|split; [done|]].
  2:{ rewrite Htr, drop_app_length. exact Hev. }
  apply heap_eq.
  - apply map_eq. intros a.
    destruct (blocks (heap vm1) !! a) as [b1|] eqn:Hb1.
    + assert (Ha : a ∈ l1) by (apply Hlist1; by rewrite Hb1).
      destruct (heap_le_lookup _ _ _ _ Hle Hb1) as (bm & Hbm & (_ & Hbody & Hf)).
      specialize (P2 a bm Ha Hbm). specialize (Hk a Ha). unfold kept in Hk.
      rewrite Hbm in Hk. rewrite Hk in P2. destruct P2 as (b3 & Hb3 & Hf3 & Hbody3).
      rewrite Hb3. f_equal.
      pose proof Ha as Hsplit. apply list_elem_of_split in Hsplit as (la & lb & ->).
      pose proof (chain_next _ _ _ _ _ _ P1 Hb3) as Hn3.
      pose proof (chain_next _ _ _ _ _ _ Hch1 Hb1) as Hn1.
      assert (Hfl : flags b3 = flags b1).
      { rewrite Hf3. pose proof (Hclear1 a b1 Hb1).
        destruct Hf as [->| ->];
          [by apply land_clear_unmarked|by apply land_clear_lor]. }
      destruct b3, b1. cbn in *. congruence.
    + apply (sweep_loop_dom _ _ _ _ _ a Hsw). cbn.
      destruct (blocks h2 !! a) as [bm|] eqn:Hbm; [|done].
      destruct (heap_le_lookup_inv _ _ _ _ Hle Hbm) as (b & Hb & _).
      congruence.
  - unfold dst_sweep in Hsw. apply sweep_loop_bufs in Hsw as (evs & Ht & Hbf).
    cbn in Ht, Hbf. rewrite Htr in Ht. apply app_inv_head in Ht. subst evs.
    rewrite Hbf. destruct Hle as [-> _].
    apply map_eq. intros p. apply replay_frees_other. intros Hin.
    by destruct (Hev _ Hin).
Qed.

(** * Pinning across collections *)





(** X22: the sweeper finalizes in list order.  Of two blocks it frees,
    the one that comes first on the list is finalized and given back
    before the finalization of the other begins. *)
Theorem sweep_finalizes_in_list_order vm (l1 l2 l3 : list Z) fuel vm' evs a a' b b' :
  chain (heap vm) (dst_vm_blocks vm) (l1 ++ a :: l2 ++ a' :: l3) →
  (∀ x, x ∈ l1 ++ a :: l2 ++ a' :: l3 → kept (heap vm) x = false →
        sweepable (heap vm) x) →
  dst_sweep fuel vm = Done vm' → new_events vm vm' evs →
  blocks (heap vm) !! a = Some b → keeps (flags b) = false →
  blocks (heap vm) !! a' = Some b' → keeps (flags b') = false →
  ∃ t1 t2 t3 t4,
    evs = t1 ++ EvDeinit a :: t2 ++ EvFree a :: t3 ++ EvDeinit a' :: t4
    ∧ EvFree a' ∈ t4.
Proof.
  intros Hc Hs H Hev Hb Hk Hb' Hk'.
  destruct (sweep_spec vm _ (S (length (l1 ++ a :: l2 ++ a' :: l3))) Hc Hs ltac:(lia))
    as (vm2 & H2 & Hsp).
  rewrite (dst_sweep_det _ _ _ _ _ H H2) in *.
  destruct Hsp as (_ & _ & _ & _ & _ & Htr & _).
  unfold new_events in Hev. rewrite Htr in Hev. apply app_inv_head in Hev. subst evs.
  assert (Hall : ∀ x, x ∈ l1 ++ a :: l2 ++ a' :: l3 → is_Some (blocks (heap vm) !! x)).
  { intros x Hx. by eapply chain_lookup. }
  destruct (sweep_events_split (heap vm) 0 l1 (l2 ++ a' :: l3) a b)
    as (p & t3 & -> & ->); [|done|done|].
  { intros x Hx. apply Hall, elem_of_app. by left. }
  destruct (sweep_events_split (heap vm) p l2 l3 a' b')
    as (q & t4 & -> & _); [|done|done|].
  { intros x Hx. apply Hall, elem_of_app. right. right. apply elem_of_app. by left. }
  exists (sweep_events (heap vm) 0 l1),
    (deinit_events a b ++ (if p =? 0 then [] else [EvStore p FNext])),
    (EvStore a FFlags :: sweep_events (heap vm) p l2),
    (deinit_events a' b' ++ (if q =? 0 then [] else [EvStore q FNext])
       ++ EvFree a' :: EvStore a' FFlags :: t4).
  split.
  - rewrite <- !app_assoc. cbn [app]. done.
  - rewrite !elem_of_app, elem_of_cons. auto.
Qed.

(** * The properties on the example states *)

Lemma exclusive_b_spec h (l : list Z) : exclusive_b h l = true → exclusive h l.
Proof.
  unfold exclusive_b. rewrite forallb_forall. intros H a a' b b' p Ha Ha' Hne Hb Hb' Hp Hp'.
  specialize (H a (proj1 (list_elem_of_In _ _) Ha)). rewrite forallb_forall in H.
  specialize (H a' (proj1 (list_elem_of_In _ _) Ha')).
  apply orb_true_iff in H as [H|H]; [by apply Z.eqb_eq in H|].
  rewrite Hb, Hb' in H. rewrite forallb_forall in H.
  specialize (H p (proj1 (list_elem_of_In _ _) Hp)).
  apply orb_true_iff in H as [H|H]; [by apply Z.eqb_eq in H|].
  apply negb_true_iff in H. exfalso.
  assert (existsb (Z.eqb p) (owned (body b')) = true); [|congruence].
  apply existsb_exists. exists p. split; [by apply list_elem_of_In|apply Z.eqb_refl].
Qed.

Lemma gc_inv_b_spec n vm (l : list Z) : gc_inv_b n vm l = true → gc_inv vm l.
Proof.
  unfold gc_inv_b.
  intros [[[[Hok Hc]%andb_true_iff Hl]%andb_true_iff He]%andb_true_iff Hn]%andb_true_iff.
  split; [by eapply heap_ok_b_spec|]. split; [by apply all_clear_check|].
  split; [|split; [by apply exclusive_b_spec|by apply bool_decide_eq_true in Hn]].
  apply bool_decide_eq_true in Hl. intros a [b Hb].
  specialize (Hl a b Hb). cbn in Hl. apply existsb_exists in Hl as (x & Hx & Hax).
  apply Z.eqb_eq in Hax as ->. by apply list_elem_of_In.
Qed.

Lemma cyclic_vm_inv : gc_inv cyclic_vm cyclic_list.
Proof. apply (gc_inv_b_spec 20). vm_compute. reflexivity. Qed.

Lemma cyclic_graph_ok : graph_ok cyclic_heap (RFiber 116).
Proof.
  apply (closed_b_graph_ok _ (refs_closure 20 cyclic_heap [RFiber 116]));
    [vm_compute; reflexivity|]. apply refs_closure_incl. left.
Qed.

Lemma interned_vm_ok : heap_ok interned_vm interned_list.
Proof. apply (heap_ok_b_spec 20). vm_compute. reflexivity. Qed.

(** The array at 800 of the cyclic heap is garbage. *)
Lemma cyclic_800_unreachable :
  ¬ (dst_vm_fiber cyclic_vm ≠ 0
     ∧ reachable_from (heap cyclic_vm) (RFiber (dst_vm_fiber cyclic_vm)) 800).
Proof.
  intros [_ Hr].
  eassert (E : mark_ref 20 (RFiber 116) cyclic_heap = Done _)
    by (vm_compute; reflexivity).
  apply (mark_reaches 20 (RFiber 116) cyclic_heap _ 800 cyclic_graph_ok
           cyclic_heap_clear E) in Hr.
  destruct Hr as (b & Hb & Hm). vm_compute in Hb. injection Hb as <-.
  vm_compute in Hm. discriminate Hm.
Qed.

Lemma mark_idempotent_witness :
  ∃ h', mark_ref 20 (RFiber 116) cyclic_heap = Done h'
        ∧ mark_ref 2 (RFiber 116) h' = Done h'.
Proof.
  eexists. split; [vm_compute; reflexivity|].
  apply (mark_idempotent 20 (RFiber 116) cyclic_heap). vm_compute. reflexivity.
Defined.

Lemma mark_sets_reachable_bits_only_witness :
  ∃ h', mark_ref 20 (RFiber 116) cyclic_heap = Done h'
        ∧ bufs h' = bufs cyclic_heap
        ∧ (∀ a, blocks cyclic_heap !! a = None ↔ blocks h' !! a = None)
        ∧ ∀ a b b', blocks cyclic_heap !! a = Some b → blocks h' !! a = Some b' →
            next b' = next b ∧ body b' = body b
            ∧ Z.land (flags b') DST_MEM_TYPEBITS = Z.land (flags b) DST_MEM_TYPEBITS
            ∧ disabled_bit (flags b') = disabled_bit (flags b)
            ∧ (reachable_bit (flags b) = true → reachable_bit (flags b') = true).
Proof.
  eexists. split; [vm_compute; reflexivity|].
  apply (mark_sets_reachable_bits_only 20 (RFiber 116) cyclic_heap).
  vm_compute. reflexivity.
Defined.

Lemma mark_marks_exactly_reachable_witness :
  graph_ok cyclic_heap (RFiber 116) ∧ all_clear cyclic_heap
  ∧ ∃ h', mark_ref 20 (RFiber 116) cyclic_heap = Done h'
          ∧ ∀ a, marked h' a ↔ reachable_from cyclic_heap (RFiber 116) a.
Proof.
  split; [exact cyclic_graph_ok|]. split; [exact cyclic_heap_clear|].
  eexists. split; [vm_compute; reflexivity|].
  apply (mark_marks_exactly_reachable 20 (RFiber 116) cyclic_heap _
           cyclic_graph_ok cyclic_heap_clear).
  vm_compute. reflexivity.
Defined.

Lemma collect_frees_exactly_garbage_witness :
  heap_ok cyclic_vm cyclic_list ∧ all_clear (heap cyclic_vm)
  ∧ 800 ∈ cyclic_list
  ∧ ∃ vm', dst_collect 20 cyclic_vm = Done vm'
      ∧ chain (heap vm') (dst_vm_blocks vm') cyclic_survivors
      ∧ blocks (heap vm') !! 800 = None.
Proof.
  split; [exact cyclic_vm_ok|]. split; [exact cyclic_heap_clear|].
  assert (Hin : 800 ∈ cyclic_list) by (right; left).
  split; [exact Hin|].
  eexists. split; [vm_compute; reflexivity|].
  match goal with
  | |- chain ?h ?p ?l ∧ _ =>
      assert (Hch : chain h p l) by (apply (walk_chain 20); vm_compute; reflexivity)
  end.
  split; [exact Hch|].
  refine (proj2 (proj1 (collect_frees_exactly_garbage cyclic_vm cyclic_list 20 _ _ 800
                   cyclic_vm_ok cyclic_heap_clear _ Hch Hin)) _).
  - vm_compute. reflexivity.
  - intros [(b & Hb & Hp)|Hr].
    + vm_compute in Hb. injection Hb as <-. vm_compute in Hp. discriminate Hp.
    + by apply cyclic_800_unreachable.
Defined.

Lemma collect_restores_survivors_witness :
  heap_ok cyclic_vm cyclic_list ∧ all_clear (heap cyclic_vm)
  ∧ ∃ vm', dst_collect 20 cyclic_vm = Done vm'
      ∧ chain (heap vm') (dst_vm_blocks vm') cyclic_survivors
      ∧ cyclic_survivors
        = filter (fun a => is_Some (blocks (heap vm') !! a)) cyclic_list
      ∧ (∀ a b b', a ∈ cyclic_list → blocks (heap cyclic_vm) !! a = Some b →
           blocks (heap vm') !! a = Some b' →
           flags b' = flags b ∧ body b' = body b)
      ∧ dst_vm_next_collection vm' = 0
      ∧ dst_vm_fiber vm' = dst_vm_fiber cyclic_vm
      ∧ dst_vm_cache vm' = dst_vm_cache cyclic_vm.
Proof.
  split; [exact cyclic_vm_ok|]. split; [exact cyclic_heap_clear|].
  eexists. split; [vm_compute; reflexivity|].
  match goal with
  | |- chain ?h ?p ?l ∧ _ =>
      assert (Hch : chain h p l) by (apply (walk_chain 20); vm_compute; reflexivity)
  end.
  split; [exact Hch|].
  apply (collect_restores_survivors cyclic_vm cyclic_list 20 _ _
           cyclic_vm_ok cyclic_heap_clear); [vm_compute; reflexivity|exact Hch].
Defined.

Lemma sweep_keeps_survivors_witness :
  chain (heap cyclic_vm) (dst_vm_blocks cyclic_vm) cyclic_list
  ∧ (∀ a, a ∈ cyclic_list → kept (heap cyclic_vm) a = false →
          sweepable (heap cyclic_vm) a)
  ∧ ∃ vm', dst_sweep 20 cyclic_vm = Done vm'
      ∧ chain (heap vm') (dst_vm_blocks vm') [900]
      ∧ [900] = filter (fun a => kept (heap cyclic_vm) a = true) cyclic_list
      ∧ (∀ a b, a ∈ [900] → blocks (heap cyclic_vm) !! a = Some b →
           ∃ b', blocks (heap vm') !! a = Some b'
                 ∧ body b' = body b
                 ∧ Z.land (flags b') DST_MEM_TYPEBITS
                   = Z.land (flags b) DST_MEM_TYPEBITS
                 ∧ disabled_bit (flags b') = disabled_bit (flags b)
                 ∧ reachable_bit (flags b') = false)
      ∧ same_globals cyclic_vm vm'.
Proof.
  pose proof cyclic_vm_ok as (Hc & _ & Hs).
  split; [exact Hc|]. split; [auto|].
  eexists. split; [vm_compute; reflexivity|].
  match goal with
  | |- chain ?h ?p ?l ∧ _ =>
      assert (Hch : chain h p l) by (apply (walk_chain 20); vm_compute; reflexivity)
  end.
  split; [exact Hch|].
  apply (sweep_keeps_survivors cyclic_vm cyclic_list 20 _ _ Hc);
    [auto|vm_compute; reflexivity|exact Hch].
Defined.

Lemma sweep_frees_owned_buffers_witness :
  chain (heap cyclic_vm) (dst_vm_blocks cyclic_vm) cyclic_list
  ∧ (∀ a, a ∈ cyclic_list → kept (heap cyclic_vm) a = false →
          sweepable (heap cyclic_vm) a)
  ∧ ∃ vm', dst_sweep 20 cyclic_vm = Done vm'
      ∧ bufs (heap vm') !! 8000 = None
      ∧ bufs (heap vm') !! 9000 = bufs (heap cyclic_vm) !! 9000.
Proof.
  pose proof cyclic_vm_ok as (Hc & _ & Hs).
  split; [exact Hc|]. split; [auto|].
  eexists. eassert (E : dst_sweep 20 cyclic_vm = Done _) by (vm_compute; reflexivity).
  split; [exact E|].
  destruct (sweep_frees_owned_buffers cyclic_vm cyclic_list 20 _ Hc
              ltac:(auto) E) as [Hgone Hstay].
  split.
  - apply (Hgone 800 (mkblock 700 DST_MEMORY_ARRAY
                        (ArrayBody {| array_data := 8000; array_count := 1 |})) 8000);
      [right; left|vm_compute; reflexivity|reflexivity|left].
  - vm_compute. reflexivity.
Defined.

Lemma sweep_finalizes_userdata_once_witness :
  chain (heap interned_vm) (dst_vm_blocks interned_vm) interned_list
  ∧ (∀ a, a ∈ interned_list → kept (heap interned_vm) a = false →
          sweepable (heap interned_vm) a)
  ∧ 100 ∈ interned_list
  ∧ ∃ vm', dst_sweep 20 interned_vm = Done vm'
      ∧ new_events interned_vm vm' (trace vm')
      ∧ once_before_free (trace vm') (EvFinalize 7777 132 8) 100 (finalizes 100).
Proof.
  pose proof interned_vm_ok as (Hc & _ & Hs).
  assert (Hin : 100 ∈ interned_list) by (do 4 right; left).
  split; [exact Hc|]. split; [auto|]. split; [exact Hin|].
  eexists. eassert (E : dst_sweep 20 interned_vm = Done _) by (vm_compute; reflexivity).
  split; [exact E|]. split; [reflexivity|].
  exact (sweep_finalizes_userdata_once interned_vm interned_list 20 _ _ 100
           (mkblock 0 DST_MEMORY_USERDATA
              (UserdataBody {| finalize := 7777; userdata_size := 8 |}))
           Hc ltac:(auto) E eq_refl Hin eq_refl).
Defined.

Lemma sweep_uncaches_interned_once_witness :
  chain (heap interned_vm) (dst_vm_blocks interned_vm) interned_list
  ∧ (∀ a, a ∈ interned_list → sweepable (heap interned_vm) a)
  ∧ 500 ∈ interned_list ∧ 200 ∈ interned_list
  ∧ ∃ vm', dst_sweep 20 interned_vm = Done vm'
      ∧ new_events interned_vm vm' (trace vm')
      ∧ once_before_free (trace vm') (EvCacheRemove (dst_wrap_string 524)) 500
          (uncaches 500)
      ∧ ∀ e, uncaches 200 e → e ∉ trace vm'.
Proof.
  pose proof interned_vm_ok as (Hc & _ & Hs).
  assert (Hin : 500 ∈ interned_list) by left.
  assert (Hin' : 200 ∈ interned_list) by (do 3 right; left).
  split; [exact Hc|]. split; [exact Hs|]. split; [exact Hin|]. split; [exact Hin'|].
  eexists. eassert (E : dst_sweep 20 interned_vm = Done _) by (vm_compute; reflexivity).
  split; [exact E|]. split; [reflexivity|]. split.
  - exact (sweep_uncaches_interned_once interned_vm interned_list 20 _ _ 500
             (mkblock 400 DST_MEMORY_STRING StringBody) Hc Hs E eq_refl Hin eq_refl).
  - exact (sweep_uncaches_interned_once interned_vm interned_list 20 _ _ 200
             (mkblock 100 DST_MEMORY_SYMBOL StringBody) Hc Hs E eq_refl Hin' eq_refl).
Defined.

Lemma sweep_finalizes_in_list_order_witness :
  chain (heap cyclic_vm) (dst_vm_blocks cyclic_vm)
    ([900] ++ 800 :: [] ++ 700 :: [600; 500; 400; 350; 300; 200; 100])
  ∧ ∃ vm', dst_sweep 20 cyclic_vm = Done vm'
      ∧ ∃ t1 t2 t3 t4,
          trace vm' = t1 ++ EvDeinit 800 :: t2 ++ EvFree 800 :: t3
                        ++ EvDeinit 700 :: t4
          ∧ EvFree 700 ∈ t4.
Proof.
  pose proof cyclic_vm_ok as (Hc & _ & Hs).
  split; [exact Hc|].
  eexists. eassert (E : dst_sweep 20 cyclic_vm = Done _) by (vm_compute; reflexivity).
  split; [exact E|].
  exact (sweep_finalizes_in_list_order cyclic_vm [900] []
           [600; 500; 400; 350; 300; 200; 100] 20 _ _ 800 700
           (mkblock 700 DST_MEMORY_ARRAY
              (ArrayBody {| array_data := 8000; array_count := 1 |}))
           (mkblock 600 DST_MEMORY_STRING StringBody)
           Hc ltac:(auto) E eq_refl eq_refl eq_refl eq_refl eq_refl).
Defined.

Lemma clear_memory_frees_all_witness :
  chain (heap cyclic_vm) (dst_vm_blocks cyclic_vm) cyclic_list
  ∧ (∀ a, a ∈ cyclic_list → sweepable (heap cyclic_vm) a)
  ∧ (∃ vm', dst_clear_memory (S (length cyclic_list)) cyclic_vm = Done vm')
  ∧ ∀ fuel vm', dst_clear_memory fuel cyclic_vm = Done vm' →
      dst_vm_blocks vm' = 0
      ∧ (∀ a, a ∈ cyclic_list → blocks (heap vm') !! a = None)
      ∧ (∀ a, a ∉ cyclic_list → blocks (heap vm') !! a = blocks (heap cyclic_vm) !! a)
      ∧ same_globals cyclic_vm vm'.
Proof.
  pose proof cyclic_vm_ok as (Hc & _ & Hs).
  split; [exact Hc|]. split; [exact Hs|].
  exact (clear_memory_frees_all cyclic_vm cyclic_list Hc Hs).
Defined.

Lemma clear_memory_finalizes_each_once_witness :
  chain (heap cyclic_vm) (dst_vm_blocks cyclic_vm) cyclic_list
  ∧ (∀ a, a ∈ cyclic_list → sweepable (heap cyclic_vm) a)
  ∧ 900 ∈ cyclic_list ∧ pinned (heap cyclic_vm) 900
  ∧ ∃ vm', dst_clear_memory 20 cyclic_vm = Done vm'
      ∧ (∃ t1 t2 t3, trace vm' = t1 ++ EvDeinit 900 :: t2 ++ EvFree 900 :: t3
                     ∧ (EvDeinit 900 ∉ t1 ++ t2 ++ t3)
                     ∧ (EvFree 900 ∉ t1 ++ t2 ++ t3))
      ∧ ∀ x f, EvStore x f ∉ trace vm'.
Proof.
  pose proof cyclic_vm_ok as (Hc & _ & Hs).
  assert (Hin : 900 ∈ cyclic_list) by left.
  split; [exact Hc|]. split; [exact Hs|]. split; [exact Hin|].
  split; [eexists; split; [vm_compute; reflexivity|by vm_compute]|].
  eexists. eassert (E : dst_clear_memory 20 cyclic_vm = Done _)
    by (vm_compute; reflexivity).
  split; [exact E|].
  exact (clear_memory_finalizes_each_once cyclic_vm cyclic_list 20 _ _ 900
           Hc Hs E eq_refl Hin).
Defined.

Lemma clear_memory_idempotent_witness :
  ∃ vm', dst_clear_memory 20 cyclic_vm = Done vm'
         ∧ dst_clear_memory 1 vm' = Done vm'.
Proof.
  eexists. eassert (E : dst_clear_memory 20 cyclic_vm = Done _)
    by (vm_compute; reflexivity).
  split; [exact E|]. exact (clear_memory_idempotent 20 cyclic_vm _ E).
Defined.

Lemma clear_memory_frees_owned_buffers_witness :
  chain (heap cyclic_vm) (dst_vm_blocks cyclic_vm) cyclic_list
  ∧ (∀ a, a ∈ cyclic_list → sweepable (heap cyclic_vm) a)
  ∧ ∃ vm', dst_clear_memory 20 cyclic_vm = Done vm'
      ∧ bufs (heap vm') !! 9000 = None
      ∧ bufs (heap vm') !! 1000 = None.
Proof.
  pose proof cyclic_vm_ok as (Hc & _ & Hs).
  split; [exact Hc|]. split; [exact Hs|].
  eexists. eassert (E : dst_clear_memory 20 cyclic_vm = Done _)
    by (vm_compute; reflexivity).
  split; [exact E|].
  destruct (clear_memory_frees_owned_buffers cyclic_vm cyclic_list 20 _ Hc Hs E)
    as [Hgone _].
  split.
  - eapply (Hgone 900 _ 9000); [left|vm_compute; reflexivity|left].
  - eapply (Hgone 100 _ 1000); [do 9 right; left|vm_compute; reflexivity|left].
Defined.

Lemma alloc_prepends_block_witness :
  chain (heap string_vm) (dst_vm_blocks string_vm) [100]
  ∧ blocks (heap string_vm) !! (4112 - sizeof_DstGCMemoryHeader) = None
  ∧ ∃ vm', dst_alloc (fun _ => 4096) DST_MEMORY_ARRAY 24 string_vm = Return 4112 vm'
      ∧ chain (heap vm') (dst_vm_blocks vm') [4096; 100]
      ∧ (∀ a, a ≠ 4096 → blocks (heap vm') !! a = blocks (heap string_vm) !! a)
      ∧ bufs (heap vm') = bufs (heap string_vm)
      ∧ trace vm' = trace string_vm
      ∧ dst_vm_fiber vm' = dst_vm_fiber string_vm
      ∧ dst_vm_cache vm' = dst_vm_cache string_vm
      ∧ (all_clear (heap string_vm) → all_clear (heap vm')).
Proof.
  assert (Hc : chain (heap string_vm) (dst_vm_blocks string_vm) [100])
    by (apply (walk_chain 3); vm_compute; reflexivity).
  assert (Hf : blocks (heap string_vm) !! (4112 - sizeof_DstGCMemoryHeader) = None)
    by (vm_compute; reflexivity).
  split; [exact Hc|]. split; [exact Hf|].
  eexists. eassert (E : dst_alloc (fun _ => 4096) DST_MEMORY_ARRAY 24 string_vm
                        = Return 4112 _) by (vm_compute; reflexivity).
  split; [exact E|].
  exact (alloc_prepends_block (fun _ => 4096) DST_MEMORY_ARRAY 24 string_vm 4112 _
           [100] E Hc Hf).
Defined.

Lemma alloc_exit_unchanged_witness :
  ∃ why vm', dst_alloc (fun _ => 0) DST_MEMORY_ARRAY 24 string_vm = Exit why vm'
    ∧ vm' = string_vm
    ∧ (why = PLEASE_INIT ↔ dst_vm_cache string_vm = 0)
    ∧ (why = OUT_OF_MEMORY ↔
       dst_vm_cache string_vm ≠ 0
       ∧ (fun _ => 0) (size_t (24 + sizeof_DstGCMemoryHeader)) = 0).
Proof.
  eexists _, _.
  eassert (E : dst_alloc (fun _ => 0) DST_MEMORY_ARRAY 24 string_vm = Exit _ _)
    by (vm_compute; reflexivity).
  split; [exact E|].
  exact (alloc_exit_unchanged (fun _ => 0) DST_MEMORY_ARRAY 24 string_vm _ _ E).
Defined.

Lemma pin_unpin_round_trip_witness :
  (∀ a, ref_header (RValue garbage_array) = Some a → ¬ pinned cyclic_heap a)
  ∧ ∃ h1, dst_pin garbage_array cyclic_heap = Done h1
          ∧ dst_unpin garbage_array h1 = Done cyclic_heap.
Proof.
  assert (Hnp : ∀ a, ref_header (RValue garbage_array) = Some a →
                     ¬ pinned cyclic_heap a).
  { intros a [= <-] (b & Hb & Hp). vm_compute in Hb. injection Hb as <-.
    vm_compute in Hp. discriminate Hp. }
  split; [exact Hnp|].
  eexists. eassert (E : dst_pin garbage_array cyclic_heap = Done _)
    by (vm_compute; reflexivity).
  split; [exact E|].
  exact (pin_unpin_round_trip garbage_array cyclic_heap _ E Hnp).
Defined.

Lemma pin_does_not_nest_witness :
  ∃ h1, dst_pin garbage_array cyclic_heap = Done h1
        ∧ dst_pin garbage_array h1 = Done h1
        ∧ ∀ h2 a, dst_unpin garbage_array h1 = Done h2 →
                  ref_header (RValue garbage_array) = Some a → ¬ pinned h2 a.
Proof.
  eexists. eassert (E : dst_pin garbage_array cyclic_heap = Done _)
    by (vm_compute; reflexivity).
  split; [exact E|].
  exact (pin_does_not_nest garbage_array cyclic_heap _ E).
Defined.

Lemma pin_sets_disabled_bit_only_witness :
  ref_header (RValue garbage_array) = Some 800
  ∧ ∃ h', dst_pin garbage_array cyclic_heap = Done h'
      ∧ pinned h' 800
      ∧ bufs h' = bufs cyclic_heap
      ∧ (∀ a', a' ≠ 800 → blocks h' !! a' = blocks cyclic_heap !! a')
      ∧ ∃ b b', blocks cyclic_heap !! 800 = Some b ∧ blocks h' !! 800 = Some b'
                ∧ next b' = next b ∧ body b' = body b
                ∧ Z.land (flags b') DST_MEM_TYPEBITS
                  = Z.land (flags b) DST_MEM_TYPEBITS
                ∧ reachable_bit (flags b') = reachable_bit (flags b).
Proof.
  split; [reflexivity|].
  eexists. eassert (E : dst_pin garbage_array cyclic_heap = Done _)
    by (vm_compute; reflexivity).
  split; [exact E|].
  exact (pin_sets_disabled_bit_only garbage_array cyclic_heap _ 800 E eq_refl).
Defined.

Lemma collect_preserves_invariant_witness :
  gc_inv cyclic_vm cyclic_list
  ∧ (∃ fuel vm', dst_collect fuel cyclic_vm = Done vm')
  ∧ ∀ fuel vm', dst_collect fuel cyclic_vm = Done vm' →
      ∃ l', gc_inv vm' l' ∧ ∀ a, a ∈ l' → a ∈ cyclic_list.
Proof.
  split; [exact cyclic_vm_inv|].
  exact (collect_preserves_invariant cyclic_vm cyclic_list cyclic_vm_inv).
Defined.

Lemma collect_twice_witness :
  gc_inv cyclic_vm cyclic_list
  ∧ ∃ vm1 vm2, dst_collect 20 cyclic_vm = Done vm1
      ∧ dst_collect 20 vm1 = Done vm2
      ∧ heap vm2 = heap vm1
      ∧ dst_vm_blocks vm2 = dst_vm_blocks vm1
      ∧ ∀ e, e ∈ drop (length (trace vm1)) (trace vm2) → ∃ x, e = EvStore x FFlags.
Proof.
  split; [exact cyclic_vm_inv|].
  eexists _, _.
  eassert (E1 : dst_collect 20 cyclic_vm = Done _) by (vm_compute; reflexivity).
  split; [exact E1|].
  match goal with
  | |- dst_collect ?f ?v = Done _ ∧ _ =>
      eassert (E2 : dst_collect f v = Done _) by (vm_compute; reflexivity)
  end.
  split; [exact E2|].
  exact (collect_twice cyclic_vm cyclic_list 20 20 _ _ cyclic_vm_inv E1 E2).
Defined.

